(** * Email warm-up service: scheduler, pool coordinator, campaign consumer
    and engagement worker.

    A shallow embedding of the four Cloudflare workers of the repository
    ([src/scheduler/index.ts] with the [PoolCoordinator] durable object,
    [src/consumer/index.ts], [src/engagement/index.ts]), of
    [filterUnsubscribeLinks], [extractLinks] and the raw message of
    [sendReply] from [src/utils/gmail.ts], and of the campaign report of
    [src/api/index.ts], followed by the properties proved about them.

    Conventions.
    - JavaScript integers (ids, millisecond timestamps, pool sizes) are [Z];
      the results of [Math.random()] and the engagement rates are rationals
      [Q] (every finite double is a rational and [<] on doubles is [<] on
      the rationals they denote).
    - Strings are [string]s of 8-bit code units.
    - A JavaScript [Map] or plain object used as a dictionary is a [gmap].
    - [await]ed calls that may reject, and [throw], are modelled by the
      [result] type; a handler is a function from a state to a new state
      and a [result] (the monad [M]).
    - What the outside world answers (the D1 store, durable storage, the
      queues, the Gmail API, the clock, the random generator) is an
      explicit input of each handler. *)

From Stdlib Require Import Ascii String ZArith QArith Qround.
From Stdlib Require Import DecimalString DecimalZ DecimalPos.
From stdpp Require Import gmap strings list fin_maps.

Local Open Scope Z_scope.

(** ** Exceptions and state: the monad of the handlers *)

(** The outcome of an [await]ed call or of a block of statements: a value,
    or a thrown [Error] of which only [error.message] is kept. *)
Inductive result (A : Type) : Type :=
| Ok (a : A)
| Throw (message : string).
Arguments Ok {A} a.
Arguments Throw {A} message.

Definition M (S A : Type) : Type := S → S * result A.

Global Instance M_ret {S} : MRet (M S) := λ A a s, (s, Ok a).
Global Instance M_bind {S} : MBind (M S) := λ A B k m s,
  match m s with
  | (s', Ok a) => k a s'
  | (s', Throw e) => (s', Throw e)
  end.

Definition throw {S A} (e : string) : M S A := λ s, (s, Throw e).
Definition get_state {S} : M S S := λ s, (s, Ok s).
Definition set_state {S} (s' : S) : M S unit := λ _, (s', Ok tt).
Definition lift_result {S A} (r : result A) : M S A := λ s, (s, r).

(** [try { body } catch (error) { handler(error) }]: the state reached when
    the exception was thrown is kept. *)
Definition try_catch {S A} (body : M S A) (handler : string → M S A) : M S A :=
  λ s, match body s with
       | (s', Ok a) => (s', Ok a)
       | (s', Throw e) => handler e s'
       end.

(** [for (const x of xs) { body(x) }] *)
Fixpoint for_of {S A} (xs : list A) (body : A → M S unit) : M S unit :=
  match xs with
  | [] => mret tt
  | x :: xs' => _ ← body x; for_of xs' body
  end.

(** ** JavaScript built-ins used by the workers *)

(** [Array.prototype.slice(0, end)]: a negative [end] counts from the end of
    the array, and both bounds are clamped to the array. *)
Definition slice0 {A} (l : list A) (end_ : Z) : list A :=
  let len := Z.of_nat (length l) in
  let k := if end_ <? 0 then Z.max (len + end_) 0 else Z.min end_ len in
  take (Z.to_nat k) l.

(** A JavaScript number that is an integer, or [NaN] ([None]). *)
Abbreviation number := (option Z).

(** [Number.prototype.toString()] on integers (below [1e21] in absolute
    value, where JavaScript prints plain decimal digits) and on [NaN]. *)
Definition toString (n : number) : string :=
  match n with
  | Some z => NilZero.string_of_int (Z.to_int z)
  | None => "NaN"%string
  end.

Definition is_white_space (c : ascii) : bool :=
  let n := Z.of_N (N_of_ascii c) in
  ((9 <=? n) && (n <=? 13)) || (n =? 32) || (n =? 160).

Fixpoint trim_start (s : string) : string :=
  match s with
  | String c s' => if is_white_space c then trim_start s' else s
  | EmptyString => s
  end.

Definition digit_value (c : ascii) : option Z :=
  let n := Z.of_N (N_of_ascii c) in
  if (48 <=? n) && (n <=? 57) then Some (n - 48)
  else if (97 <=? n) && (n <=? 122) then Some (n - 87)
  else if (65 <=? n) && (n <=? 90) then Some (n - 55)
  else None.

(** The longest prefix of digits of radix [R]; [acc] is [None] as long as no
    digit has been read. *)
Fixpoint parse_digits (R : Z) (s : string) (acc : option Z) : option Z :=
  match s with
  | EmptyString => acc
  | String c s' =>
      match digit_value c with
      | Some d => if d <? R then parse_digits R s' (Some (default 0 acc * R + d))
                  else acc
      | None => acc
      end
  end.

(** An optional sign: [-1] for a leading minus, [1] otherwise. *)
Definition strip_sign (s : string) : Z * string :=
  match s with
  | String c r =>
      if Ascii.eqb c "-" then (-1, r)
      else if Ascii.eqb c "+" then (1, r)
      else (1, s)
  | EmptyString => (1, s)
  end.

(** The radix, 16 after a [0x] or [0X] prefix and 10 otherwise. *)
Definition strip_radix_prefix (s : string) : Z * string :=
  match s with
  | String c (String x r) =>
      if Ascii.eqb c "0" && (Ascii.eqb x "x" || Ascii.eqb x "X") then (16, r)
      else (10, s)
  | _ => (10, s)
  end.

(** [parseInt(s)] without a radix argument: leading white space, an optional
    sign, an optional [0x] prefix selecting radix 16, then the longest
    prefix of digits; [NaN] when there is no digit. *)
Definition parseInt (s : string) : number :=
  let '(sign, s2) := strip_sign (trim_start s) in
  let '(R, s3) := strip_radix_prefix s2 in
  (λ n, sign * n) <$> parse_digits R s3 None.

(** ** The PoolCoordinator durable object ([src/scheduler/index.ts]) *)

Module PoolCoordinator.

(** A row of [SELECT id, last_used_at FROM gmail_accounts ...]. *)
Record AccountRow : Type := {
  id : Z;
  last_used_at : option string;
}.

(** The body of the [/select-accounts] request. *)
Record Request : Type := {
  poolSize : Z;
  campaignId : Z;
}.

(** [Response.json({ accountIds })], or
    [Response.json({ error: error.message }, { status: 500 })]. *)
Inductive Response : Type :=
| AccountIds (accountIds : list Z)
| ErrorResponse (error : string).

(** The object: the private field [lastUsedAccounts] (accountId ->
    timestamp) and what durable storage holds under the key
    ['lastUsedAccounts'] ([None]: nothing was ever stored) and as alarm. *)
Record t : Type := {
  lastUsedAccounts : gmap number Z;
  storage : option (gmap string Z);
  alarmTime : option Z;
}.

(** [new PoolCoordinator(state, env)] over a given durable storage. *)
Definition constructor (stored : option (gmap string Z)) (alarm_ : option Z) : t :=
  {| lastUsedAccounts := ∅; storage := stored; alarmTime := alarm_ |}.

(** What the outside world answers during one call. *)
Record Answers : Type := {
  storage_get : result unit;          (* does [storage.get] resolve? *)
  all_accounts : result (list AccountRow);  (* the store's answer to the SELECT *)
  now : Z;                            (* [Date.now()] *)
  storage_put : result unit;          (* does [storage.put] resolve? *)
}.

Definition minTimeBetweenUses : Z := 3600000.
Definition dayInMs : Z := 86400000.

(** The map a stored record hydrates to: [new Map(Object.entries(stored)
    .map(([k, v]) => [parseInt(k), v]))]. Keys written by [saveState] never
    collide after [parseInt]. *)
Definition entries_to_map (stored : gmap string Z) : gmap number Z :=
  kmap parseInt stored.

(** The record [saveState] builds: [toStore[accountId.toString()] = timestamp]. *)
Definition map_to_record (m : gmap number Z) : gmap string Z :=
  kmap toString m.

Definition loadState (get_ : result unit) : M t unit :=
  _ ← lift_result get_;
  this ← get_state;
  match storage this with
  | Some stored =>
      set_state {| lastUsedAccounts := entries_to_map stored;
                   storage := storage this; alarmTime := alarmTime this |}
  | None => mret tt
  end.

Definition saveState (put_ : result unit) : M t unit :=
  this ← get_state;
  let toStore := map_to_record (lastUsedAccounts this) in
  _ ← lift_result put_;
  set_state {| lastUsedAccounts := lastUsedAccounts this;
               storage := Some toStore; alarmTime := alarmTime this |}.

(** The callback of [allAccounts.filter]: [!lastUsed] holds for an absent
    entry and for the timestamp [0]. *)
Definition available (m : gmap number Z) (now_ : Z) (account : AccountRow) : bool :=
  match m !! Some (id account) with
  | None => true
  | Some lastUsed =>
      if lastUsed =? 0 then true else minTimeBetweenUses <=? now_ - lastUsed
  end.

(** [accountIds.forEach(id => this.lastUsedAccounts.set(id, now))] *)
Definition mark_used (now_ : Z) (accountIds : list Z) (m : gmap number Z) : gmap number Z :=
  foldl (λ m id_, <[Some id_ := now_]> m) m accountIds.

Definition selectAccounts_try (w : Answers) (request : Request) : M t Response :=
  _ ← loadState (storage_get w);
  allAccounts ← lift_result (all_accounts w);
  if Nat.eqb (length allAccounts) 0 then mret (AccountIds [])
  else
    this ← get_state;
    let availableAccounts :=
      filter (λ account, available (lastUsedAccounts this) (now w) account) allAccounts in
    let selectedAccounts :=
      slice0 availableAccounts
             (Z.min (poolSize request) (Z.of_nat (length availableAccounts))) in
    let accountIds := id <$> selectedAccounts in
    _ ← set_state {| lastUsedAccounts := mark_used (now w) accountIds (lastUsedAccounts this);
                     storage := storage this; alarmTime := alarmTime this |};
    _ ← saveState (storage_put w);
    mret (AccountIds accountIds).

Definition selectAccounts (w : Answers) (request : Request) : M t Response :=
  try_catch (selectAccounts_try w request) (λ error, mret (ErrorResponse error)).

(** [alarm()]: drop the entries older than 24 hours, persist, and re-arm
    the alarm one hour after a second reading [now2] of the clock. Nothing
    is caught here. *)
Definition alarm (w : Answers) (now2 : Z) (set_alarm : result unit) : M t unit :=
  _ ← loadState (storage_get w);
  this ← get_state;
  _ ← set_state {| lastUsedAccounts :=
                     filter (λ entry, ¬ (dayInMs < now w - entry.2)) (lastUsedAccounts this);
                   storage := storage this; alarmTime := alarmTime this |};
  _ ← saveState (storage_put w);
  _ ← lift_result set_alarm;
  this ← get_state;
  set_state {| lastUsedAccounts := lastUsedAccounts this;
               storage := storage this; alarmTime := Some (now2 + 3600000) |}.

(** The map a call works on once [loadState] has run. *)
Definition hydrated (this : t) : gmap number Z :=
  match storage this with
  | Some stored => entries_to_map stored
  | None => lastUsedAccounts this
  end.

(** The ids a call selects from the rows the store answered. *)
Definition picked (m : gmap number Z) (now_ poolSize_ : Z) (allAccounts : list AccountRow) : list Z :=
  let availableAccounts := filter (λ account, available m now_ account) allAccounts in
  id <$> slice0 availableAccounts
                (Z.min poolSize_ (Z.of_nat (length availableAccounts))).

(** *** The life of one allocator instance

    Calls on one durable object are serialized, so its history is a
    sequence of events: reservation calls, alarms, and evictions after
    which the runtime constructs a new instance over the same storage. *)
Inductive Event : Type :=
| Select (w : Answers) (request : Request)
| Alarm (w : Answers) (now2 : Z) (set_alarm : result unit)
| Restart.

Definition step (e : Event) (this : t) : t * option Response :=
  match e with
  | Select w request =>
      let '(this', response) := selectAccounts w request this in
      (this', match response with Ok r => Some r | Throw _ => None end)
  | Alarm w now2 set_alarm => ((alarm w now2 set_alarm this).1, None)
  | Restart => (constructor (storage this) (alarmTime this), None)
  end.

(** The successful reservations of a history, oldest first: the clock
    reading of the call and the account ids it returned. *)
Fixpoint reservations (es : list Event) (this : t) : list (Z * list Z) :=
  match es with
  | [] => []
  | e :: es' =>
      let '(this', response) := step e this in
      match e, response with
      | Select w _, Some (AccountIds ids) => (now w, ids) :: reservations es' this'
      | _, _ => reservations es' this'
      end
  end.

(** The clock readings of a history never go back and start after [t0]. *)
Fixpoint clock_from (t0 : Z) (es : list Event) : Prop :=
  match es with
  | [] => True
  | Select w _ :: es' | Alarm w _ _ :: es' => t0 ≤ now w ∧ clock_from (now w) es'
  | Restart :: es' => clock_from t0 es'
  end.

(** *** The invariant of a history

    Every timestamp held in memory or in storage is a past clock reading,
    hence positive; and an account returned at [t_i] is still remembered by
    the stored snapshot with a timestamp not older than [t_i], unless more
    than a day has passed since. *)
Definition positive_stamps (m : gmap number Z) : Prop :=
  ∀ k ts, m !! k = Some ts → 0 < ts.

Definition remembered (this : t) (T : Z) (past : Z * Z) : Prop :=
  past.1 ≤ T ∧
  ((∃ stored ts, storage this = Some stored
                 ∧ entries_to_map stored !! Some past.2 = Some ts ∧ past.1 ≤ ts)
   ∨ dayInMs < T - past.1).

Definition invariant (this : t) (T : Z) (past : list (Z * Z)) : Prop :=
  positive_stamps (lastUsedAccounts this)
  ∧ (∀ stored, storage this = Some stored → positive_stamps (entries_to_map stored))
  ∧ Forall (remembered this T) past.

(** *** Sample inputs *)

Definition sample_rows : list AccountRow :=
  [ {| id := 1; last_used_at := None |};
    {| id := 2; last_used_at := None |};
    {| id := 7; last_used_at := None |} ].

(** A call at time [now_] during which storage and store both answer. *)
Definition sample_world (now_ : Z) : Answers :=
  {| storage_get := Ok tt; all_accounts := Ok sample_rows;
     now := now_; storage_put := Ok tt |}.

Definition sample_request (poolSize_ : Z) : Request :=
  {| poolSize := poolSize_; campaignId := 1 |}.

Definition sample_history : list Event :=
  [ Select (sample_world 1000) (sample_request 2);
    Restart;
    Select (sample_world 2000) (sample_request 2);
    Alarm (sample_world 90000000) 90000001 (Ok tt);
    Select (sample_world 90000002) (sample_request 1) ].

End PoolCoordinator.

(** ** The link filter of [src/utils/gmail.ts] *)

Module Gmail.

(** [String.prototype.toLowerCase()] on 8-bit code units: the letters A-Z
    and the upper-case letters of Latin-1. *)
Definition lower_char (c : ascii) : ascii :=
  let n := N_of_ascii c in
  if ((65 <=? n) && (n <=? 90) || (192 <=? n) && (n <=? 214)
      || (216 <=? n) && (n <=? 222))%N
  then ascii_of_N (n + 32) else c.

Fixpoint toLowerCase (s : string) : string :=
  match s with
  | EmptyString => EmptyString
  | String c s' => String (lower_char c) (toLowerCase s')
  end.

Fixpoint startsWith (s keyword : string) : bool :=
  match keyword, s with
  | EmptyString, _ => true
  | String k keyword', String c s' => Ascii.eqb c k && startsWith s' keyword'
  | String _ _, EmptyString => false
  end.

(** [s.includes(keyword)] *)
Fixpoint includes (s keyword : string) : bool :=
  startsWith s keyword
  || match s with
     | EmptyString => false
     | String _ s' => includes s' keyword
     end.

Definition unsubscribeKeywords : list string :=
  ["unsubscribe"; "opt-out"; "optout"; "remove"; "manage-preferences"]%string.

Definition filterUnsubscribeLinks (links : list string) : list string :=
  List.filter
    (λ link,
       let lowerLink := toLowerCase link in
       negb (existsb (λ keyword, includes lowerLink keyword) unsubscribeKeywords))
    links.

(** A link contains a keyword case-insensitively when some piece of the
    link is the keyword up to letter case. *)
Definition mentions (link keyword : string) : Prop :=
  ∃ before piece after,
    link = (before ++ piece ++ after)%string ∧ toLowerCase piece = keyword.

Definition unsubscribe_link (link : string) : Prop :=
  ∃ keyword, keyword ∈ unsubscribeKeywords ∧ mentions link keyword.

(** *** [extractLinks]

    The pattern is [<a\s+(?:[^>]*?\s+)?href=QvQ] with the flags [g] and
    [i], where Q stands for the double quote and v for the captured group,
    a run [[^Q]*] of other characters. It is matched by backtracking, in
    the order the language fixes: a greedy quantifier
    tries the longest run first and gives characters back one by one, a
    lazy one tries the shortest run first, and an optional group is tried
    before it is skipped. Each matcher below takes the continuation [k],
    what remains to be matched, and returns the first success: the text
    captured by the group and the text after the match. *)

(** The double quote. *)
Definition quote : ascii := "034"%char.

(** A character of the pattern. With the flag [i] a letter matches in
    either case; the pattern is written in lower case. *)
Definition letter {R} (p : ascii) (k : string → option R) (s : string) : option R :=
  match s with
  | String c s' => if Ascii.eqb (lower_char c) p then k s' else None
  | EmptyString => None
  end.

(** [p*], greedy. *)
Fixpoint greedy {R} (p : ascii → bool) (k : string → option R) (s : string) : option R :=
  match s with
  | String c s' =>
      if p c then match greedy p k s' with
                  | Some r => Some r
                  | None => k s
                  end
      else k s
  | EmptyString => k s
  end.

(** [p+], greedy. *)
Definition greedy1 {R} (p : ascii → bool) (k : string → option R) (s : string)
    : option R :=
  match s with
  | String c s' => if p c then greedy p k s' else None
  | EmptyString => None
  end.

(** [p*?], lazy. *)
Fixpoint lazy {R} (p : ascii → bool) (k : string → option R) (s : string) : option R :=
  match k s with
  | Some r => Some r
  | None =>
      match s with
      | String c s' => if p c then lazy p k s' else None
      | EmptyString => None
      end
  end.

(** [p*] greedy, as the capturing group: [k] receives the captured text. *)
Fixpoint capture {R} (p : ascii → bool) (k : string → string → option R) (s : string)
    : option R :=
  match s with
  | String c s' =>
      if p c then match capture p (λ text, k (String c text)) s' with
                  | Some r => Some r
                  | None => k EmptyString s
                  end
      else k EmptyString s
  | EmptyString => k EmptyString s
  end.

(** The classes [[^>]] and [[^Q]]. *)
Definition not_gt (c : ascii) : bool := negb (Ascii.eqb c ">").
Definition not_quote (c : ascii) : bool := negb (Ascii.eqb c quote).

(** [href=QvQ], the end of the pattern. *)
Definition href_value : string → option (string * string) :=
  letter "h" (letter "r" (letter "e" (letter "f" (letter "=" (letter quote
    (capture not_quote (λ link, letter quote (λ rest, Some (link, rest))))))))).

(** The whole pattern, matched at the start of [s]. *)
Definition anchor (s : string) : option (string * string) :=
  letter "<" (letter "a" (greedy1 is_white_space (λ s1,
    match lazy not_gt (greedy1 is_white_space href_value) s1 with
    | Some r => Some r
    | None => href_value s1
    end))) s.

(** The loop over [linkRegex.exec]: the pattern is tried at each position
    from [lastIndex] on, and after a match [lastIndex] is the end of the
    match. [skip] is the number of characters left before [lastIndex]. *)
Fixpoint scan (s : string) (skip : nat) : list string :=
  match s with
  | EmptyString => []
  | String c s' =>
      match skip with
      | S n => scan s' n
      | O =>
          match anchor s with
          | Some (link, rest) =>
              link :: scan s' (String.length s - String.length rest - 1)
          | None => scan s' 0
          end
      end
  end.

Definition extractLinks (htmlContent : string) : list string := scan htmlContent 0.

(** Every character of a text satisfies [p]. *)
Fixpoint every (p : ascii → bool) (s : string) : bool :=
  match s with
  | EmptyString => true
  | String c s' => p c && every p s'
  end.

(** The text [href=Q]. *)
Definition href_open : string := String "h" (String "r" (String "e" (String "f"
  (String "=" (String quote EmptyString))))).

(** *** The raw message of [sendReply] *)

(** The base64 digit of a number below 64. *)
Definition base64_digit (n : N) : ascii :=
  (if n <? 26 then ascii_of_N (65 + n)
   else if n <? 52 then ascii_of_N (97 + (n - 26))
   else if n <? 62 then ascii_of_N (48 + (n - 52))
   else if n =? 62 then "+"%char else "/"%char)%N.

(** [btoa] on 8-bit code units: three characters give four digits, and a
    last group of one or two characters is padded with [=]. *)
Fixpoint btoa (s : string) : string :=
  match s with
  | EmptyString => EmptyString
  | String a EmptyString =>
      let x := N_of_ascii a in
      String (base64_digit (x / 4)) (String (base64_digit (x mod 4 * 16))
        (String "=" (String "=" EmptyString)))
  | String a (String b EmptyString) =>
      let x := N_of_ascii a in
      let y := N_of_ascii b in
      String (base64_digit (x / 4)) (String (base64_digit (x mod 4 * 16 + y / 16))
        (String (base64_digit (y mod 16 * 4)) (String "=" EmptyString)))
  | String a (String b (String c rest)) =>
      let x := N_of_ascii a in
      let y := N_of_ascii b in
      let z := N_of_ascii c in
      String (base64_digit (x / 4)) (String (base64_digit (x mod 4 * 16 + y / 16))
        (String (base64_digit (y mod 16 * 4 + z / 64)) (String (base64_digit (z mod 64))
          (btoa rest))))
  end%N.

(** [s.replace(/x/g, y)] for single characters [x] and [y]. *)
Fixpoint replace_all (x y : ascii) (s : string) : string :=
  match s with
  | EmptyString => EmptyString
  | String c s' => String (if Ascii.eqb c x then y else c) (replace_all x y s')
  end.

(** [s.replace(/=+$/, '')]: the run of [=] that ends the text is removed. *)
Fixpoint strip_padding (s : string) : string :=
  match s with
  | EmptyString => EmptyString
  | String c s' =>
      match strip_padding s' with
      | EmptyString => if Ascii.eqb c "=" then EmptyString else String c EmptyString
      | rest => String c rest
      end
  end.

(** [lines.join('\r\n')] *)
Fixpoint join_crlf (lines : list string) : string :=
  match lines with
  | [] => EmptyString
  | [line] => line
  | line :: rest => (line ++ String "013" (String "010" (join_crlf rest)))%string
  end.

(** The field [raw] of the request [sendReply] posts; [threadId] goes
    beside it, unencoded. *)
Definition raw_reply (to subject body messageId : string) : string :=
  let email := join_crlf [ ("To: " ++ to)%string; ("Subject: Re: " ++ subject)%string;
                           ("In-Reply-To: " ++ messageId)%string;
                           ("References: " ++ messageId)%string;
                           EmptyString; body ] in
  strip_padding (replace_all "/" "_" (replace_all "+" "-" (btoa email))).

(** The alphabet of base64url: letters, digits, [-] and [_]. *)
Definition url_safe (c : ascii) : bool :=
  let n := N_of_ascii c in
  ((65 <=? n) && (n <=? 90) || (97 <=? n) && (n <=? 122) || (48 <=? n) && (n <=? 57)
   || (n =? 45) || (n =? 95))%N.

End Gmail.

(** ** Messages, tables and the outside world of the queue workers *)

Inductive ActionType : Type := open | click | reply | move_to_inbox.

Module CampaignQueueMessage.
Record t : Type := { campaignId : Z }.
End CampaignQueueMessage.

Module EngagementQueueMessage.
Record t : Type := {
  campaignId : Z;
  gmailAccountId : Z;
  senderEmail : string;
  actionType : ActionType;
}.
End EngagementQueueMessage.

Module EngagementSettings.
Record t : Type := {
  open_rate : Q;
  click_rate : Q;
  reply_rate : Q;
  move_to_inbox_rate : Q;
}.
End EngagementSettings.

Module OAuthCredentials.
Record t : Type := {
  access_token : string;
  refresh_token : string;
  expiry_date : Z;
}.
End OAuthCredentials.

(** The tables of the D1 schema. *)
Module campaigns.
Inductive Status : Type := active | paused | completed.
Record row : Type := {
  id : Z;
  client_id : Z;
  sender_email : string;
  pool_size : Z;
  engagement_settings : string;       (* JSON text *)
  status : Status;
}.
Definition is_active (r : row) : bool :=
  match status r with active => true | _ => false end.
End campaigns.

Module gmail_accounts.
Inductive Status : Type := active | needs_reauth | disabled.
Record row : Type := {
  id : Z;
  email_address : string;
  oauth_credentials : string;         (* encrypted JSON text *)
  status : Status;
  last_used_at : option string;
}.
Definition is_active (r : row) : bool :=
  match status r with active => true | _ => false end.
End gmail_accounts.

Module engagement_logs.
Inductive Status : Type := success | failed.
Record row : Type := {
  campaign_id : Z;
  gmail_account_id : Z;
  action_type : ActionType;
  target_email_subject : option string;
  status : Status;
  error_message : option string;
}.
End engagement_logs.

Record Database : Type := {
  campaigns_table : list campaigns.row;
  gmail_accounts_table : list gmail_accounts.row;
  engagement_logs_table : list engagement_logs.row;   (* oldest first *)
}.

(** A message as the Gmail API returns it with [format=full], as far as the
    engagement worker reads it. A text/html payload or part is taken to
    carry its [body.data], which the worker decodes without testing it. *)
Module GmailMessage.
Record Header : Type := { name : string; value : string }.
Record SubPart : Type := { sub_mimeType : string; sub_data : string }.
Record Part : Type := {
  part_mimeType : string;
  part_data : string;
  part_parts : option (list SubPart);
}.
Record t : Type := {
  threadId : string;
  headers : list Header;              (* payload.headers *)
  mimeType : string;                  (* payload.mimeType *)
  data : string;                      (* payload.body.data *)
  parts : option (list Part);         (* payload.parts *)
}.
End GmailMessage.

(** Every call a worker makes on the outside world. *)
Inductive Call : Type :=
(* D1 statements *)
| SelectActiveCampaigns
| SelectActiveCampaign (campaignId : Z)
| SelectActiveAccount (gmailAccountId : Z)
| InsertEngagementLog (row : engagement_logs.row)
| UpdateCredentials (gmailAccountId : Z) (encrypted : string)
| UpdateLastUsedAt (gmailAccountId : Z) (last_used_at : string)
(* queues and the durable object *)
| SendCampaign (message : CampaignQueueMessage.t)
| SendEngagement (message : EngagementQueueMessage.t) (delaySeconds : Z)
| FetchSelectAccounts (poolSize campaignId : Z)
| AckCampaign (message : CampaignQueueMessage.t)
| RetryCampaign (message : CampaignQueueMessage.t)
| AckEngagement (message : EngagementQueueMessage.t)
| RetryEngagement (message : EngagementQueueMessage.t)
(* credentials and the mailbox provider *)
| DecryptCredentials (encrypted : string)
| EncryptCredentials (credentials : OAuthCredentials.t)
| RefreshAccessToken (refresh_token : string)
| ListMessages (accessToken senderEmail : string) (maxResults : Z)
| GetMessage (accessToken messageId : string)
| ModifyMessage (accessToken messageId : string) (addLabels removeLabels : list string)
| SendReply (accessToken to subject body threadId messageId : string)
| FetchHead (link : string).

(** What the outside world answers. A run numbers its interactions with the
    world 0, 1, 2, ...; the answer to interaction [t] is read at index [t].
    The calls of [src/utils/gmail.ts] ([listMessages], [getMessage],
    [modifyMessage], [sendReply], [refreshAccessToken]) wrap one [fetch]
    each; their answers are the world's. The last four fields are pure
    functions kept as parameters: [JSON.parse], [Date.prototype.toISOString],
    base64 decoding, and the regular-expression scan [extractLinks]. The
    properties of the worker hold for every such scan; the scan of the
    source is [Gmail.extractLinks], and where a property is about it the
    parameter is assumed to be that function. *)
Record Env : Type := {
  d1_error : nat → option string;       (* the D1 statement fails *)
  queue_send : nat → result unit;       (* [QUEUE.send] *)
  select_accounts : nat → result PoolCoordinator.Response;
  decrypt : nat → result OAuthCredentials.t;
  encrypt : nat → result string;
  refresh : nat → result OAuthCredentials.t;
  list_messages : nat → result (list string);   (* the ids of the messages *)
  get_message : nat → result GmailMessage.t;
  modify_message : nat → result unit;
  send_reply : nat → result unit;
  fetch_head : nat → result unit;
  date_now : nat → Z;                   (* [Date.now()] *)
  math_random : nat → Q;                (* [Math.random()] *)
  JSON_parse : string → result EngagementSettings.t;
  toISOString : Z → string;
  base64_decode : string → string;
  extractLinks : string → list string;
}.

(** The state of a run: the number of interactions so far, the store, and
    the calls made, oldest first, each with whether it succeeded. *)
Record World : Type := {
  tick : nat;
  db : Database;
  trace : list (Call * bool);
}.

Definition is_ok {A} (r : result A) : bool :=
  match r with Ok _ => true | Throw _ => false end.

(** An awaited call answered by the world. *)
Definition call {A} (c : Call) (answer : nat → result A) : M World A :=
  λ s, let r := answer (tick s) in
       ({| tick := S (tick s); db := db s; trace := trace s ++ [(c, is_ok r)] |}, r).

(** [message.ack()] and [message.retry()] never fail. *)
Definition signal (c : Call) : M World unit := call c (λ _, Ok tt).

(** Reading the clock or the random generator. *)
Definition observe {A} (oracle : nat → A) : M World A :=
  λ s, ({| tick := S (tick s); db := db s; trace := trace s |}, Ok (oracle (tick s))).

(** A D1 statement: when the store answers, [effect] is applied to the
    tables and [answer] read from them. *)
Definition d1 {A} (env : Env) (c : Call) (effect : Database → Database)
    (answer : Database → A) : M World A :=
  λ s, match d1_error env (tick s) with
       | Some e =>
           ({| tick := S (tick s); db := db s; trace := trace s ++ [(c, false)] |},
            Throw e)
       | None =>
           ({| tick := S (tick s); db := effect (db s); trace := trace s ++ [(c, true)] |},
            Ok (answer (db s)))
       end.

(** A handler that only makes calls satisfying [P], whatever the state and
    the outcome; and one that does so at least on the runs that throw. *)
Definition emits {A} (P : Call → Prop) (m : M World A) : Prop :=
  ∀ s, ∃ calls, trace (m s).1 = trace s ++ calls ∧ Forall (λ c, P c.1) calls.

Definition emits_on_throw {A} (P : Call → Prop) (m : M World A) : Prop :=
  ∀ s s' e, m s = (s', Throw e) →
    ∃ calls, trace s' = trace s ++ calls ∧ Forall (λ c, P c.1) calls.

(** The calls that settle a queue message. *)
Definition queue_signal (c : Call) : Prop :=
  match c with
  | AckCampaign _ | RetryCampaign _ | AckEngagement _ | RetryEngagement _ => True
  | _ => False
  end.

(** A handler that makes no settling call until, when it returns normally,
    it signals [c] as its last call. *)
Definition settles {A} (c : Call) (m : M World A) : Prop :=
  ∀ s, ∃ calls, Forall (λ x : Call * bool, ¬ queue_signal x.1) calls
                ∧ trace (m s).1
                  = trace s ++ calls ++ (if is_ok (m s).2 then [(c, true)] else []).

(** A handler whose effect on the store is within the relation [R]. *)
Definition keeps {A} (R : Database → Database → Prop) (m : M World A) : Prop :=
  ∀ s, R (db s) (db (m s).1).

(** A handler that always returns normally. *)
Definition returns {A} (m : M World A) : Prop := ∀ s, is_ok (m s).2 = true.

(** A handler whose calls, taken as a list, satisfy [Q], whatever the state
    and the outcome. *)
Definition appends {A} (Q : list (Call * bool) → Prop) (m : M World A) : Prop :=
  ∀ s, ∃ calls, trace (m s).1 = trace s ++ calls ∧ Q calls.

(** The store relation of a handler that leaves the log table alone. *)
Definition same_logs (d d' : Database) : Prop :=
  engagement_logs_table d' = engagement_logs_table d.

(** A handler that appends exactly one row to the log table, satisfying
    [Q], when it returns normally, and none when it throws. *)
Definition inserts {A} (Q : engagement_logs.row → Prop) (m : M World A) : Prop :=
  ∀ s, ∃ rows,
    engagement_logs_table (db (m s).1) = engagement_logs_table (db s) ++ rows
    ∧ Forall Q rows
    ∧ length rows = if is_ok (m s).2 then 1%nat else 0%nat.

(** A run starts with no interaction made. *)
Definition start (tables : Database) : World :=
  {| tick := 0; db := tables; trace := [] |}.

(** [Math.random() < rate] *)
Definition Qltb (x y : Q) : bool := negb (Qle_bool y x).

(** ** The scheduler ([src/scheduler/index.ts]) *)

Module Scheduler.
Section scheduled.
Variable env : Env.

(** [SELECT id, sender_email, pool_size FROM campaigns WHERE status = 'active'] *)
Definition select_active_campaigns : M World (list campaigns.row) :=
  d1 env SelectActiveCampaigns (λ tables, tables)
     (λ tables, List.filter campaigns.is_active (campaigns_table tables)).

Definition message_of (campaign : campaigns.row) : CampaignQueueMessage.t :=
  {| CampaignQueueMessage.campaignId := campaigns.id campaign |}.

Definition scheduled : M World unit :=
  try_catch
    (campaigns ← select_active_campaigns;
     for_of campaigns (λ campaign,
       let message := message_of campaign in
       call (SendCampaign message) (queue_send env)))
    (λ error, throw error).

End scheduled.

(** The Campaign Channel messages published by a trace. *)
Definition published (calls : list (Call * bool)) : list CampaignQueueMessage.t :=
  omap (λ c : Call * bool,
          match c with (SendCampaign message, true) => Some message | _ => None end)
       calls.

End Scheduler.

(** ** The campaign consumer ([src/consumer/index.ts]) *)

Module Consumer.
Section queue.
Variable env : Env.

(** [SELECT * FROM campaigns WHERE id = ? AND status = 'active'], [first()] *)
Definition select_active_campaign (campaignId : Z) : M World (option campaigns.row) :=
  d1 env (SelectActiveCampaign campaignId) (λ tables, tables)
     (λ tables, List.find (λ r, (campaigns.id r =? campaignId) && campaigns.is_active r)
                          (campaigns_table tables)).

Definition sample (rate : Q) : M World bool :=
  r ← observe (math_random env); mret (Qltb r rate).

(** [if (drawn) actions.push(actionType)] *)
Definition push_if (drawn : bool) (actionType : ActionType) : list ActionType :=
  if drawn then [actionType] else [].

(** The four independent draws that fill [actions], in the order of the
    source. *)
Definition choose_actions (engagementSettings : EngagementSettings.t)
    : M World (list ActionType) :=
  to_inbox ← sample (EngagementSettings.move_to_inbox_rate engagementSettings);
  opened ← sample (EngagementSettings.open_rate engagementSettings);
  clicked ← sample (EngagementSettings.click_rate engagementSettings);
  replied ← sample (EngagementSettings.reply_rate engagementSettings);
  mret (push_if to_inbox move_to_inbox ++ push_if opened open
        ++ push_if clicked click ++ push_if replied reply).

Definition enqueue_action (campaignId accountId : Z) (senderEmail : string)
    (actionType : ActionType) : M World unit :=
  let engagementMessage :=
    {| EngagementQueueMessage.campaignId := campaignId;
       EngagementQueueMessage.gmailAccountId := accountId;
       EngagementQueueMessage.senderEmail := senderEmail;
       EngagementQueueMessage.actionType := actionType |} in
  r ← observe (math_random env);
  let delaySeconds := Qfloor (r * 300) in
  call (SendEngagement engagementMessage delaySeconds) (queue_send env).

Definition expand_account (campaignId : Z) (senderEmail : string)
    (engagementSettings : EngagementSettings.t) (accountId : Z) : M World unit :=
  actions ← choose_actions engagementSettings;
  for_of actions (enqueue_action campaignId accountId senderEmail).

Definition process (message : CampaignQueueMessage.t) : M World unit :=
  let campaignId := CampaignQueueMessage.campaignId message in
  campaign ← select_active_campaign campaignId;
  match campaign with
  | None => signal (AckCampaign message)
  | Some campaign =>
      let senderEmail := campaigns.sender_email campaign in
      let poolSize := campaigns.pool_size campaign in
      engagementSettings ← lift_result (JSON_parse env (campaigns.engagement_settings campaign));
      response ← call (FetchSelectAccounts poolSize campaignId) (select_accounts env);
      match response with
      | PoolCoordinator.ErrorResponse _ =>
          throw "Cannot read properties of undefined (reading 'length')"
      | PoolCoordinator.AccountIds accountIds =>
          if Nat.eqb (length accountIds) 0 then signal (AckCampaign message)
          else
            _ ← for_of accountIds (expand_account campaignId senderEmail engagementSettings);
            signal (AckCampaign message)
      end
  end.

Definition queue_message (message : CampaignQueueMessage.t) : M World unit :=
  try_catch (process message) (λ _, signal (RetryCampaign message)).

Definition queue (batch : list CampaignQueueMessage.t) : M World unit :=
  for_of batch queue_message.

End queue.

(** The task expected for an account when only [open] is drawn. *)
Definition open_task (campaignId : Z) (senderEmail : string) (accountId : Z)
    : EngagementQueueMessage.t :=
  {| EngagementQueueMessage.campaignId := campaignId;
     EngagementQueueMessage.gmailAccountId := accountId;
     EngagementQueueMessage.senderEmail := senderEmail;
     EngagementQueueMessage.actionType := open |}.

(** How a trace settles campaign messages, oldest first: the message and
    whether it was acknowledged ([true]) or sent back for retry. *)
Definition settlements (calls : list (Call * bool))
    : list (CampaignQueueMessage.t * bool) :=
  omap (λ c : Call * bool,
          match c.1 with
          | AckCampaign message => Some (message, true)
          | RetryCampaign message => Some (message, false)
          | _ => None
          end) calls.

(** The action kinds of the [send] calls of a trace, accepted or not. *)
Definition kinds_sent (calls : list (Call * bool)) : list ActionType :=
  omap (λ c : Call * bool,
          match c.1 with
          | SendEngagement message _ => Some (EngagementQueueMessage.actionType message)
          | _ => None
          end) calls.

(** The Engagement Channel messages published by a trace, with their
    delays. *)
Definition published (calls : list (Call * bool))
    : list (EngagementQueueMessage.t * Z) :=
  omap (λ c : Call * bool,
          match c with
             | (SendEngagement message delay, true) => Some (message, delay)
             | _ => None
             end) calls.

End Consumer.

(** ** The engagement worker ([src/engagement/index.ts]) *)

Module Engagement.

(** [arr[Math.floor(r * arr.length)]], [undefined] out of range. *)
Definition pick {A} (arr : list A) (r : Q) : option A :=
  let i := Qfloor (r * inject_Z (Z.of_nat (length arr))) in
  if i <? 0 then None else arr !! Z.to_nat i.

(** [headers.find(h => h.name === 'Subject')?.value || 'No Subject'] *)
Definition subject_of (message : GmailMessage.t) : string :=
  match List.find (λ h, String.eqb (GmailMessage.name h) "Subject")
                  (GmailMessage.headers message) with
  | Some h => if String.eqb (GmailMessage.value h) EmptyString then "No Subject"%string
              else GmailMessage.value h
  | None => "No Subject"%string
  end.

Definition replies : list string :=
  [ "Thank you for reaching out!"; "Thanks for the information.";
    "Appreciate the update!"; "Got it, thanks!"; "Thanks for sharing this.";
    "This is helpful, thank you!" ]%string.

(** [UPDATE gmail_accounts SET oauth_credentials = ? WHERE id = ?] *)
Definition set_credentials (gmailAccountId : Z) (encrypted : string)
    (tables : Database) : Database :=
  {| campaigns_table := campaigns_table tables;
     gmail_accounts_table :=
       (λ r, if gmail_accounts.id r =? gmailAccountId
             then {| gmail_accounts.id := gmail_accounts.id r;
                     gmail_accounts.email_address := gmail_accounts.email_address r;
                     gmail_accounts.oauth_credentials := encrypted;
                     gmail_accounts.status := gmail_accounts.status r;
                     gmail_accounts.last_used_at := gmail_accounts.last_used_at r |}
             else r) <$> gmail_accounts_table tables;
     engagement_logs_table := engagement_logs_table tables |}.

(** [UPDATE gmail_accounts SET last_used_at = ? WHERE id = ?] *)
Definition set_last_used_at (gmailAccountId : Z) (timestamp : string)
    (tables : Database) : Database :=
  {| campaigns_table := campaigns_table tables;
     gmail_accounts_table :=
       (λ r, if gmail_accounts.id r =? gmailAccountId
             then {| gmail_accounts.id := gmail_accounts.id r;
                     gmail_accounts.email_address := gmail_accounts.email_address r;
                     gmail_accounts.oauth_credentials := gmail_accounts.oauth_credentials r;
                     gmail_accounts.status := gmail_accounts.status r;
                     gmail_accounts.last_used_at := Some timestamp |}
             else r) <$> gmail_accounts_table tables;
     engagement_logs_table := engagement_logs_table tables |}.

(** [INSERT INTO engagement_logs (...) VALUES (...)] *)
Definition add_log (row : engagement_logs.row) (tables : Database) : Database :=
  {| campaigns_table := campaigns_table tables;
     gmail_accounts_table := gmail_accounts_table tables;
     engagement_logs_table := engagement_logs_table tables ++ [row] |}.

(** The row [logEngagement] inserts for a task. *)
Definition log_row (message : EngagementQueueMessage.t) (status : engagement_logs.Status)
    (errorMessage subject : option string) : engagement_logs.row :=
  {| engagement_logs.campaign_id := EngagementQueueMessage.campaignId message;
     engagement_logs.gmail_account_id := EngagementQueueMessage.gmailAccountId message;
     engagement_logs.action_type := EngagementQueueMessage.actionType message;
     engagement_logs.target_email_subject := subject;
     engagement_logs.status := status;
     engagement_logs.error_message := errorMessage |}.

(** [FOREIGN KEY (campaign_id) REFERENCES campaigns(id)] and
    [FOREIGN KEY (gmail_account_id) REFERENCES gmail_accounts(id)] of the
    schema of [engagement_logs]: the store accepts a row only when its
    campaign and its account are rows of their tables. *)
Definition foreign_keys_hold (tables : Database) (row : engagement_logs.row) : Prop :=
  (∃ campaign, campaign ∈ campaigns_table tables
               ∧ campaigns.id campaign = engagement_logs.campaign_id row)
  ∧ (∃ account, account ∈ gmail_accounts_table tables
                ∧ gmail_accounts.id account = engagement_logs.gmail_account_id row).

Section queue.
Variable env : Env.

Definition logEngagement (campaignId gmailAccountId : Z) (actionType : ActionType)
    (status : engagement_logs.Status) (errorMessage subject : option string)
    : M World unit :=
  let row := {| engagement_logs.campaign_id := campaignId;
                engagement_logs.gmail_account_id := gmailAccountId;
                engagement_logs.action_type := actionType;
                engagement_logs.target_email_subject := subject;
                engagement_logs.status := status;
                engagement_logs.error_message := errorMessage |} in
  d1 env (InsertEngagementLog row) (add_log row) (λ _, tt).

Fixpoint html_of_subparts (subParts : list GmailMessage.SubPart) : option string :=
  match subParts with
  | [] => None
  | subPart :: rest =>
      if String.eqb (GmailMessage.sub_mimeType subPart) "text/html"
      then Some (base64_decode env (GmailMessage.sub_data subPart))
      else html_of_subparts rest
  end.

Fixpoint html_of_parts (parts : list GmailMessage.Part) : option string :=
  match parts with
  | [] => None
  | part :: rest =>
      if String.eqb (GmailMessage.part_mimeType part) "text/html"
      then Some (base64_decode env (GmailMessage.part_data part))
      else
        match GmailMessage.part_parts part with
        | Some subParts =>
            match html_of_subparts subParts with
            | Some html => Some html
            | None => html_of_parts rest
            end
        | None => html_of_parts rest
        end
  end.

Definition getHtmlContent (message : GmailMessage.t) : option string :=
  if String.eqb (GmailMessage.mimeType message) "text/html"
  then Some (base64_decode env (GmailMessage.data message))
  else
    match GmailMessage.parts message with
    | Some parts => html_of_parts parts
    | None => None
    end.

Definition generateReply : M World string :=
  r ← observe (math_random env);
  mret (default "undefined"%string (pick replies r)).

(** The [click] case; a string is truthy when it is not empty. *)
Definition click_link (fullMessage : GmailMessage.t)
    (log : engagement_logs.Status → option string → option string → M World unit)
    (subject : string) : M World unit :=
  match getHtmlContent fullMessage with
  | Some htmlContent =>
      if String.eqb htmlContent EmptyString
      then log engagement_logs.failed (Some "No HTML content"%string) (Some subject)
      else
        let links := extractLinks env htmlContent in
        let safeLinks := Gmail.filterUnsubscribeLinks links in
        if Nat.ltb 0 (length safeLinks) then
          r ← observe (math_random env);
          let randomLink := pick safeLinks r in
          try_catch
            (_ ← match randomLink with
                 | Some link => call (FetchHead link) (fetch_head env)
                 | None => throw "Invalid URL"
                 end;
             log engagement_logs.success None (Some subject))
            (λ _, log engagement_logs.failed (Some "Link click failed"%string) (Some subject))
        else log engagement_logs.failed (Some "No safe links found"%string) (Some subject)
  | None => log engagement_logs.failed (Some "No HTML content"%string) (Some subject)
  end.

Definition performEngagementAction (accessToken : string) (campaignId gmailAccountId : Z)
    (senderEmail : string) (actionType : ActionType) : M World unit :=
  let log := logEngagement campaignId gmailAccountId actionType in
  try_catch
    (messages ← call (ListMessages accessToken senderEmail 5) (list_messages env);
     if Nat.eqb (length messages) 0
     then log engagement_logs.failed (Some "No messages found"%string) None
     else
       r ← observe (math_random env);
       match pick messages r with
       | None => throw "Cannot read properties of undefined (reading 'id')"
       | Some messageId =>
           fullMessage ← call (GetMessage accessToken messageId) (get_message env);
           let subject := subject_of fullMessage in
           match actionType with
           | move_to_inbox =>
               _ ← call (ModifyMessage accessToken messageId ["INBOX"]
                           ["SPAM"; "CATEGORY_PROMOTIONS"; "CATEGORY_UPDATES"]%string)
                        (modify_message env);
               log engagement_logs.success None (Some subject)
           | open =>
               _ ← call (ModifyMessage accessToken messageId [] ["UNREAD"]%string)
                        (modify_message env);
               log engagement_logs.success None (Some subject)
           | click => click_link fullMessage log subject
           | reply =>
               replyBody ← generateReply;
               _ ← call (SendReply accessToken senderEmail subject replyBody
                           (GmailMessage.threadId fullMessage) messageId)
                        (send_reply env);
               log engagement_logs.success None (Some subject)
           end
       end)
    (λ error, throw error).

(** [SELECT * FROM gmail_accounts WHERE id = ? AND status = 'active'], [first()] *)
Definition select_active_account (gmailAccountId : Z)
    : M World (option gmail_accounts.row) :=
  d1 env (SelectActiveAccount gmailAccountId) (λ tables, tables)
     (λ tables, List.find (λ r, (gmail_accounts.id r =? gmailAccountId)
                                && gmail_accounts.is_active r)
                          (gmail_accounts_table tables)).

(** Decrypt the credentials of the account and refresh them when expired. *)
Definition valid_credentials (account : gmail_accounts.row) (gmailAccountId : Z)
    : M World OAuthCredentials.t :=
  credentials ← call (DecryptCredentials (gmail_accounts.oauth_credentials account))
                     (decrypt env);
  now_ ← observe (date_now env);
  if OAuthCredentials.expiry_date credentials <? now_ then
    refreshed ← call (RefreshAccessToken (OAuthCredentials.refresh_token credentials))
                     (refresh env);
    encryptedCreds ← call (EncryptCredentials refreshed) (encrypt env);
    _ ← d1 env (UpdateCredentials gmailAccountId encryptedCreds)
              (set_credentials gmailAccountId encryptedCreds) (λ _, tt);
    mret refreshed
  else mret credentials.

(** What follows [performEngagementAction] in the [try] block. *)
Definition touch_and_ack (message : EngagementQueueMessage.t) : M World unit :=
  let gmailAccountId := EngagementQueueMessage.gmailAccountId message in
  now_ ← observe (date_now env);
  _ ← d1 env (UpdateLastUsedAt gmailAccountId (toISOString env now_))
            (set_last_used_at gmailAccountId (toISOString env now_)) (λ _, tt);
  signal (AckEngagement message).

Definition process (message : EngagementQueueMessage.t) : M World unit :=
  let campaignId := EngagementQueueMessage.campaignId message in
  let gmailAccountId := EngagementQueueMessage.gmailAccountId message in
  let senderEmail := EngagementQueueMessage.senderEmail message in
  let actionType := EngagementQueueMessage.actionType message in
  account ← select_active_account gmailAccountId;
  match account with
  | None =>
      _ ← logEngagement campaignId gmailAccountId actionType engagement_logs.failed
            (Some "Account not available"%string) None;
      signal (AckEngagement message)
  | Some account =>
      credentials ← valid_credentials account gmailAccountId;
      _ ← performEngagementAction (OAuthCredentials.access_token credentials)
            campaignId gmailAccountId senderEmail actionType;
      touch_and_ack message
  end.

(** The [catch] block of the handler. *)
Definition on_error (message : EngagementQueueMessage.t) (error : string)
    : M World unit :=
  _ ← logEngagement (EngagementQueueMessage.campaignId message)
        (EngagementQueueMessage.gmailAccountId message)
        (EngagementQueueMessage.actionType message)
        engagement_logs.failed (Some error) None;
  signal (RetryEngagement message).

Definition queue_message (message : EngagementQueueMessage.t) : M World unit :=
  try_catch (process message) (on_error message).

Definition queue (batch : list EngagementQueueMessage.t) : M World unit :=
  for_of batch queue_message.


(** The four ways in which [performEngagementAction], entered in state
    [s], finds nothing to act on: the reason it logs and the subject of the
    row. *)
Inductive terminal_failure (message : EngagementQueueMessage.t) (s : World)
    : string → option string → Prop :=
| no_messages_found :
    list_messages env (tick s) = Ok [] →
    terminal_failure message s "No messages found" None
| no_html_content messages messageId fullMessage :
    EngagementQueueMessage.actionType message = click →
    list_messages env (tick s) = Ok messages → messages ≠ [] →
    pick messages (math_random env (1 + tick s)) = Some messageId →
    get_message env (2 + tick s) = Ok fullMessage →
    getHtmlContent fullMessage = None ∨ getHtmlContent fullMessage = Some EmptyString →
    terminal_failure message s "No HTML content" (Some (subject_of fullMessage))
| no_safe_links_found messages messageId fullMessage htmlContent :
    EngagementQueueMessage.actionType message = click →
    list_messages env (tick s) = Ok messages → messages ≠ [] →
    pick messages (math_random env (1 + tick s)) = Some messageId →
    get_message env (2 + tick s) = Ok fullMessage →
    getHtmlContent fullMessage = Some htmlContent → htmlContent ≠ EmptyString →
    Gmail.filterUnsubscribeLinks (extractLinks env htmlContent) = [] →
    terminal_failure message s "No safe links found" (Some (subject_of fullMessage))
| link_click_failed messages messageId fullMessage htmlContent link e :
    EngagementQueueMessage.actionType message = click →
    list_messages env (tick s) = Ok messages → messages ≠ [] →
    pick messages (math_random env (1 + tick s)) = Some messageId →
    get_message env (2 + tick s) = Ok fullMessage →
    getHtmlContent fullMessage = Some htmlContent → htmlContent ≠ EmptyString →
    pick (Gmail.filterUnsubscribeLinks (extractLinks env htmlContent))
         (math_random env (3 + tick s)) = Some link →
    fetch_head env (4 + tick s) = Throw e →
    terminal_failure message s "Link click failed" (Some (subject_of fullMessage)).

End queue.

(** In a list of calls, every request of a link is followed at once by the
    insert of a log row that tells its outcome. *)
Definition clicks_logged (calls : list (Call * bool)) : Prop :=
  ∀ (i : nat) link (accepted : bool), calls !! i = Some (FetchHead link, accepted) →
    ∃ row stored,
      calls !! S i = Some (InsertEngagementLog row, stored)
      ∧ engagement_logs.status row
        = (if accepted then engagement_logs.success else engagement_logs.failed)
      ∧ engagement_logs.error_message row
        = (if accepted then None else Some "Link click failed"%string).

(** How a trace settles engagement messages, oldest first: the message and
    whether it was acknowledged ([true]) or sent back for retry. *)
Definition settlements (calls : list (Call * bool))
    : list (EngagementQueueMessage.t * bool) :=
  omap (λ c : Call * bool,
          match c.1 with
          | AckEngagement message => Some (message, true)
          | RetryEngagement message => Some (message, false)
          | _ => None
          end) calls.

(** The calls the worker makes for one task, with [bodies] the texts a
    reply may carry: the store statements name the account and the campaign
    of the task, the mailbox is searched for the sender of the task, and a
    mailbox action is the one of the task's kind. *)
Definition task_call (bodies : string → Prop) (message : EngagementQueueMessage.t)
    (c : Call) : Prop :=
  let kind := EngagementQueueMessage.actionType message in
  match c with
  | SelectActiveAccount gmailAccountId
  | UpdateCredentials gmailAccountId _
  | UpdateLastUsedAt gmailAccountId _ =>
      gmailAccountId = EngagementQueueMessage.gmailAccountId message
  | InsertEngagementLog row =>
      engagement_logs.campaign_id row = EngagementQueueMessage.campaignId message
      ∧ engagement_logs.gmail_account_id row = EngagementQueueMessage.gmailAccountId message
      ∧ engagement_logs.action_type row = kind
  | DecryptCredentials _ | EncryptCredentials _ | RefreshAccessToken _
  | GetMessage _ _ => True
  | ListMessages _ senderEmail maxResults =>
      senderEmail = EngagementQueueMessage.senderEmail message ∧ maxResults = 5
  | ModifyMessage _ _ addLabels removeLabels =>
      kind = open ∧ addLabels = [] ∧ removeLabels = ["UNREAD"%string]
      ∨ kind = move_to_inbox ∧ addLabels = ["INBOX"%string]
        ∧ removeLabels = ["SPAM"; "CATEGORY_PROMOTIONS"; "CATEGORY_UPDATES"]%string
  | SendReply _ to _ body _ _ =>
      kind = reply ∧ to = EngagementQueueMessage.senderEmail message ∧ bodies body
  | FetchHead link => kind = click ∧ ¬ Gmail.unsubscribe_link link
  | AckEngagement message' | RetryEngagement message' => message' = message
  | SelectActiveCampaigns | SelectActiveCampaign _ | SendCampaign _
  | SendEngagement _ _ | FetchSelectAccounts _ _ | AckCampaign _
  | RetryCampaign _ => False
  end.

(** A log row written for a task names its campaign, account and kind. *)
Definition log_of_task (message : EngagementQueueMessage.t) (row : engagement_logs.row)
    : Prop :=
  engagement_logs.campaign_id row = EngagementQueueMessage.campaignId message
  ∧ engagement_logs.gmail_account_id row = EngagementQueueMessage.gmailAccountId message
  ∧ engagement_logs.action_type row = EngagementQueueMessage.actionType message.

(** What a batch may change in the store: nothing in [campaigns]; in
    [gmail_accounts] no row is added or removed, no id, address or status
    changes, and only the rows of the accounts [ids] change at all; in
    [engagement_logs] rows are only appended. *)
Definition account_kept (ids : list Z) (r r' : gmail_accounts.row) : Prop :=
  gmail_accounts.id r' = gmail_accounts.id r
  ∧ gmail_accounts.email_address r' = gmail_accounts.email_address r
  ∧ gmail_accounts.status r' = gmail_accounts.status r
  ∧ (gmail_accounts.id r ∉ ids → r' = r).

Definition store_kept (ids : list Z) (d d' : Database) : Prop :=
  campaigns_table d' = campaigns_table d
  ∧ Forall2 (account_kept ids) (gmail_accounts_table d) (gmail_accounts_table d')
  ∧ engagement_logs_table d `prefix_of` engagement_logs_table d'.

End Engagement.

(** ** The campaign report of the API ([src/api/index.ts]) *)

Module Api.

(** A row of the statistics query,
    [SELECT action_type, status, COUNT( * ) as count FROM engagement_logs
     WHERE campaign_id = ? GROUP BY action_type, status]. *)
Record StatRow : Type := {
  action_type : ActionType;
  status : engagement_logs.Status;
  count : Z;
}.

(** An entry of [actionBreakdown]; a new one is [{ success: 0, failed: 0 }]. *)
Record Breakdown : Type := {
  success : Z;
  failed : Z;
}.

(** The number [successRate]: the literal [0], or the quotient
    [successfulActions / totalActions], which JavaScript computes in double
    precision. The division is not evaluated here: the quotient is kept as
    its two operands, so that nothing is said of its rounding. *)
Inductive Rate : Type :=
| Zero
| Quotient (successfulActions totalActions : Z).

(** The body of the response, without the echoed [campaignId]. The object
    [actionBreakdown] is keyed by action type. *)
Record Report : Type := {
  totalActions : Z;
  successRate : Rate;
  actionBreakdown : ActionType → option Breakdown;
}.

Definition same_action (a b : ActionType) : bool :=
  match a, b with
  | open, open | click, click | reply, reply | move_to_inbox, move_to_inbox => true
  | _, _ => false
  end.

Definition same_status (a b : engagement_logs.Status) : bool :=
  match a, b with
  | engagement_logs.success, engagement_logs.success
  | engagement_logs.failed, engagement_logs.failed => true
  | _, _ => false
  end.

(** [reduce((sum, row) => sum + row.count, 0)] *)
Definition sum_counts (rows : list StatRow) : Z :=
  fold_left (λ sum row, sum + count row) rows 0.

(** [actionBreakdown[row.action_type][row.status] = row.count] *)
Definition set_count (row : StatRow) (entry : Breakdown) : Breakdown :=
  match status row with
  | engagement_logs.success => {| success := count row; failed := failed entry |}
  | engagement_logs.failed => {| success := success entry; failed := count row |}
  end.

(** The body of the [forEach]. *)
Definition record_row (actionBreakdown : ActionType → option Breakdown) (row : StatRow)
    : ActionType → option Breakdown :=
  let entry := default {| success := 0; failed := 0 |} (actionBreakdown (action_type row)) in
  λ a, if same_action a (action_type row) then Some (set_count row entry)
       else actionBreakdown a.

(** The report computed from the rows of the statistics query. *)
Definition report_of (stats : list StatRow) : Report :=
  let totalActions := sum_counts stats in
  let successfulActions :=
    sum_counts (List.filter (λ row, same_status (status row) engagement_logs.success)
                            stats) in
  {| totalActions := totalActions;
     successRate := if 0 <? totalActions
                    then Quotient successfulActions totalActions
                    else Zero;
     actionBreakdown := fold_left record_row stats (λ _, None) |}.

(** The number of log rows of a campaign with a given action and status. *)
Definition tally (campaignId : Z) (logs : list engagement_logs.row)
    (a : ActionType) (st : engagement_logs.Status) : Z :=
  Z.of_nat (length (List.filter
    (λ r, (engagement_logs.campaign_id r =? campaignId)
          && same_action (engagement_logs.action_type r) a
          && same_status (engagement_logs.status r) st) logs)).

(** What SQL says of the rows of the statistics query over the log table
    [logs], in whatever order the store returns them: one row for each
    pair of action and status that occurs for the campaign, with the number
    of its log rows. *)
Definition grouped (campaignId : Z) (logs : list engagement_logs.row)
    (stats : list StatRow) : Prop :=
  NoDup ((λ row, (action_type row, status row)) <$> stats)
  ∧ ∀ row, row ∈ stats ↔
      count row = tally campaignId logs (action_type row) (status row) ∧ 0 < count row.

(** The log rows of a campaign, and those with status ['success']. *)
Definition logged (campaignId : Z) (logs : list engagement_logs.row) : Z :=
  Z.of_nat (length (List.filter (λ r, engagement_logs.campaign_id r =? campaignId) logs)).

Definition succeeded (campaignId : Z) (logs : list engagement_logs.row) : Z :=
  Z.of_nat (length (List.filter
    (λ r, (engagement_logs.campaign_id r =? campaignId)
          && same_status (engagement_logs.status r) engagement_logs.success) logs)).

(** *** Sample inputs *)

Definition sample_log (campaignId : Z) (a : ActionType) (st : engagement_logs.Status)
    : engagement_logs.row :=
  {| engagement_logs.campaign_id := campaignId; engagement_logs.gmail_account_id := 10;
     engagement_logs.action_type := a; engagement_logs.target_email_subject := None;
     engagement_logs.status := st; engagement_logs.error_message := None |}.

Definition sample_logs : list engagement_logs.row :=
  [ sample_log 1 open engagement_logs.success; sample_log 1 open engagement_logs.failed;
    sample_log 2 click engagement_logs.success; sample_log 1 open engagement_logs.success;
    sample_log 1 reply engagement_logs.success ].

Definition sample_stats : list StatRow :=
  [ {| action_type := reply; status := engagement_logs.success; count := 1 |};
    {| action_type := open; status := engagement_logs.failed; count := 1 |};
    {| action_type := open; status := engagement_logs.success; count := 2 |} ].

End Api.

(** ** Sample worlds *)

Module Samples.

(** A world in which every call succeeds: the random generator always
    draws [1/2], the clock reads [1000], the mailbox holds no message. *)
Definition calm : Env :=
  {| d1_error := λ _, None;
     queue_send := λ _, Ok tt;
     select_accounts := λ _, Ok (PoolCoordinator.AccountIds [10; 11]);
     decrypt := λ _, Ok {| OAuthCredentials.access_token := "token";
                           OAuthCredentials.refresh_token := "refresh";
                           OAuthCredentials.expiry_date := 2000 |};
     encrypt := λ _, Ok "encrypted"%string;
     refresh := λ _, Ok {| OAuthCredentials.access_token := "token2";
                           OAuthCredentials.refresh_token := "refresh";
                           OAuthCredentials.expiry_date := 5000 |};
     list_messages := λ _, Ok [];
     get_message := λ _, Throw "Failed to get message: Not Found";
     modify_message := λ _, Ok tt;
     send_reply := λ _, Ok tt;
     fetch_head := λ _, Ok tt;
     date_now := λ _, 1000;
     math_random := λ _, (1 # 2)%Q;
     JSON_parse := λ _, Ok {| EngagementSettings.open_rate := 1;
                              EngagementSettings.click_rate := 0;
                              EngagementSettings.reply_rate := 0;
                              EngagementSettings.move_to_inbox_rate := 0 |};
     toISOString := λ _, "1970-01-01T00:00:01.000Z"%string;
     base64_decode := λ s, s;
     extractLinks := λ _, [] |}.

(** The calm world, except that the queue rejects the [send] made as
    interaction [t]. *)
Definition queue_fails_at (t : nat) : Env :=
  {| d1_error := d1_error calm;
     queue_send := λ t', if Nat.eqb t' t then Throw "Queue send failed" else Ok tt;
     select_accounts := select_accounts calm; decrypt := decrypt calm;
     encrypt := encrypt calm; refresh := refresh calm;
     list_messages := list_messages calm; get_message := get_message calm;
     modify_message := modify_message calm; send_reply := send_reply calm;
     fetch_head := fetch_head calm; date_now := date_now calm;
     math_random := math_random calm; JSON_parse := JSON_parse calm;
     toISOString := toISOString calm; base64_decode := base64_decode calm;
     extractLinks := extractLinks calm |}.


(** The calm world, except for what the durable object answers. *)
Definition allocator_answers (answer : result PoolCoordinator.Response) : Env :=
  {| d1_error := d1_error calm; queue_send := queue_send calm;
     select_accounts := λ _, answer; decrypt := decrypt calm;
     encrypt := encrypt calm; refresh := refresh calm;
     list_messages := list_messages calm; get_message := get_message calm;
     modify_message := modify_message calm; send_reply := send_reply calm;
     fetch_head := fetch_head calm; date_now := date_now calm;
     math_random := math_random calm; JSON_parse := JSON_parse calm;
     toISOString := toISOString calm; base64_decode := base64_decode calm;
     extractLinks := extractLinks calm |}.


(** The calm world at a later hour: the clock reads [3000], past the
    expiry of the stored credentials. *)
Definition late : Env :=
  {| d1_error := d1_error calm; queue_send := queue_send calm;
     select_accounts := select_accounts calm; decrypt := decrypt calm;
     encrypt := encrypt calm; refresh := refresh calm;
     list_messages := list_messages calm; get_message := get_message calm;
     modify_message := modify_message calm; send_reply := send_reply calm;
     fetch_head := fetch_head calm; date_now := λ _, 3000;
     math_random := math_random calm; JSON_parse := JSON_parse calm;
     toISOString := toISOString calm; base64_decode := base64_decode calm;
     extractLinks := extractLinks calm |}.

(** A plain anchor around [link]. *)
Definition anchor_to (link : string) : string :=
  ("<a " ++ Gmail.href_open ++ link ++ String Gmail.quote (String ">" "here</a>"))%string.



Definition campaign (id_ : Z) (status_ : campaigns.Status) : campaigns.row :=
  {| campaigns.id := id_; campaigns.client_id := 1;
     campaigns.sender_email := "sender@example.com";
     campaigns.pool_size := 2;
     campaigns.engagement_settings := "{}";
     campaigns.status := status_ |}.

Definition account (id_ : Z) (status_ : gmail_accounts.Status) : gmail_accounts.row :=
  {| gmail_accounts.id := id_;
     gmail_accounts.email_address := "pool@example.com";
     gmail_accounts.oauth_credentials := "blob";
     gmail_accounts.status := status_;
     gmail_accounts.last_used_at := None |}.

Definition tables : Database :=
  {| campaigns_table := [campaign 1 campaigns.active; campaign 2 campaigns.paused;
                         campaign 3 campaigns.active];
     gmail_accounts_table := [account 10 gmail_accounts.active;
                              account 11 gmail_accounts.disabled];
     engagement_logs_table := [] |}.

Definition task (gmailAccountId : Z) (actionType_ : ActionType)
    : EngagementQueueMessage.t :=
  {| EngagementQueueMessage.campaignId := 1;
     EngagementQueueMessage.gmailAccountId := gmailAccountId;
     EngagementQueueMessage.senderEmail := "sender@example.com";
     EngagementQueueMessage.actionType := actionType_ |}.

End Samples.

(** * Properties *)

(** ** [parseInt] undoes [toString] *)

Ltac eval_digit :=
  match goal with
  | |- context [digit_value ?c] =>
      let v := eval vm_compute in (digit_value c) in
      change (digit_value c) with v
  end;
  cbn [Z.ltb Z.compare Pos.compare Pos.compare_cont default from_option id].

Lemma parse_digits_uint_acc d : ∀ acc,
  parse_digits 10 (NilEmpty.string_of_uint d) (Some (Z.pos acc))
  = Some (Z.pos (Pos.of_uint_acc d acc)).
Proof.
  induction d; intros acc; cbn [NilEmpty.string_of_uint parse_digits Pos.of_uint_acc];
    [done|..]; eval_digit; rewrite <- IHd; do 2 f_equal; lia.
Qed.

Lemma parse_digits_uint d : ∀ acc, acc = None ∨ acc = Some 0 → d ≠ Decimal.Nil →
  parse_digits 10 (NilEmpty.string_of_uint d) acc = Some (Z.of_N (Pos.of_uint d)).
Proof.
  induction d; intros acc Hacc Hd; [done|..];
    cbn [NilEmpty.string_of_uint parse_digits Pos.of_uint]; eval_digit;
    destruct Hacc as [-> | ->]; cbn [default from_option id Z.mul Z.add];
    try apply parse_digits_uint_acc.
  all: assert (d = Decimal.Nil ∨ d ≠ Decimal.Nil) as [-> | Hne]
    by (destruct d; auto); [done | by apply IHd; auto].
Qed.

Lemma string_of_uint_plain d : d ≠ Decimal.Nil →
  let s := NilEmpty.string_of_uint d in
  trim_start s = s ∧ strip_sign s = (1, s) ∧ strip_radix_prefix s = (10, s).
Proof.
  intros Hd. destruct d as [|d|d|d|d|d|d|d|d|d|d]; [done|..];
    (repeat split; [by destruct d..]).
Qed.

Lemma parseInt_pos p :
  parseInt (NilEmpty.string_of_uint (Pos.to_uint p)) = Some (Z.pos p).
Proof.
  pose proof (Unsigned.to_uint_nonnil p) as Hnil.
  destruct (string_of_uint_plain _ Hnil) as (Ht & Hs & Hr).
  unfold parseInt. rewrite Ht, Hs, Hr, parse_digits_uint by auto.
  rewrite DecimalPos.Unsigned.of_to. done.
Qed.

Lemma parseInt_toString (n : number) : parseInt (toString n) = n.
Proof.
  destruct n as [[|p|p]|]; [done| | |done].
  - unfold toString, Z.to_int, NilZero.string_of_int, NilZero.string_of_uint.
    pose proof (Unsigned.to_uint_nonnil p).
    rewrite <- (parseInt_pos p). by destruct (Pos.to_uint p).
  - unfold toString, Z.to_int, NilZero.string_of_int, NilZero.string_of_uint.
    pose proof (Unsigned.to_uint_nonnil p) as Hnil.
    destruct (string_of_uint_plain _ Hnil) as (Ht & Hs & Hr).
    assert (parseInt (String "-" (NilEmpty.string_of_uint (Pos.to_uint p))) = Some (Z.neg p)) as <-.
    { unfold parseInt. cbn [trim_start]. change (is_white_space "-") with false. cbv iota.
      cbn [strip_sign]. change (Ascii.eqb "-" "-") with true. cbv iota beta.
      rewrite Hr, parse_digits_uint by auto.
      rewrite DecimalPos.Unsigned.of_to. done. }
    by destruct (Pos.to_uint p).
Qed.

(** ** Re-keying a map and back *)

Lemma kmap_cancel `{Countable K1, Countable K2} {A} (f : K1 → K2) (g : K2 → K1)
    (m : gmap K1 A) :
  (∀ k, g (f k) = k) → kmap (M2:=gmap K1) g (kmap (M2:=gmap K2) f m) = m.
Proof.
  intros Hgf.
  assert (Inj (=) (=) f) as Hinj
    by (intros x y Hxy; by rewrite <- (Hgf x), <- (Hgf y), Hxy).
  assert (prod_map g id <$> (prod_map f id <$> map_to_list m) = map_to_list m) as Hlist.
  { rewrite <- list_fmap_compose. rewrite <- (list_fmap_id (map_to_list m)) at 2.
    apply list_fmap_ext. intros _ [k x] _. simpl. by rewrite Hgf. }
  transitivity (list_to_map (M:=gmap K1 A) (map_to_list m));
    [|apply list_to_map_to_list].
  unfold kmap at 1. symmetry. apply list_to_map_proper.
  - apply NoDup_fst_map_to_list.
  - by rewrite map_to_list_kmap, Hlist.
Qed.

(** ** The pool coordinator *)

Module PoolCoordinatorFacts.
Import PoolCoordinator.

#[global] Instance toString_inj : Inj (=) (=) toString.
Proof. intros x y Hxy. by rewrite <- (parseInt_toString x), <- (parseInt_toString y), Hxy. Qed.

Lemma load_save (m : gmap number Z) : entries_to_map (map_to_record m) = m.
Proof. apply kmap_cancel, parseInt_toString. Qed.

Lemma selectAccounts_eq w request this :
  selectAccounts w request this =
  match storage_get w with
  | Throw e => (this, Ok (ErrorResponse e))
  | Ok _ =>
    let m0 := hydrated this in
    match all_accounts w with
    | Throw e => (Build_t m0 (storage this) (alarmTime this), Ok (ErrorResponse e))
    | Ok allAccounts =>
      if Nat.eqb (length allAccounts) 0
      then (Build_t m0 (storage this) (alarmTime this), Ok (AccountIds []))
      else
        let ids := picked m0 (now w) (poolSize request) allAccounts in
        let m1 := mark_used (now w) ids m0 in
        match storage_put w with
        | Throw e => (Build_t m1 (storage this) (alarmTime this), Ok (ErrorResponse e))
        | Ok _ => (Build_t m1 (Some (map_to_record m1)) (alarmTime this),
                   Ok (AccountIds ids))
        end
    end
  end.
Proof.
  unfold selectAccounts, selectAccounts_try, try_catch, loadState, saveState,
    hydrated, picked, mbind, M_bind, mret, M_ret, lift_result, get_state, set_state.
  destruct this as [m [st|] al], w as [[[]|e] [rows|e'] t [[]|e'']]; cbn;
    try reflexivity; destruct (Nat.eqb (length rows) 0); reflexivity.
Qed.

Lemma slice0_sublist {A} (l : list A) e : slice0 l e `sublist_of` l.
Proof. apply sublist_take. Qed.

Lemma slice0_length {A} (l : list A) e :
  0 ≤ e → Z.of_nat (length (slice0 l e)) ≤ e.
Proof.
  intros He. unfold slice0. rewrite length_take.
  destruct (Z.ltb_spec e 0); lia.
Qed.

Lemma picked_sublist m now_ p rows : picked m now_ p rows `sublist_of` (id <$> rows).
Proof.
  unfold picked. apply fmap_sublist.
  etrans; [apply slice0_sublist | apply sublist_filter].
Qed.

Lemma picked_available m now_ p rows a :
  a ∈ picked m now_ p rows →
  ∃ row, row ∈ rows ∧ id row = a ∧ available m now_ row = true.
Proof.
  unfold picked. intros (row & -> & Hrow)%list_elem_of_fmap.
  eapply elem_of_sublist in Hrow; [|apply slice0_sublist].
  apply list_elem_of_filter in Hrow as [Hav Hin].
  exists row. split_and!; [done..|]. by apply Is_true_true.
Qed.

Lemma picked_length m now_ p rows :
  0 ≤ p → Z.of_nat (length (picked m now_ p rows)) ≤ p.
Proof.
  intros Hp. unfold picked. rewrite length_fmap.
  etrans; [apply slice0_length; lia | lia].
Qed.

Lemma mark_used_elem now_ ids : ∀ m a,
  a ∈ ids → mark_used now_ ids m !! Some a = Some now_.
Proof.
  unfold mark_used. induction ids as [|b ids IH] using rev_ind; intros m a Ha.
  - by apply elem_of_nil in Ha.
  - rewrite foldl_app. simpl. apply elem_of_app in Ha as [Ha | Ha%list_elem_of_singleton].
    + destruct (decide (b = a)) as [-> | Hne]; [by rewrite lookup_insert_eq|].
      rewrite lookup_insert_ne by congruence. by apply IH.
    + subst. by rewrite lookup_insert_eq.
Qed.

Lemma mark_used_other now_ ids : ∀ m k,
  (∀ a, a ∈ ids → k ≠ Some a) → mark_used now_ ids m !! k = m !! k.
Proof.
  unfold mark_used. induction ids as [|b ids IH]; intros m k Hk; [done|].
  simpl. rewrite IH by (intros a Ha; apply Hk; by right).
  apply lookup_insert_ne. intros <-. by apply (Hk b); [left|].
Qed.

Lemma mark_used_lookup now_ ids m k ts :
  mark_used now_ ids m !! k = Some ts →
  (∃ a, a ∈ ids ∧ k = Some a ∧ ts = now_) ∨ m !! k = Some ts.
Proof.
  intros Hk. destruct k as [a|].
  - destruct (decide (a ∈ ids)) as [Ha | Ha].
    + rewrite mark_used_elem in Hk by done. left. exists a. naive_solver.
    + right. rewrite mark_used_other in Hk; [done|]. naive_solver.
  - right. rewrite mark_used_other in Hk; [done|]. naive_solver.
Qed.

(** An account with a remembered positive stamp is picked only after the
    reuse interval. *)
Lemma picked_spaced m now_ p rows a ts :
  a ∈ picked m now_ p rows → m !! Some a = Some ts → ts ≠ 0 →
  minTimeBetweenUses ≤ now_ - ts.
Proof.
  intros (row & _ & <- & Hav)%picked_available Hm Hts.
  unfold available in Hav. rewrite Hm in Hav.
  destruct (Z.eqb_spec ts 0); [done|]. by apply Z.leb_le.
Qed.

Lemma alarm_state w now2 set_alarm this :
  (alarm w now2 set_alarm this).1 =
  match storage_get w with
  | Throw _ => this
  | Ok _ =>
    let m1 := filter (λ entry, ¬ (dayInMs < now w - entry.2)) (hydrated this) in
    match storage_put w with
    | Throw _ => Build_t m1 (storage this) (alarmTime this)
    | Ok _ =>
      match set_alarm with
      | Throw _ => Build_t m1 (Some (map_to_record m1)) (alarmTime this)
      | Ok _ => Build_t m1 (Some (map_to_record m1)) (Some (now2 + 3600000))
      end
    end
  end.
Proof.
  unfold alarm, loadState, saveState, hydrated, mbind, M_bind, mret, M_ret,
    lift_result, get_state, set_state.
  destruct this as [m [st|] al], w as [[[]|e] rows t [[]|e'']], set_alarm as [[]|e3];
    reflexivity.
Qed.

Lemma hydrated_positive this T past :
  invariant this T past → positive_stamps (hydrated this).
Proof.
  intros (Hmem & Hsto & _). unfold hydrated.
  destruct (storage this) as [st|]; [by apply Hsto | done].
Qed.

Lemma remembered_mono this this' T T' past :
  T ≤ T' → storage this' = storage this →
  remembered this T past → remembered this' T' past.
Proof.
  intros HT Hsto [Hle Hcases]. split; [lia|]. rewrite Hsto.
  destruct Hcases as [Hl | Hr]; [by left | right; lia].
Qed.

Lemma invariant_same_storage this this' T T' past :
  T ≤ T' → storage this' = storage this →
  positive_stamps (lastUsedAccounts this') →
  invariant this T past → invariant this' T' past.
Proof.
  intros HT Hsto Hpos (Hmem & Hst & Hpast). split_and!; [done|by rewrite Hsto|].
  eapply Forall_impl; [done|]. intros p. by apply remembered_mono.
Qed.

Lemma mark_used_positive now_ ids m :
  0 < now_ → positive_stamps m → positive_stamps (mark_used now_ ids m).
Proof.
  intros Hnow Hm k ts [(a & _ & _ & ->) | Hk]%mark_used_lookup; [done|].
  by eapply Hm.
Qed.

Lemma invariant_select w request this T past :
  invariant this T past → 0 < T → T ≤ now w →
  let '(this', response) := selectAccounts w request this in
  match response with
  | Ok (AccountIds ids) =>
      invariant this' (now w) (((λ a, (now w, a)) <$> ids) ++ past)
      ∧ (∀ a t_i, a ∈ ids → (t_i, a) ∈ past → minTimeBetweenUses ≤ now w - t_i)
  | _ => invariant this' (now w) past
  end.
Proof.
  intros Hinv HT Hnow. pose proof (hydrated_positive _ _ _ Hinv) as Hhyd.
  rewrite selectAccounts_eq.
  destruct (storage_get w) as [[]|e].
  2:{ apply (invariant_same_storage this _ T); [done..|apply Hinv|done]. }
  cbv zeta. destruct (all_accounts w) as [rows|e].
  2:{ by apply (invariant_same_storage this _ T). }
  destruct (Nat.eqb (length rows) 0).
  { split; [by apply (invariant_same_storage this _ T)|].
    intros a t_i Ha. by apply elem_of_nil in Ha. }
  set (ids := picked (hydrated this) (now w) (poolSize request) rows).
  assert (positive_stamps (mark_used (now w) ids (hydrated this))) as Hpos
    by (apply mark_used_positive; [lia | done]).
  destruct (storage_put w) as [[]|e].
  2:{ by apply (invariant_same_storage this _ T). }
  destruct Hinv as (Hmem & Hst & Hpast).
  assert (∀ a t_i, a ∈ ids → (t_i, a) ∈ past → minTimeBetweenUses ≤ now w - t_i) as Hgap.
  { intros a t_i Ha Hin. rewrite Forall_forall in Hpast.
    destruct (Hpast _ Hin) as [Hle [(st & ts & Hsto & Hts & Hti) | Hold]]; simpl in *.
    - assert (hydrated this !! Some a = Some ts) as Hh by (unfold hydrated; by rewrite Hsto).
      pose proof (Hhyd _ _ Hh).
      pose proof (picked_spaced _ _ _ _ _ _ Ha Hh). lia.
    - unfold dayInMs, minTimeBetweenUses in *. lia. }
  split; [|done]. split_and!; simpl.
  - done.
  - intros stored [= <-]. by rewrite load_save.
  - apply Forall_app. split.
    + apply Forall_fmap, Forall_forall. intros a Ha. split; simpl; [lia|].
      left. eexists _, _. split_and!; [done| |reflexivity].
      rewrite load_save. by apply mark_used_elem.
    + eapply Forall_impl; [done|]. intros [t_i a] Hrem.
      pose proof Hrem as [Hle [(st & ts & Hsto & Hts & Hti) | Hold]]; simpl in *.
      * split; simpl; [lia|]. left.
        assert (hydrated this !! Some a = Some ts) as Hh
          by (unfold hydrated; by rewrite Hsto).
        destruct (decide (a ∈ ids)) as [Ha | Ha].
        -- eexists _, (now w). split_and!; [done| |].
           ++ rewrite load_save. by apply mark_used_elem.
           ++ pose proof (Hhyd _ _ Hh).
              pose proof (picked_spaced _ _ _ _ _ _ Ha Hh).
              unfold minTimeBetweenUses in *. lia.
        -- eexists _, ts. split_and!; [done| |done].
           rewrite load_save, mark_used_other; [done|]. naive_solver.
      * split; simpl; [lia|]. right. lia.
Qed.

Lemma invariant_alarm w now2 set_alarm this T past :
  invariant this T past → T ≤ now w →
  invariant (alarm w now2 set_alarm this).1 (now w) past.
Proof.
  intros Hinv Hnow. pose proof (hydrated_positive _ _ _ Hinv) as Hhyd.
  rewrite alarm_state.
  destruct (storage_get w) as [[]|e].
  2:{ apply (invariant_same_storage this _ T); [done..|apply Hinv|done]. }
  cbv zeta.
  set (m1 := filter (λ entry, ¬ (dayInMs < now w - entry.2)) (hydrated this)).
  assert (positive_stamps m1) as Hpos.
  { intros k ts [Hk _]%map_lookup_filter_Some. by eapply Hhyd. }
  destruct (storage_put w) as [[]|e].
  2:{ by apply (invariant_same_storage this _ T). }
  assert (invariant (Build_t m1 (Some (map_to_record m1)) (alarmTime this)) (now w) past).
  { destruct Hinv as (Hmem & Hst & Hpast). split_and!; simpl.
    - done.
    - intros stored [= <-]. by rewrite load_save.
    - eapply Forall_impl; [done|]. intros [t_i a] Hrem.
      pose proof Hrem as [Hle [(st & ts & Hsto & Hts & Hti) | Hold]]; simpl in *.
      + split; simpl; [lia|].
        assert (hydrated this !! Some a = Some ts) as Hh
          by (unfold hydrated; by rewrite Hsto).
        destruct (decide (dayInMs < now w - ts)) as [Hexp | Hkeep].
        * right. lia.
        * left. eexists _, ts. split_and!; [done| |done].
          rewrite load_save. by apply map_lookup_filter_Some.
      + split; simpl; [lia|]. right. lia. }
  destruct set_alarm as [[]|e]; [|done].
  by apply (invariant_same_storage (Build_t m1 (Some (map_to_record m1)) (alarmTime this))
              _ (now w)).
Qed.

Lemma invariant_restart this T past :
  invariant this T past →
  invariant (constructor (storage this) (alarmTime this)) T past.
Proof.
  intros Hinv. apply (invariant_same_storage this _ T); [lia|done| |done].
  intros k ts Hk. simpl in Hk. by rewrite lookup_empty in Hk.
Qed.

Lemma invariant_weaken this T past past' :
  past' ⊆ past → invariant this T past → invariant this T past'.
Proof.
  intros Hsub (Hmem & Hst & Hpast). split_and!; [done..|].
  rewrite Forall_forall in *. auto.
Qed.

(** Along a history, every reservation is spaced from the earlier ones of
    the same account, those of [past] and those of the history itself. *)
Lemma reservations_spaced es : ∀ this T past,
  invariant this T past → 0 < T → clock_from T es →
  (∀ t ids a t_i, (t, ids) ∈ reservations es this → a ∈ ids → (t_i, a) ∈ past →
     minTimeBetweenUses ≤ t - t_i)
  ∧ (∀ i j t1 ids1 t2 ids2 a, (i < j)%nat →
       reservations es this !! i = Some (t1, ids1) →
       reservations es this !! j = Some (t2, ids2) →
       a ∈ ids1 → a ∈ ids2 → minTimeBetweenUses ≤ t2 - t1).
Proof.
  induction es as [|e es IH]; intros this T past Hinv HT Hclock.
  { split; [intros ???? Hin; by apply elem_of_nil in Hin | intros [|?] ??????; done]. }
  destruct e as [w request | w now2 set_alarm | ].
  - destruct Hclock as [Hnow Hclock]. cbn [reservations step].
    pose proof (invariant_select w request this T past Hinv HT Hnow) as Hstep.
    destruct (selectAccounts w request this) as [this' [[ids|err]|err]].
    + destruct Hstep as [Hinv' Hgap].
      destruct (IH this' (now w) _ Hinv' ltac:(lia) Hclock) as [IH1 IH2].
      split.
      * intros t ids' a t_i [[= -> ->] | Hin]%elem_of_cons Ha Hpast; [by eapply Hgap|].
        eapply IH1; [done..|]. apply elem_of_app. by right.
      * intros [|i] [|j] t1 ids1 t2 ids2 a Hij Hi Hj Ha1 Ha2; simpl in *; try lia.
        -- injection Hi as <- <-. eapply (IH1 t2 ids2 a (now w)); [|done|].
           ++ by eapply list_elem_of_lookup_2.
           ++ apply elem_of_app. left. apply list_elem_of_fmap. by exists a.
        -- eapply (IH2 i j); [lia|done..].
    + apply (IH this' (now w) past); [done | lia | done].
    + apply (IH this' (now w) past); [done | lia | done].
  - destruct Hclock as [Hnow Hclock]. cbn [reservations step].
    apply (IH _ (now w) past); [by apply (invariant_alarm _ _ _ _ T) | lia | done].
  - cbn [reservations step]. apply (IH _ T past); [by apply invariant_restart | done..].
Qed.

Lemma selectAccounts_ids w request this this' ids :
  selectAccounts w request this = (this', Ok (AccountIds ids)) →
  ids = [] ∨
  ∃ rows, all_accounts w = Ok rows
          ∧ ids = picked (hydrated this) (now w) (poolSize request) rows
          ∧ storage this' = Some (map_to_record (lastUsedAccounts this'))
          ∧ lastUsedAccounts this' = mark_used (now w) ids (hydrated this).
Proof.
  intros Hsel. rewrite selectAccounts_eq in Hsel.
  destruct (storage_get w) as [[]|?]; [|done]. cbv zeta in Hsel.
  destruct (all_accounts w) as [rows|?]; [|done].
  destruct (Nat.eqb (length rows) 0); [left; congruence|].
  destruct (storage_put w) as [[]|?]; [|done]. injection Hsel as <- <-.
  right. by exists rows.
Qed.

Lemma select_skips_recent w request this this' ids a ts :
  selectAccounts w request this = (this', Ok (AccountIds ids)) →
  hydrated this !! Some a = Some ts → ts ≠ 0 →
  now w - minTimeBetweenUses < ts →
  a ∉ ids.
Proof.
  intros [-> | (rows & _ & -> & _)]%selectAccounts_ids Hts Hnz Hnew Ha.
  - by apply elem_of_nil in Ha.
  - pose proof (picked_spaced _ _ _ _ _ _ Ha Hts Hnz). lia.
Qed.

Lemma select_stamps_now w request this this' ids a :
  selectAccounts w request this = (this', Ok (AccountIds ids)) →
  a ∈ ids →
  lastUsedAccounts this' !! Some a = Some (now w).
Proof.
  intros [-> | (rows & _ & _ & _ & ->)]%selectAccounts_ids Ha.
  - by apply elem_of_nil in Ha.
  - by apply mark_used_elem.
Qed.

(** ** C1 *)

(** Why the clock is taken to read positive values: a stamp [0] is read
    back as "never used" by the [!lastUsed] test, so an account reserved
    while the clock reads 0 is handed out again five milliseconds later. *)
Example epoch_stamp_is_forgotten :
  reservations [ Select (sample_world 0) (sample_request 2);
                 Select (sample_world 5) (sample_request 2) ]
               (constructor None None)
  = [ (0, [1; 2]); (5, [1; 2]) ].
Proof. vm_compute. reflexivity. Qed.

(** C1. No account is returned by two reservation calls of one allocator
    less than [minTimeBetweenUses] (one hour) apart. Over any history of a
    durable object that starts with nothing stored (reservation calls,
    alarms and restarts, in any order, with any answers of storage and
    store, the clock reading positive values that never go back), two
    reservations that both return account [a] are at least one hour apart.
    The mechanism, for a single call from any state: an account whose
    timestamp in the hydrated map is newer than [now - minTimeBetweenUses]
    is not returned (a timestamp [0] counts as absent for the [!lastUsed]
    test), and the timestamp of every returned account is [now] when the
    call returns. *)
Theorem no_double_allocation :
  (∀ es i j t1 ids1 t2 ids2 a,
     clock_from 1 es → (i < j)%nat →
     reservations es (constructor None None) !! i = Some (t1, ids1) →
     reservations es (constructor None None) !! j = Some (t2, ids2) →
     a ∈ ids1 → a ∈ ids2 →
     minTimeBetweenUses ≤ t2 - t1)
  ∧ (∀ w request this this' ids a ts,
       selectAccounts w request this = (this', Ok (AccountIds ids)) →
       hydrated this !! Some a = Some ts → ts ≠ 0 →
       now w - minTimeBetweenUses < ts →
       a ∉ ids)
  ∧ (∀ w request this this' ids a,
       selectAccounts w request this = (this', Ok (AccountIds ids)) →
       a ∈ ids →
       lastUsedAccounts this' !! Some a = Some (now w)).
Proof.
  split_and!.
  - intros es i j t1 ids1 t2 ids2 a Hclock Hij Hi Hj Ha1 Ha2.
    assert (invariant (constructor None None) 1 []) as Hinv.
    { split_and!; [|done|by apply Forall_nil].
      intros k ts Hk. simpl in Hk. by rewrite lookup_empty in Hk. }
    destruct (reservations_spaced es _ 1 [] Hinv ltac:(lia) Hclock) as [_ Hpairs].
    by eapply (Hpairs i j).
  - apply select_skips_recent.
  - apply select_stamps_now.
Qed.

Lemma no_double_allocation_witness :
  clock_from 1 sample_history
  ∧ reservations sample_history (constructor None None) !! 0%nat = Some (1000, [1; 2])
  ∧ reservations sample_history (constructor None None) !! 2%nat = Some (90000002, [1])
  ∧ minTimeBetweenUses ≤ 90000002 - 1000
  ∧ (selectAccounts (sample_world 3604999) (sample_request 3)
       (constructor (Some (map_to_record {[Some 7 := 5000]})) None)).2
    = Ok (AccountIds [1; 2])
  ∧ now (sample_world 3604999) - minTimeBetweenUses < 5000
  ∧ (7 ∉ [1; 2])
  ∧ (lastUsedAccounts
       (selectAccounts (sample_world 3604999) (sample_request 3)
          (constructor (Some (map_to_record {[Some 7 := 5000]})) None)).1)
    !! Some 1 = Some 3604999.
Proof.
  assert (clock_from 1 sample_history) as Hclock by (cbn; lia).
  assert (reservations sample_history (constructor None None) !! 0%nat
          = Some (1000, [1; 2])) as H0 by (vm_compute; reflexivity).
  assert (reservations sample_history (constructor None None) !! 2%nat
          = Some (90000002, [1])) as H2 by (vm_compute; reflexivity).
  destruct no_double_allocation as (Hpairs & Hfilter & Hstamp).
  split_and!; [done | done | done | | by vm_compute | done | | ].
  - apply (Hpairs sample_history 0%nat 2%nat 1000 [1; 2] 90000002 [1] 1 Hclock);
      [lia | exact H0 | exact H2 | | ]; repeat constructor.
  - refine (Hfilter (sample_world 3604999) (sample_request 3)
              (constructor (Some (map_to_record {[Some 7 := 5000]})) None)
              _ [1; 2] 7 5000 _ _ _ _);
      [apply surjective_pairing | by vm_compute | done | done].
  - refine (Hstamp (sample_world 3604999) (sample_request 3)
              (constructor (Some (map_to_record {[Some 7 := 5000]})) None)
              _ [1; 2] 1 _ _); [apply surjective_pairing | repeat constructor].
Defined.

(** ** C2 *)

(** C2, as stated, fails for a negative pool size: [slice(0, -1)] keeps all
    but the last available account, so the call returns two identities for
    [poolSize = -1]. *)
Lemma reservation_bound_counterexample :
  ¬ (∀ w request this this' ids,
       selectAccounts w request this = (this', Ok (AccountIds ids)) →
       Z.of_nat (length ids) ≤ poolSize request).
Proof.
  intros Hbound.
  specialize (Hbound (sample_world 1000) (sample_request (-1)) (constructor None None)
                _ [1; 2] eq_refl).
  vm_compute in Hbound. by apply Hbound.
Qed.

(** C2 (amended). For every pool size that is not negative and every answer
    of the store, a reservation call returns at most [poolSize] identities,
    and each of them is the id of a row the store answered to the query for
    accounts with status ['active'] during this call. *)
Theorem reservation_bound w request this this' ids :
  0 ≤ poolSize request →
  selectAccounts w request this = (this', Ok (AccountIds ids)) →
  Z.of_nat (length ids) ≤ poolSize request
  ∧ ∀ a, a ∈ ids → ∃ rows row, all_accounts w = Ok rows ∧ row ∈ rows ∧ id row = a.
Proof.
  intros Hsize [-> | (rows & Hrows & -> & _)]%selectAccounts_ids.
  - split; [simpl; lia|]. intros a Ha. by apply elem_of_nil in Ha.
  - split; [by apply picked_length|].
    intros a (row & Hrow & Hid & _)%picked_available. by exists rows, row.
Qed.

Lemma reservation_bound_witness :
  0 ≤ poolSize (sample_request 2)
  ∧ (selectAccounts (sample_world 1000) (sample_request 2) (constructor None None)).2
    = Ok (AccountIds [1; 2])
  ∧ Z.of_nat (length [1; 2]) ≤ 2.
Proof.
  split_and!; [done | by vm_compute |].
  refine (proj1 (reservation_bound (sample_world 1000) (sample_request 2)
                   (constructor None None) _ [1; 2] _ _)); [done|].
  vm_compute. reflexivity.
Defined.

(** ** C3 *)

(** C3. The state is persisted before a reservation returns, and survives a
    restart. (1) When a call returns account [a], storage already holds the
    record of the in-memory map, with [a] stamped [now]; the one path that
    returns without saving is the call to which the store lists no account,
    which returns no account and leaves storage as it was. (2) The record
    written by [saveState] loads back, through [loadState], as the map it
    was written from. (3) A fresh instance constructed over a snapshot that
    was saved from a map holding account [a] with timestamp [T] (a clock
    reading, so not [0]) does not return [a] from a call made before
    [T + minTimeBetweenUses]. *)
Theorem allocator_survives_restart :
  (∀ w request this this' ids a,
     selectAccounts w request this = (this', Ok (AccountIds ids)) →
     a ∈ ids →
     ∃ stored, storage this' = Some stored
               ∧ stored !! toString (Some a) = Some (now w)
               ∧ entries_to_map stored = lastUsedAccounts this')
  ∧ (∀ w request this,
       storage_get w = Ok tt → all_accounts w = Ok [] →
       selectAccounts w request this
       = ({| lastUsedAccounts := hydrated this; storage := storage this;
             alarmTime := alarmTime this |}, Ok (AccountIds [])))
  ∧ (∀ m, entries_to_map (map_to_record m) = m)
  ∧ (∀ w request m alarm_ a T this' ids,
       m !! Some a = Some T → T ≠ 0 →
       now w < T + minTimeBetweenUses →
       selectAccounts w request (constructor (Some (map_to_record m)) alarm_)
       = (this', Ok (AccountIds ids)) →
       a ∉ ids).
Proof.
  split_and!.
  - intros w request this this' ids a Hsel Ha.
    destruct (selectAccounts_ids _ _ _ _ _ Hsel) as [-> | (rows & _ & _ & Hsto & Hmem)].
    { by apply elem_of_nil in Ha. }
    eexists. split_and!; [done| |by apply load_save].
    unfold map_to_record. rewrite (lookup_kmap toString), Hmem. by apply mark_used_elem.
  - intros w request this Hget Hrows. by rewrite selectAccounts_eq, Hget, Hrows.
  - apply load_save.
  - intros w request m alarm_ a T this' ids Hm HT Hnow Hsel.
    eapply select_skips_recent; [done| |done|lia].
    unfold hydrated. simpl. by rewrite load_save.
Qed.

Lemma allocator_survives_restart_witness :
  (selectAccounts (sample_world 1000) (sample_request 2) (constructor None None)).2
  = Ok (AccountIds [1; 2])
  ∧ (∃ stored,
       storage (selectAccounts (sample_world 1000) (sample_request 2)
                  (constructor None None)).1 = Some stored
       ∧ stored !! toString (Some 1) = Some (now (sample_world 1000))
       ∧ entries_to_map stored
         = lastUsedAccounts (selectAccounts (sample_world 1000) (sample_request 2)
                               (constructor None None)).1)
  ∧ ({[Some 7 := 5000]} : gmap number Z) !! Some 7 = Some 5000
  ∧ 5000 ≠ 0
  ∧ now (sample_world 3604999) < 5000 + minTimeBetweenUses
  ∧ (selectAccounts (sample_world 3604999) (sample_request 3)
       (constructor (Some (map_to_record {[Some 7 := 5000]})) None)).2
    = Ok (AccountIds [1; 2])
  ∧ 7 ∉ [1; 2].
Proof.
  destruct allocator_survives_restart as (Hpersist & _ & _ & Hrestart).
  split_and!; [by vm_compute | | done | done | done | by vm_compute | ].
  - refine (Hpersist (sample_world 1000) (sample_request 2) (constructor None None)
              _ [1; 2] 1 _ _); [apply surjective_pairing | repeat constructor].
  - refine (Hrestart (sample_world 3604999) (sample_request 3) {[Some 7 := 5000]} None
              7 5000 _ [1; 2] _ _ _ _); [done | done | done |].
    vm_compute. reflexivity.
Defined.

(** ** C10 *)

(** C10. Within one reservation call the returned identities are pairwise
    distinct, provided the rows the store answered have pairwise distinct
    ids: filtering, slicing and projecting the ids keep a subsequence. *)
Theorem reservation_distinct w request this this' rows ids :
  all_accounts w = Ok rows →
  NoDup (id <$> rows) →
  selectAccounts w request this = (this', Ok (AccountIds ids)) →
  NoDup ids.
Proof.
  intros Hrows Hnodup [-> | (rows' & Hrows' & -> & _)]%selectAccounts_ids.
  - apply NoDup_nil_2.
  - rewrite Hrows in Hrows'. injection Hrows' as <-.
    eapply sublist_NoDup; [done | apply picked_sublist].
Qed.

Lemma reservation_distinct_witness :
  all_accounts (sample_world 1000) = Ok sample_rows
  ∧ NoDup (id <$> sample_rows)
  ∧ (selectAccounts (sample_world 1000) (sample_request 2) (constructor None None)).2
    = Ok (AccountIds [1; 2])
  ∧ NoDup [1; 2].
Proof.
  assert (NoDup (id <$> sample_rows)) as Hnodup.
  { compute_done. }
  split_and!; [done | done | by vm_compute |].
  refine (reservation_distinct (sample_world 1000) (sample_request 2)
            (constructor None None) _ sample_rows [1; 2] eq_refl Hnodup _).
  vm_compute. reflexivity.
Defined.
End PoolCoordinatorFacts.

(** ** The link filter *)

Module GmailFacts.
Import Gmail.
Local Open Scope string_scope.

Lemma startsWith_spec keyword : ∀ s,
  startsWith s keyword = true ↔ ∃ rest, s = keyword ++ rest.
Proof.
  induction keyword as [|k keyword IH]; intros s; simpl.
  - split; [by exists s | by destruct s].
  - destruct s as [|c s]; simpl.
    + split; [done | by intros [rest ?]].
    + rewrite andb_true_iff, IH. split.
      * intros [->%Ascii.eqb_eq [rest ->]]. by exists rest.
      * intros [rest [= -> ->]]. split; [apply Ascii.eqb_refl | by exists rest].
Qed.

Lemma includes_spec keyword s :
  includes s keyword = true ↔ ∃ before after, s = before ++ keyword ++ after.
Proof.
  induction s as [|c s IH]; cbn [includes]; rewrite orb_true_iff, startsWith_spec.
  - split.
    + intros [[rest ->] | ?]; [by exists EmptyString, rest | done].
    + intros ([|??] & after & Hs); [left; by exists after | done].
  - rewrite IH. split.
    + intros [[rest ->] | (before & after & ->)].
      * by exists EmptyString, rest.
      * by exists (String c before), after.
    + intros ([|c' before] & after & Hs).
      * left. by exists after.
      * right. injection Hs as -> ->. by exists before, after.
Qed.

Lemma toLowerCase_app a b : toLowerCase (a ++ b) = toLowerCase a ++ toLowerCase b.
Proof. induction a as [|c a IH]; simpl; [done | by rewrite IH]. Qed.

Lemma toLowerCase_split s : ∀ a' b',
  toLowerCase s = a' ++ b' →
  ∃ a b, s = a ++ b ∧ toLowerCase a = a' ∧ toLowerCase b = b'.
Proof.
  induction s as [|c s IH]; intros a' b' Hs; simpl in Hs.
  - destruct a'; [|done]. simpl in Hs. subst. by exists EmptyString, EmptyString.
  - destruct a' as [|c' a']; simpl in Hs.
    + subst. by exists EmptyString, (String c s).
    + injection Hs as <- Hs. destruct (IH _ _ Hs) as (a & b & -> & <- & <-).
      by exists (String c a), b.
Qed.

Lemma includes_lower link keyword :
  includes (toLowerCase link) keyword = true ↔ mentions link keyword.
Proof.
  rewrite includes_spec. split.
  - intros (before' & after' & Hl).
    destruct (toLowerCase_split _ _ _ Hl) as (before & rest & -> & _ & Hrest).
    destruct (toLowerCase_split _ _ _ Hrest) as (piece & after & -> & Hpiece & _).
    by exists before, piece, after.
  - intros (before & piece & after & -> & <-).
    exists (toLowerCase before), (toLowerCase after). by rewrite !toLowerCase_app.
Qed.

Lemma unsubscribe_link_test link :
  existsb (λ keyword, includes (toLowerCase link) keyword) unsubscribeKeywords = true
  ↔ unsubscribe_link link.
Proof.
  rewrite existsb_exists. unfold unsubscribe_link.
  setoid_rewrite includes_lower. by setoid_rewrite list_elem_of_In.
Qed.

#[global] Instance unsubscribe_link_dec link : Decision (unsubscribe_link link).
Proof.
  destruct (existsb (λ keyword, includes (toLowerCase link) keyword) unsubscribeKeywords)
    eqn:Htest.
  - left. by apply unsubscribe_link_test.
  - right. intros Hl%unsubscribe_link_test. congruence.
Defined.

(** C6. On the three links of the example only ["https://x/view"] is kept;
    in general the function keeps, in their order and with their
    multiplicity, exactly the links that contain none of the five keywords
    up to letter case. *)
Theorem filterUnsubscribeLinks_spec :
  filterUnsubscribeLinks
    ["https://x/unsubscribe"; "https://x/view"; "https://x/opt-out"]
  = ["https://x/view"]
  ∧ ∀ links, filterUnsubscribeLinks links = filter (λ link, ¬ unsubscribe_link link) links.
Proof.
  split; [reflexivity|]. intros links. unfold filterUnsubscribeLinks.
  induction links as [|link links IH]; [done|]. cbn [List.filter]. rewrite IH.
  destruct (existsb _ unsubscribeKeywords) eqn:Htest; simpl.
  - rewrite filter_cons_False; [done|]. intros Hn. by apply Hn, unsubscribe_link_test.
  - rewrite filter_cons_True; [done|]. intros Hl%unsubscribe_link_test. congruence.
Qed.
End GmailFacts.

(** ** The scheduler *)

Module SchedulerFacts.
Import Scheduler.

Lemma published_campaigns_app l1 l2 : published (l1 ++ l2) = published l1 ++ published l2.
Proof. apply omap_app. Qed.

Section facts.
Variable env : Env.

Lemma send_all rows : ∀ s,
  let '(s', r) := for_of rows (λ campaign,
                    call (SendCampaign (message_of campaign)) (queue_send env)) s in
  match r with
  | Ok _ => published (trace s') = published (trace s) ++ (message_of <$> rows)
  | Throw e =>
      ∃ k, (k < length rows)%nat
           ∧ published (trace s') = published (trace s) ++ (message_of <$> take k rows)
           ∧ queue_send env (tick s + k) = Throw e
  end.
Proof.
  induction rows as [|row rows IH]; intros s.
  - simpl. by rewrite app_nil_r.
  - cbn [for_of]. unfold mbind, M_bind, call at 1.
    destruct (queue_send env (tick s)) as [[]|e] eqn:Hsend; cbn [is_ok].
    + specialize (IH {| tick := S (tick s); db := db s;
                        trace := trace s ++ [(SendCampaign (message_of row), true)] |}).
      destruct (for_of rows _ _) as [s' [[]|e]]; simpl in IH.
      * rewrite IH, published_campaigns_app. simpl. by rewrite <- app_assoc.
      * destruct IH as (k & Hk & Hpub & Hsend').
        exists (S k). split_and!; [simpl; lia | |].
        -- rewrite Hpub, published_campaigns_app. simpl. by rewrite <- app_assoc.
        -- by replace (tick s + S k)%nat with (S (tick s) + k)%nat by lia.
    + exists 0%nat. split_and!; [simpl; lia | |].
      * simpl. by rewrite published_campaigns_app, !app_nil_r.
      * by rewrite Nat.add_0_r.
Qed.
End facts.

(** C4, as stated, fails: the messages are sent one by one, so a [send]
    that is rejected leaves the campaigns before it published. Here the
    second of two active campaigns is rejected and exactly the first one is
    published. *)
Lemma scheduler_all_or_none_counterexample :
  ¬ (∀ env tables,
       let s' := (scheduled env (start tables)).1 in
       published (trace s')
       = message_of <$> List.filter campaigns.is_active (campaigns_table tables)
       ∨ published (trace s') = []).
Proof.
  intros Hclaim. specialize (Hclaim (Samples.queue_fails_at 2) Samples.tables).
  vm_compute in Hclaim. by destruct Hclaim.
Qed.

(** C4 (amended). A scheduler run that completes has published exactly one
    message per campaign with status ['active'], holding only the campaign
    id, in the order of the listing. A run fails either on the listing,
    with nothing published, or on the [send] of some active campaign, with
    exactly the messages of the active campaigns listed before it
    published and none after; the error is rethrown. *)
Theorem scheduler_publishes env tables :
  let '(s', r) := scheduled env (start tables) in
  let active := List.filter campaigns.is_active (campaigns_table tables) in
  match r with
  | Ok _ => published (trace s') = message_of <$> active
  | Throw e =>
      ∃ k, published (trace s') = message_of <$> take k active
           ∧ (d1_error env 0 = Some e ∧ k = 0%nat
              ∨ d1_error env 0 = None ∧ (k < length active)%nat
                ∧ queue_send env (S k) = Throw e)
  end.
Proof.
  unfold scheduled, try_catch, select_active_campaigns, d1, start, mbind, M_bind, throw.
  cbn [tick db trace].
  destruct (d1_error env 0) as [e|] eqn:Hd1.
  { exists 0%nat. split; [done | by left]. }
  match goal with |- context [for_of ?rows _ ?s1] =>
    pose proof (send_all env rows s1) as Hloop
  end.
  destruct (for_of _ _ _) as [s' [[]|e]]; cbn in Hloop; [done|].
  destruct Hloop as (k & Hk & Hpub & Hsend). exists k. split; [done|]. by right.
Qed.
End SchedulerFacts.

(** ** The campaign consumer *)

Module ConsumerFacts.
Import Consumer.

Lemma published_tasks_app l1 l2 : published (l1 ++ l2) = published l1 ++ published l2.
Proof. apply omap_app. Qed.

Lemma Qltb_true x y : (x < y)%Q → Qltb x y = true.
Proof.
  intros Hlt. unfold Qltb. destruct (Qle_bool y x) eqn:Hle; [|done].
  apply Qle_bool_iff in Hle. by apply Qlt_not_le in Hlt.
Qed.

Lemma Qltb_false x y : (y <= x)%Q → Qltb x y = false.
Proof. intros Hle%Qle_bool_iff. unfold Qltb. by rewrite Hle. Qed.

Section facts.
Variable env : Env.
Variable engagementSettings : EngagementSettings.t.
Variables (campaignId : Z) (senderEmail : string).

Hypothesis draws : ∀ t, (0 <= math_random env t)%Q ∧ (math_random env t < 1)%Q.
Hypothesis rate_open : (EngagementSettings.open_rate engagementSettings == 1)%Q.
Hypothesis rate_click : (EngagementSettings.click_rate engagementSettings == 0)%Q.
Hypothesis rate_reply : (EngagementSettings.reply_rate engagementSettings == 0)%Q.
Hypothesis rate_inbox : (EngagementSettings.move_to_inbox_rate engagementSettings == 0)%Q.

Lemma choose_actions_open s :
  choose_actions env engagementSettings s
  = ({| tick := 4 + tick s; db := db s; trace := trace s |}, Ok [open]).
Proof.
  unfold choose_actions, sample, observe, mbind, M_bind, mret, M_ret. cbn.
  rewrite (Qltb_false _ (EngagementSettings.move_to_inbox_rate _)),
    (Qltb_true _ (EngagementSettings.open_rate _)),
    (Qltb_false _ (EngagementSettings.click_rate _)),
    (Qltb_false _ (EngagementSettings.reply_rate _)); [done|..];
    first [rewrite rate_open | rewrite rate_click | rewrite rate_reply
           | rewrite rate_inbox]; apply draws.
Qed.

Lemma expand_account_open accountId s :
  expand_account env campaignId senderEmail engagementSettings accountId s
  = let c := SendEngagement (open_task campaignId senderEmail accountId)
                            (Qfloor (math_random env (4 + tick s) * 300)) in
    let r := queue_send env (5 + tick s) in
    ({| tick := 6 + tick s; db := db s; trace := trace s ++ [(c, is_ok r)] |}, r).
Proof.
  unfold expand_account, mbind, M_bind. rewrite choose_actions_open.
  cbn. unfold enqueue_action, observe, call, mbind, M_bind. cbn.
  by destruct (queue_send env _) as [[]|e].
Qed.

Lemma expand_all accountIds : ∀ s,
  let '(s', r) := for_of accountIds
                    (expand_account env campaignId senderEmail engagementSettings) s in
  ∃ k, (published (trace s')).*1
       = (published (trace s)).*1 ++ (open_task campaignId senderEmail <$> take k accountIds)
       ∧ match r with
         | Ok _ => k = length accountIds
         | Throw e => (k < length accountIds)%nat ∧ ∃ t, queue_send env t = Throw e
         end.
Proof.
  induction accountIds as [|a accountIds IH]; intros s.
  - exists 0%nat. simpl. by rewrite app_nil_r.
  - cbn [for_of]. unfold mbind at 1, M_bind at 1. rewrite expand_account_open. cbv zeta.
    destruct (queue_send env (5 + tick s)) as [[]|e] eqn:Hsend; cbn [is_ok].
    + match goal with |- context [for_of _ _ ?s1] => specialize (IH s1) end.
      destruct (for_of accountIds _ _) as [s' r]. destruct IH as (k & Hpub & Hr).
      exists (S k). split.
      * rewrite Hpub. cbn [trace]. rewrite published_tasks_app, fmap_app. cbn.
        by rewrite <- app_assoc.
      * destruct r as [[]|e]; [by rewrite Hr | split; [simpl; lia | apply Hr]].
    + exists 0%nat. split; [|split; [simpl; lia | by eexists]].
      cbn [trace]. by rewrite published_tasks_app, fmap_app, !app_nil_r.
Qed.
End facts.

(** C5. With [open_rate = 1] and the three other rates [0], whatever the
    random draws in [0,1), the tasks a campaign message publishes are
    [open] tasks, one per reserved account in the order of the reservation
    and nothing else; a rejected [send] stops the expansion after the
    accounts served so far, and when the queue accepts every [send] all
    the reserved accounts are served and the message is acknowledged. *)
Theorem independent_sampling env message tables campaign engagementSettings accountIds :
  List.find (λ r, (campaigns.id r =? CampaignQueueMessage.campaignId message)
                  && campaigns.is_active r) (campaigns_table tables) = Some campaign →
  d1_error env 0 = None →
  JSON_parse env (campaigns.engagement_settings campaign) = Ok engagementSettings →
  (EngagementSettings.open_rate engagementSettings == 1)%Q →
  (EngagementSettings.click_rate engagementSettings == 0)%Q →
  (EngagementSettings.reply_rate engagementSettings == 0)%Q →
  (EngagementSettings.move_to_inbox_rate engagementSettings == 0)%Q →
  select_accounts env 1 = Ok (PoolCoordinator.AccountIds accountIds) →
  (∀ t, (0 <= math_random env t)%Q ∧ (math_random env t < 1)%Q) →
  let s' := (queue_message env message (start tables)).1 in
  ∃ k, (published (trace s')).*1
       = open_task (CampaignQueueMessage.campaignId message)
                   (campaigns.sender_email campaign) <$> take k accountIds
       ∧ ((∀ t, queue_send env t = Ok tt) →
          k = length accountIds ∧ last (trace s') = Some (AckCampaign message, true)).
Proof.
  intros Hfind Hd1 Hjson Hopen Hclick Hreply Hinbox Hdo Hdraws.
  unfold queue_message, try_catch, process, select_active_campaign, d1, start,
    mbind, M_bind, lift_result, signal, call. cbn [tick db trace].
  rewrite Hd1. cbn [tick db trace]. rewrite Hfind, Hjson. cbn [tick db trace].
  rewrite Hdo. cbn [is_ok].
  destruct (Nat.eqb (length accountIds) 0) eqn:Hlen.
  { apply Nat.eqb_eq, nil_length_inv in Hlen as ->. by exists 0%nat. }
  match goal with |- context [for_of _ _ ?s1] =>
    pose proof (expand_all env engagementSettings (CampaignQueueMessage.campaignId message)
                  (campaigns.sender_email campaign) Hdraws Hopen Hclick Hreply Hinbox
                  accountIds s1) as Hloop
  end.
  destruct (for_of accountIds _ _) as [s2 r]. destruct Hloop as (k & Hpub & Hr).
  cbn in Hpub. exists k. destruct r as [[]|e]; cbn [fst trace is_ok].
  - split.
    + by rewrite published_tasks_app, fmap_app, Hpub, app_nil_r.
    + intros _. split; [done | by rewrite last_snoc].
  - split.
    + by rewrite published_tasks_app, fmap_app, Hpub, app_nil_r.
    + intros Hsend. destruct Hr as (_ & t & Ht). by rewrite Hsend in Ht.
Qed.

Lemma independent_sampling_witness :
  let message := {| CampaignQueueMessage.campaignId := 1 |} in
  let s' := (queue_message Samples.calm message (start Samples.tables)).1 in
  ∃ k, (published (trace s')).*1
       = open_task 1 "sender@example.com" <$> take k [10; 11]
       ∧ ((∀ t, queue_send Samples.calm t = Ok tt) →
          k = 2%nat ∧ last (trace s') = Some (AckCampaign message, true)).
Proof.
  apply (independent_sampling Samples.calm {| CampaignQueueMessage.campaignId := 1 |}
           Samples.tables (Samples.campaign 1 campaigns.active)
           {| EngagementSettings.open_rate := 1; EngagementSettings.click_rate := 0;
              EngagementSettings.reply_rate := 0;
              EngagementSettings.move_to_inbox_rate := 0 |} [10; 11]);
    [reflexivity | reflexivity | reflexivity | reflexivity | reflexivity | reflexivity
     | reflexivity | reflexivity | ].
  intros t. split; [by vm_compute | reflexivity].
Defined.
End ConsumerFacts.

(** ** Which calls a handler makes *)

Section emits.
Context (P : Call → Prop).

Lemma emits_ret {A} (a : A) : emits P (mret a).
Proof. intros s. exists []. by rewrite app_nil_r. Qed.

Lemma emits_throw {A} e : emits P (throw (A:=A) e).
Proof. intros s. exists []. by rewrite app_nil_r. Qed.

Lemma emits_lift_result {A} (r : result A) : emits P (lift_result r).
Proof. intros s. exists []. by rewrite app_nil_r. Qed.

Lemma emits_observe {A} (oracle : nat → A) : emits P (observe oracle).
Proof. intros s. exists []. by rewrite app_nil_r. Qed.

Lemma emits_call {A} c (answer : nat → result A) : P c → emits P (call c answer).
Proof. intros Hc s. eexists [_]. split; [done|]. by apply Forall_singleton. Qed.

Lemma emits_signal c : P c → emits P (signal c).
Proof. apply emits_call. Qed.

Lemma emits_d1 {A} env c effect (answer : Database → A) :
  P c → emits P (d1 env c effect answer).
Proof.
  intros Hc s. unfold d1. destruct (d1_error env (tick s));
    (eexists [_]; split; [done | by apply Forall_singleton]).
Qed.

Lemma emits_bind {A B} (m : M World A) (k : A → M World B) :
  emits P m → (∀ a, emits P (k a)) → emits P (m ≫= k).
Proof.
  intros Hm Hk s. unfold mbind, M_bind. destruct (Hm s) as (calls & Htr & Hcalls).
  destruct (m s) as [s1 [a|e]]; simpl in *.
  - destruct (Hk a s1) as (calls' & Htr' & Hcalls').
    exists (calls ++ calls'). split; [by rewrite Htr', Htr, app_assoc|].
    by apply Forall_app.
  - by exists calls.
Qed.

Lemma emits_try_catch {A} (body : M World A) handler :
  emits P body → (∀ e, emits P (handler e)) → emits P (try_catch body handler).
Proof.
  intros Hm Hk s. unfold try_catch. destruct (Hm s) as (calls & Htr & Hcalls).
  destruct (body s) as [s1 [a|e]]; simpl in *.
  - by exists calls.
  - destruct (Hk e s1) as (calls' & Htr' & Hcalls').
    exists (calls ++ calls'). split; [by rewrite Htr', Htr, app_assoc|].
    by apply Forall_app.
Qed.

Lemma emits_for_of {A} (xs : list A) body :
  (∀ x, emits P (body x)) → emits P (for_of xs body).
Proof.
  intros Hbody. induction xs as [|x xs IH]; cbn [for_of]; [apply emits_ret|].
  by apply emits_bind.
Qed.

Lemma emits_emits_on_throw {A} (m : M World A) : emits P m → emits_on_throw P m.
Proof. intros Hm s s' e Hs. specialize (Hm s). by rewrite Hs in Hm. Qed.


End emits.

Module EngagementFacts.
Import Engagement.

Lemma find_none_inactive (accounts : list gmail_accounts.row) gmailAccountId :
  (∀ r, r ∈ accounts → gmail_accounts.id r = gmailAccountId →
        gmail_accounts.status r ≠ gmail_accounts.active) →
  List.find (λ r, (gmail_accounts.id r =? gmailAccountId) && gmail_accounts.is_active r)
            accounts = None.
Proof.
  intros Hnone. destruct (List.find _ accounts) as [r|] eqn:Hfind; [|done].
  apply find_some in Hfind as [Hin [Hid Hact]%andb_true_iff].
  apply list_elem_of_In in Hin. apply Z.eqb_eq in Hid.
  specialize (Hnone r Hin Hid). unfold gmail_accounts.is_active in Hact.
  by destruct (gmail_accounts.status r).
Qed.

(** C7, as stated, fails on the text of the reason: the row holds
    ["Account not available"], with a capital letter, not
    ["account not available"]. *)
Lemma account_not_available_counterexample :
  ¬ (∀ env tables message,
       (∀ r, r ∈ gmail_accounts_table tables →
             gmail_accounts.id r = EngagementQueueMessage.gmailAccountId message →
             gmail_accounts.status r ≠ gmail_accounts.active) →
       (∀ t, d1_error env t = None) →
       engagement_logs_table (db (queue_message env message (start tables)).1)
       = engagement_logs_table tables
         ++ [log_row message engagement_logs.failed
                     (Some "account not available"%string) None]).
Proof.
  intros Hclaim.
  specialize (Hclaim Samples.calm Samples.tables (Samples.task 11 open)).
  assert (∀ r, r ∈ gmail_accounts_table Samples.tables →
               gmail_accounts.id r = 11 →
               gmail_accounts.status r ≠ gmail_accounts.active) as Hdisabled.
  { intros r Hr Hid. cbn in Hr. set_unfold in Hr. by destruct Hr as [-> | [-> | []]]. }
  specialize (Hclaim Hdisabled (λ _, eq_refl)). vm_compute in Hclaim. discriminate Hclaim.
Qed.

(** C7 (amended). When the account of the task is a row of the store whose
    status is not ['active'] (it is disabled, or needs re-authentication),
    the log row of the task satisfies the foreign keys of its table (the
    campaign and the account of the task are rows of the store), and the
    store answers the lookup and accepts the insert, the worker writes
    exactly one log row, with status ['failed'] and reason
    ["Account not available"], then acknowledges the message; it makes no
    other call: no retry, no credential access, no provider call, no update
    of [last_used_at]. *)
Theorem account_not_available env tables message :
  (∀ r, r ∈ gmail_accounts_table tables →
        gmail_accounts.id r = EngagementQueueMessage.gmailAccountId message →
        gmail_accounts.status r ≠ gmail_accounts.active) →
  foreign_keys_hold tables
    (log_row message engagement_logs.failed (Some "Account not available"%string) None) →
  d1_error env 0 = None → d1_error env 1 = None →
  let row := log_row message engagement_logs.failed
                     (Some "Account not available"%string) None in
  queue_message env message (start tables)
  = ({| tick := 3;
        db := add_log row tables;
        trace := [ (SelectActiveAccount (EngagementQueueMessage.gmailAccountId message), true);
                   (InsertEngagementLog row, true);
                   (AckEngagement message, true) ] |},
     Ok tt).
Proof.
  intros Hnone%find_none_inactive _ Hd0 Hd1.
  unfold queue_message, try_catch, process, select_active_account, logEngagement,
    d1, start, mbind, M_bind, signal, call. cbn [tick db trace].
  rewrite Hd0. cbn [tick db trace]. rewrite Hnone. cbn [tick db trace].
  rewrite Hd1. reflexivity.
Qed.

Lemma account_not_available_witness :
  let message := Samples.task 11 open in
  let row := log_row message engagement_logs.failed
                     (Some "Account not available"%string) None in
  queue_message Samples.calm message (start Samples.tables)
  = ({| tick := 3;
        db := add_log row Samples.tables;
        trace := [ (SelectActiveAccount 11, true); (InsertEngagementLog row, true);
                   (AckEngagement message, true) ] |},
     Ok tt).
Proof.
  apply (account_not_available Samples.calm Samples.tables (Samples.task 11 open));
    [| |reflexivity..].
  - intros r Hr Hid. cbn in Hr. set_unfold in Hr. by destruct Hr as [-> | [-> | []]].
  - split.
    + exists (Samples.campaign 1 campaigns.active). split; [|reflexivity].
      cbn. set_unfold. by left.
    + exists (Samples.account 11 gmail_accounts.disabled). split; [|reflexivity].
      cbn. set_unfold. by right; left.
Defined.

Section calls.
Variable env : Env.
Context (P : Call → Prop) (work : ∀ c, ¬ queue_signal c → P c).

Ltac work := apply work; by intros [].

Lemma logEngagement_emits campaignId gmailAccountId actionType status errorMessage subject :
  emits P (logEngagement env campaignId gmailAccountId actionType status errorMessage subject).
Proof. apply emits_d1. work. Qed.

Lemma click_link_emits fullMessage log subject :
  (∀ status errorMessage subject', emits P (log status errorMessage subject')) →
  emits P (click_link env fullMessage log subject).
Proof.
  intros Hlog. unfold click_link.
  destruct (getHtmlContent env fullMessage) as [html|]; [|done].
  destruct (String.eqb html EmptyString); [done|].
  destruct (Nat.ltb 0 _); [|done].
  apply emits_bind; [apply emits_observe|]. intros r.
  apply emits_try_catch; [|done].
  apply emits_bind; [|done].
  destruct (pick _ r); [apply emits_call; work | apply emits_throw].
Qed.

Lemma performEngagementAction_emits accessToken campaignId gmailAccountId senderEmail
    actionType :
  emits P (performEngagementAction env accessToken campaignId gmailAccountId senderEmail
             actionType).
Proof.
  unfold performEngagementAction.
  apply emits_try_catch; [|intros; apply emits_throw].
  apply emits_bind; [apply emits_call; work|]. intros messages.
  destruct (Nat.eqb (length messages) 0); [apply logEngagement_emits|].
  apply emits_bind; [apply emits_observe|]. intros r.
  destruct (pick messages r) as [messageId|]; [|apply emits_throw].
  apply emits_bind; [apply emits_call; work|]. intros fullMessage.
  destruct actionType.
  - apply emits_bind; [apply emits_call; work|]. intros _. apply logEngagement_emits.
  - apply click_link_emits. intros. apply logEngagement_emits.
  - apply emits_bind; [|intros replyBody].
    { apply emits_bind; [apply emits_observe | intros; apply emits_ret]. }
    apply emits_bind; [apply emits_call; work|]. intros _. apply logEngagement_emits.
  - apply emits_bind; [apply emits_call; work|]. intros _. apply logEngagement_emits.
Qed.

Lemma valid_credentials_emits account gmailAccountId :
  emits P (valid_credentials env account gmailAccountId).
Proof.
  unfold valid_credentials.
  apply emits_bind; [apply emits_call; work|]. intros credentials.
  apply emits_bind; [apply emits_observe|]. intros now_.
  destruct (_ <? now_); [|apply emits_ret].
  apply emits_bind; [apply emits_call; work|]. intros refreshed.
  apply emits_bind; [apply emits_call; work|]. intros encryptedCreds.
  apply emits_bind; [apply emits_d1; work|]. intros _. apply emits_ret.
Qed.

Lemma select_active_account_emits gmailAccountId :
  emits P (select_active_account env gmailAccountId).
Proof. apply emits_d1. work. Qed.


End calls.







Lemma pick_nonempty {A} (arr : list A) r x : pick arr r = Some x → arr ≠ [].
Proof. intros Hpick ->. unfold pick in Hpick. by destruct (_ <? 0). Qed.

Lemma length_nonzero {A} (l : list A) : l ≠ [] → Nat.eqb (length l) 0 = false.
Proof. by destruct l. Qed.

(** On each terminal failure [performEngagementAction] returns normally,
    having logged the failure. *)
Lemma terminal_failure_returns env accessToken message s reason subject :
  terminal_failure env message s reason subject →
  (∀ t, d1_error env t = None) →
  ∃ s', performEngagementAction env accessToken
          (EngagementQueueMessage.campaignId message)
          (EngagementQueueMessage.gmailAccountId message)
          (EngagementQueueMessage.senderEmail message)
          (EngagementQueueMessage.actionType message) s = (s', Ok tt)
        ∧ engagement_logs_table (db s')
          = engagement_logs_table (db s)
            ++ [log_row message engagement_logs.failed (Some reason) subject].
Proof.
  intros Hfail Hd1.
  unfold performEngagementAction, try_catch, logEngagement, d1, call, observe,
    mbind, M_bind.
  destruct Hfail as [Hlist
    | messages messageId fullMessage Haction Hlist Hne Hpick Hget Hhtml
    | messages messageId fullMessage html Haction Hlist Hne Hpick Hget Hhtml Hnonempty Hsafe
    | messages messageId fullMessage html link e Haction Hlist Hne Hpick Hget Hhtml
        Hnonempty Hlink Hfetch];
    cbn [Nat.add] in *; rewrite Hlist; cbn [tick db trace is_ok length Nat.eqb].
  - rewrite Hd1. eexists; (split; [reflexivity | unfold log_row; by rewrite ?Haction]).
  - rewrite (length_nonzero _ Hne). cbn [tick db trace]. rewrite Hpick. cbn [tick db trace].
    rewrite Hget, Haction. cbn [tick db trace is_ok].
    unfold click_link. destruct Hhtml as [-> | ->]; cbn [String.eqb];
      unfold d1; rewrite Hd1; eexists; (split; [reflexivity | unfold log_row; by rewrite ?Haction]).
  - rewrite (length_nonzero _ Hne). cbn [tick db trace]. rewrite Hpick. cbn [tick db trace].
    rewrite Hget, Haction. cbn [tick db trace is_ok].
    unfold click_link. rewrite Hhtml.
    apply String.eqb_neq in Hnonempty. rewrite Hnonempty, Hsafe. cbn [length Nat.ltb Nat.leb].
    unfold d1. rewrite Hd1. eexists; (split; [reflexivity | unfold log_row; by rewrite ?Haction]).
  - rewrite (length_nonzero _ Hne). cbn [tick db trace]. rewrite Hpick. cbn [tick db trace].
    rewrite Hget, Haction. cbn [tick db trace is_ok].
    unfold click_link. rewrite Hhtml.
    apply String.eqb_neq in Hnonempty. rewrite Hnonempty.
    pose proof (pick_nonempty _ _ _ Hlink) as Hsafe.
    destruct (Gmail.filterUnsubscribeLinks (extractLinks env html)) as [|l ls] eqn:Hlinks;
      [done|].
    cbn [length Nat.ltb Nat.leb]. unfold observe, try_catch, call, mbind, M_bind, d1.
    cbn [tick db trace]. rewrite Hlink. cbn [tick db trace].
    rewrite Hfetch. cbn [tick db trace is_ok]. rewrite Hd1.
    eexists; (split; [reflexivity | unfold log_row; by rewrite ?Haction]).
Qed.

(** C9. Whenever [performEngagementAction] returns without throwing, the
    worker next updates [last_used_at] of the account and, the update
    accepted, acknowledges the message: nothing is read from the outcome
    that was logged. And [performEngagementAction] does return without
    throwing on each terminal failure (['No messages found'],
    ['No HTML content'], ['No safe links found'], ['Link click failed']),
    after logging a row with status ['failed']. *)
Theorem last_used_at_bumped env tables message account credentials s1 s2 :
  List.find (λ r, (gmail_accounts.id r =? EngagementQueueMessage.gmailAccountId message)
                  && gmail_accounts.is_active r)
            (gmail_accounts_table tables) = Some account →
  d1_error env 0 = None →
  valid_credentials env account (EngagementQueueMessage.gmailAccountId message)
    {| tick := 1; db := tables;
       trace := [(SelectActiveAccount (EngagementQueueMessage.gmailAccountId message), true)] |}
  = (s1, Ok credentials) →
  performEngagementAction env (OAuthCredentials.access_token credentials)
    (EngagementQueueMessage.campaignId message)
    (EngagementQueueMessage.gmailAccountId message)
    (EngagementQueueMessage.senderEmail message)
    (EngagementQueueMessage.actionType message) s1 = (s2, Ok tt) →
  d1_error env (S (tick s2)) = None →
  queue_message env message (start tables)
  = (let gmailAccountId := EngagementQueueMessage.gmailAccountId message in
     let timestamp := toISOString env (date_now env (tick s2)) in
     {| tick := 3 + tick s2;
        db := set_last_used_at gmailAccountId timestamp (db s2);
        trace := trace s2 ++ [ (UpdateLastUsedAt gmailAccountId timestamp, true);
                               (AckEngagement message, true) ] |},
     Ok tt)
  ∧ ∀ accessToken s reason subject,
      terminal_failure env message s reason subject →
      (∀ t, d1_error env t = None) →
      ∃ s', performEngagementAction env accessToken
              (EngagementQueueMessage.campaignId message)
              (EngagementQueueMessage.gmailAccountId message)
              (EngagementQueueMessage.senderEmail message)
              (EngagementQueueMessage.actionType message) s = (s', Ok tt)
            ∧ engagement_logs_table (db s')
              = engagement_logs_table (db s)
                ++ [log_row message engagement_logs.failed (Some reason) subject].
Proof.
  intros Hfind Hd0 Hcreds Haction Hupdate. split.
  - unfold queue_message, try_catch, process, select_active_account, start.
    unfold mbind at 1, M_bind at 1, d1 at 1. cbn [tick db trace app]. rewrite Hd0, Hfind.
    unfold mbind at 1, M_bind at 1. rewrite Hcreds.
    unfold mbind at 1, M_bind at 1. rewrite Haction.
    unfold touch_and_ack, observe, d1, signal, call, mbind, M_bind. cbn [tick db trace].
    rewrite Hupdate. cbn [tick db trace is_ok Nat.add]. by rewrite <- app_assoc.
  - intros accessToken s reason subject. apply terminal_failure_returns.
Qed.

Lemma last_used_at_bumped_witness :
  let message := Samples.task 10 open in
  let row := log_row message engagement_logs.failed (Some "No messages found"%string) None in
  queue_message Samples.calm message (start Samples.tables)
  = ({| tick := 8;
        db := set_last_used_at 10 "1970-01-01T00:00:01.000Z"
                (add_log row Samples.tables);
        trace := [ (SelectActiveAccount 10, true); (DecryptCredentials "blob", true);
                   (ListMessages "token" "sender@example.com" 5, true);
                   (InsertEngagementLog row, true);
                   (UpdateLastUsedAt 10 "1970-01-01T00:00:01.000Z", true);
                   (AckEngagement message, true) ] |},
     Ok tt).
Proof.
  exact (proj1 (last_used_at_bumped Samples.calm Samples.tables (Samples.task 10 open)
                  (Samples.account 10 gmail_accounts.active)
                  {| OAuthCredentials.access_token := "token";
                     OAuthCredentials.refresh_token := "refresh";
                     OAuthCredentials.expiry_date := 2000 |}
                  {| tick := 3; db := Samples.tables;
                     trace := [ (SelectActiveAccount 10, true);
                                (DecryptCredentials "blob", true) ] |}
                  {| tick := 5;
                     db := add_log (log_row (Samples.task 10 open) engagement_logs.failed
                                      (Some "No messages found"%string) None)
                                   Samples.tables;
                     trace := [ (SelectActiveAccount 10, true);
                                (DecryptCredentials "blob", true);
                                (ListMessages "token" "sender@example.com" 5, true);
                                (InsertEngagementLog
                                   (log_row (Samples.task 10 open) engagement_logs.failed
                                      (Some "No messages found"%string) None), true) ] |}
                  eq_refl eq_refl eq_refl eq_refl eq_refl)).
Defined.
End EngagementFacts.

(** ** The pool coordinator: failures, selection order, sweep *)

Module PoolCoordinatorLaws.
Import PoolCoordinator PoolCoordinatorFacts.

(** X1. [selectAccounts] never throws: every failure is answered with an
    error response carrying the text of the error, and in that case what
    durable storage holds is left as it was (memory too when it is
    [storage.get] that failed). Accounts are returned only when storage
    could be read, the store answered and, unless it listed no account,
    the new state was written. *)
Theorem select_failures w request this :
  let '(this', r) := selectAccounts w request this in
  ∃ response, r = Ok response
    ∧ alarmTime this' = alarmTime this
    ∧ match response with
      | ErrorResponse e =>
          storage this' = storage this
          ∧ (storage_get w = Throw e ∧ this' = this
             ∨ storage_get w = Ok tt
               ∧ (all_accounts w = Throw e ∨ storage_put w = Throw e))
      | AccountIds ids =>
          storage_get w = Ok tt
          ∧ ∃ rows, all_accounts w = Ok rows
                    ∧ (rows = [] ∧ ids = [] ∨ storage_put w = Ok tt)
      end.
Proof.
  rewrite selectAccounts_eq.
  destruct (storage_get w) as [[]|e].
  2:{ eexists. split; [done|]. split_and!; [done..|by left]. }
  cbv zeta. destruct (all_accounts w) as [rows|e].
  2:{ eexists. split; [done|]. split_and!; [done..|]. right. split; [done | by left]. }
  destruct rows as [|row rows]; cbn [length Nat.eqb].
  { eexists. split; [done|]. split_and!; [done..|]. exists []. split; [done | by left]. }
  destruct (storage_put w) as [[]|e].
  - eexists. split; [done|]. split_and!; [done..|]. eexists. split; [done | by right].
  - eexists. split; [done|]. split_and!; [done..|]. right. split; [done | by right].
Qed.

Lemma slice0_take (A : Type) (l : list A) p :
  0 ≤ p → slice0 l (Z.min p (Z.of_nat (length l))) = take (Z.to_nat p) l.
Proof.
  intros Hp. unfold slice0.
  destruct (Z.ltb_spec (Z.min p (Z.of_nat (length l))) 0); [lia|].
  rewrite Z.min_l by lia.
  destruct (decide (p ≤ Z.of_nat (length l))).
  - by rewrite Z.min_l by lia.
  - rewrite Z.min_r, Nat2Z.id, !firstn_all2 by lia. done.
Qed.

(** X2. For a pool size that is not negative, a successful call returns the
    ids of the first [poolSize] available rows, in the order in which the
    store listed them (all the available ones when there are fewer): the
    least recently used accounts come first, and none is skipped. *)
Theorem select_takes_first w request this this' rows ids :
  0 ≤ poolSize request →
  all_accounts w = Ok rows →
  selectAccounts w request this = (this', Ok (AccountIds ids)) →
  ids = take (Z.to_nat (poolSize request))
             (id <$> filter (λ account, available (hydrated this) (now w) account) rows).
Proof.
  intros Hsize Hrows Hsel. rewrite selectAccounts_eq in Hsel.
  destruct (storage_get w) as [[]|?]; [|done]. cbv zeta in Hsel.
  rewrite Hrows in Hsel. destruct rows as [|row rows]; cbn [length Nat.eqb] in Hsel.
  { injection Hsel as _ <-. by destruct (Z.to_nat (poolSize request)). }
  destruct (storage_put w) as [[]|?]; [|done]. injection Hsel as _ <-.
  unfold picked. by rewrite slice0_take, fmap_take.
Qed.

Lemma select_takes_first_witness :
  0 ≤ poolSize (sample_request 2)
  ∧ all_accounts (sample_world 1000) = Ok sample_rows
  ∧ (selectAccounts (sample_world 1000) (sample_request 2) (constructor None None)).2
    = Ok (AccountIds [1; 2])
  ∧ [1; 2] = take (Z.to_nat (poolSize (sample_request 2)))
                  (id <$> filter (λ account, available (hydrated (constructor None None))
                                               (now (sample_world 1000)) account)
                                 sample_rows).
Proof.
  split_and!; [done | done | by vm_compute |].
  refine (select_takes_first (sample_world 1000) (sample_request 2)
            (constructor None None) _ sample_rows [1; 2] _ eq_refl _);
    [done | apply surjective_pairing].
Defined.

(** X3. A successful call changes the timestamps of the accounts it returns
    and of no other: every other entry of the map the call worked on
    (those of accounts filtered out, of accounts the store did not list)
    is found unchanged afterwards. *)
Theorem select_touches_returned_only w request this this' ids k :
  selectAccounts w request this = (this', Ok (AccountIds ids)) →
  (∀ a, a ∈ ids → k ≠ Some a) →
  lastUsedAccounts this' !! k = hydrated this !! k.
Proof.
  intros Hsel Hk. rewrite selectAccounts_eq in Hsel.
  destruct (storage_get w) as [[]|?]; [|done]. cbv zeta in Hsel.
  destruct (all_accounts w) as [rows|?]; [|done].
  destruct (Nat.eqb (length rows) 0); [by injection Hsel as <- _|].
  destruct (storage_put w) as [[]|?]; [|done]. injection Hsel as <- <-.
  by apply mark_used_other.
Qed.

Lemma select_touches_returned_only_witness :
  (selectAccounts (sample_world 3604999) (sample_request 3)
     (constructor (Some (map_to_record {[Some 7 := 5000]})) None)).2
  = Ok (AccountIds [1; 2])
  ∧ (lastUsedAccounts
       (selectAccounts (sample_world 3604999) (sample_request 3)
          (constructor (Some (map_to_record {[Some 7 := 5000]})) None)).1) !! Some 7
    = hydrated (constructor (Some (map_to_record {[Some 7 := 5000]})) None) !! Some 7.
Proof.
  split; [by vm_compute|].
  refine (select_touches_returned_only (sample_world 3604999) (sample_request 3)
            (constructor (Some (map_to_record {[Some 7 := 5000]})) None) _ [1; 2]
            (Some 7) _ _); [apply surjective_pairing|].
  intros a Ha [= <-]. set_unfold in Ha. lia.
Defined.

(** X4. An alarm during which storage answers keeps exactly the entries
    that are at most 24 hours old, with their timestamps, and persists
    that map. The sweep is invisible to reservations: for every account
    and every later clock reading, the swept map makes the account
    available exactly when the map before the sweep did. *)
Theorem alarm_sweeps w now2 set_alarm this :
  storage_get w = Ok tt → storage_put w = Ok tt →
  let this' := (alarm w now2 set_alarm this).1 in
  (∀ k ts, lastUsedAccounts this' !! k = Some ts
           ↔ hydrated this !! k = Some ts ∧ now w - ts ≤ dayInMs)
  ∧ storage this' = Some (map_to_record (lastUsedAccounts this'))
  ∧ (∀ now' account, now w ≤ now' →
       available (lastUsedAccounts this') now' account
       = available (hydrated this) now' account).
Proof.
  intros Hget Hput. cbv zeta. rewrite alarm_state, Hget, Hput. cbv zeta.
  set (m1 := filter (λ entry, ¬ (dayInMs < now w - entry.2)) (hydrated this)).
  assert (∀ k ts, m1 !! k = Some ts ↔ hydrated this !! k = Some ts ∧ now w - ts ≤ dayInMs)
    as Hm1.
  { intros k ts. unfold m1. rewrite map_lookup_filter_Some. simpl. split; intros []; split;
      [done | lia | done | lia]. }
  assert (lastUsedAccounts
            match set_alarm with
            | Ok _ => Build_t m1 (Some (map_to_record m1)) (Some (now2 + 3600000))
            | Throw _ => Build_t m1 (Some (map_to_record m1)) (alarmTime this)
            end = m1) as Hmem by (by destruct set_alarm).
  rewrite Hmem. split_and!; [done | by destruct set_alarm |].
  intros now' account Hnow'. unfold available.
  destruct (hydrated this !! Some (id account)) as [ts|] eqn:Hh.
  - destruct (decide (now w - ts ≤ dayInMs)) as [Hkeep | Hold].
    + by rewrite (proj2 (Hm1 _ _) (conj Hh Hkeep)).
    + assert (m1 !! Some (id account) = None) as ->.
      { destruct (m1 !! Some (id account)) as [ts'|] eqn:Hm; [|done].
        apply Hm1 in Hm as [Hm ?]. rewrite Hh in Hm. injection Hm as ->. lia. }
      destruct (Z.eqb_spec ts 0); [done|]. symmetry. apply Z.leb_le.
      unfold dayInMs, minTimeBetweenUses in *. lia.
  - assert (m1 !! Some (id account) = None) as ->; [|done].
    destruct (m1 !! Some (id account)) as [ts'|] eqn:Hm; [|done].
    apply Hm1 in Hm as [Hm ?]. by rewrite Hh in Hm.
Qed.

Lemma alarm_sweeps_witness :
  storage_get (sample_world 90000000) = Ok tt
  ∧ storage_put (sample_world 90000000) = Ok tt
  ∧ (lastUsedAccounts
       (alarm (sample_world 90000000) 90000001 (Ok tt)
          (constructor (Some (map_to_record {[Some 1 := 1000; Some 7 := 80000000]}))
                       None)).1) !! Some 7 = Some 80000000
  ∧ (lastUsedAccounts
       (alarm (sample_world 90000000) 90000001 (Ok tt)
          (constructor (Some (map_to_record {[Some 1 := 1000; Some 7 := 80000000]}))
                       None)).1) !! Some 1 = None.
Proof.
  split_and!; [done | done | |].
  - apply (proj1 (alarm_sweeps (sample_world 90000000) 90000001 (Ok tt)
                    (constructor (Some (map_to_record
                       {[Some 1 := 1000; Some 7 := 80000000]})) None) eq_refl eq_refl)).
    split; [by vm_compute | by vm_compute].
  - by vm_compute.
Defined.

(** X5. [alarm] catches nothing: it throws exactly when [storage.get],
    [storage.put] or [setAlarm] rejects, with that error, and then the
    alarm time remains as it was, so that the sweep is not re-armed; when
    all three succeed the next alarm is set one hour after the second
    reading of the clock. *)
Theorem alarm_rearms w now2 set_alarm this :
  let '(this', r) := alarm w now2 set_alarm this in
  match r with
  | Ok _ =>
      storage_get w = Ok tt ∧ storage_put w = Ok tt ∧ set_alarm = Ok tt
      ∧ alarmTime this' = Some (now2 + 3600000)
  | Throw e =>
      alarmTime this' = alarmTime this
      ∧ (storage_get w = Throw e
         ∨ storage_get w = Ok tt ∧ storage_put w = Throw e
         ∨ storage_get w = Ok tt ∧ storage_put w = Ok tt ∧ set_alarm = Throw e)
  end.
Proof.
  unfold alarm, loadState, saveState, mbind, M_bind, mret, M_ret,
    lift_result, get_state, set_state.
  destruct this as [m [st|] al], w as [[[]|e] rows t [[]|e'']], set_alarm as [[]|e3];
    cbn; naive_solver.
Qed.

(** X6. Once a snapshot is stored, the in-memory map is only a cache: a
    call on a freshly constructed instance over the same storage answers
    what the call on the old instance answers, and leaves the same state
    when storage can be read. A restart between two calls is therefore
    not observable, and stamps set in memory by a call whose
    [storage.put] was rejected are forgotten by the next call. *)
Theorem restart_unobservable w request this stored :
  storage this = Some stored →
  (selectAccounts w request (constructor (storage this) (alarmTime this))).2
  = (selectAccounts w request this).2
  ∧ (storage_get w = Ok tt →
     selectAccounts w request (constructor (storage this) (alarmTime this))
     = selectAccounts w request this).
Proof.
  intros Hsto. rewrite !selectAccounts_eq. unfold hydrated, constructor. cbn.
  rewrite Hsto. destruct (storage_get w) as [[]|e]; [|done].
  split; [|done]. done.
Qed.

Lemma restart_unobservable_witness :
  storage (selectAccounts (sample_world 1000) (sample_request 2) (constructor None None)).1
  = Some (map_to_record {[Some 1 := 1000; Some 2 := 1000]})
  ∧ (selectAccounts (sample_world 2000) (sample_request 2)
       (constructor (Some (map_to_record {[Some 1 := 1000; Some 2 := 1000]})) None)).2
    = (selectAccounts (sample_world 2000) (sample_request 2)
         (selectAccounts (sample_world 1000) (sample_request 2)
            (constructor None None)).1).2.
Proof.
  split; [by vm_compute|].
  exact (proj1 (restart_unobservable (sample_world 2000) (sample_request 2)
                  (selectAccounts (sample_world 1000) (sample_request 2)
                     (constructor None None)).1
                  (map_to_record {[Some 1 := 1000; Some 2 := 1000]})
                  ltac:(by vm_compute))).
Defined.
End PoolCoordinatorLaws.

(** ** Settling messages *)

Section settles.

Lemma settles_signal c : settles c (signal c).
Proof. intros s. by exists []. Qed.

Lemma settles_bind {A B} c (m : M World A) (k : A → M World B) :
  emits (λ x, ¬ queue_signal x) m → (∀ a, settles c (k a)) → settles c (m ≫= k).
Proof.
  intros Hm Hk s. unfold mbind, M_bind. destruct (Hm s) as (calls & Htr & Hcalls).
  destruct (m s) as [s1 [a|e]]; simpl in *.
  - destruct (Hk a s1) as (calls' & Hcalls' & Htr').
    exists (calls ++ calls'). split; [by apply Forall_app|].
    by rewrite Htr', Htr, !app_assoc.
  - exists calls. by rewrite app_nil_r.
Qed.

End settles.

Lemma emits_weaken {A} (P P' : Call → Prop) (m : M World A) :
  (∀ c, P c → P' c) → emits P m → emits P' m.
Proof.
  intros HP Hm s. destruct (Hm s) as (calls & Htr & Hcalls). exists calls.
  split; [done|]. eapply Forall_impl; [done|]. intros c. apply HP.
Qed.

(** ** The campaign consumer: settling, discards, tasks *)

Module ConsumerLaws.
Import Consumer ConsumerFacts.

Lemma settlements_app l1 l2 : settlements (l1 ++ l2) = settlements l1 ++ settlements l2.
Proof. apply omap_app. Qed.

Lemma settlements_quiet calls :
  Forall (λ x : Call * bool, ¬ queue_signal x.1) calls → settlements calls = [].
Proof.
  induction 1 as [|[c ok] calls Hc _ IH]; [done|]. unfold settlements in *. cbn.
  rewrite IH. by destruct c; try done; destruct Hc.
Qed.

Section laws.
Variable env : Env.

Ltac quiet := by intros [].

Lemma expand_account_emits campaignId senderEmail engagementSettings accountId :
  emits (λ x, ¬ queue_signal x)
        (expand_account env campaignId senderEmail engagementSettings accountId).
Proof.
  unfold expand_account, choose_actions, sample.
  apply emits_bind.
  { repeat (apply emits_bind; [apply emits_bind; [apply emits_observe|intros; apply emits_ret]|];
            intros ?). apply emits_ret. }
  intros actions. apply emits_for_of. intros actionType. unfold enqueue_action.
  apply emits_bind; [apply emits_observe|]. intros r. apply emits_call. quiet.
Qed.

Lemma process_rest_emits message senderEmail engagementSettings accountIds :
  emits (λ _, True)
    (if Nat.eqb (length accountIds) 0 then signal (AckCampaign message)
     else for_of accountIds
            (expand_account env (CampaignQueueMessage.campaignId message) senderEmail
               engagementSettings)
          ≫= λ _, signal (AckCampaign message)).
Proof.
  destruct (Nat.eqb _ 0); [by apply emits_signal|].
  apply emits_bind; [|intros; by apply emits_signal].
  apply emits_for_of. intros accountId. eapply emits_weaken; [|apply expand_account_emits].
  done.
Qed.

Lemma process_settles message : settles (AckCampaign message) (process env message).
Proof.
  unfold process, select_active_campaign.
  apply settles_bind; [apply emits_d1; quiet|]. intros [campaign|]; [|apply settles_signal].
  apply settles_bind; [apply emits_lift_result|]. intros engagementSettings.
  apply settles_bind; [apply emits_call; quiet|]. intros [accountIds|error].
  - destruct (Nat.eqb (length accountIds) 0); [apply settles_signal|].
    apply settles_bind; [|intros; apply settles_signal].
    apply emits_for_of. intros accountId. apply expand_account_emits.
  - intros s. exists []. by rewrite !app_nil_r.
Qed.

Lemma queue_message_settles message s :
  (queue_message env message s).2 = Ok tt
  ∧ ∃ calls ack, Forall (λ x : Call * bool, ¬ queue_signal x.1) calls
      ∧ trace (queue_message env message s).1
        = trace s ++ calls ++ [(if ack : bool then AckCampaign message
                                else RetryCampaign message, true)].
Proof.
  unfold queue_message, try_catch. destruct (process_settles message s) as (calls & Hq & Htr).
  destruct (process env message s) as [s1 [[]|e]]; cbn [fst snd is_ok] in *.
  - split; [done|]. by exists calls, true.
  - cbn. split; [done|]. exists calls, false. split; [done|].
    by rewrite Htr, app_nil_r, <- app_assoc.
Qed.

(** X7. The campaign consumer never throws and settles every message of a
    batch exactly once, in the order of the batch: each message is either
    acknowledged or sent back for retry, never both and never neither. *)
Theorem batch_settled_once batch : ∀ s,
  (queue env batch s).2 = Ok tt
  ∧ ∃ calls, trace (queue env batch s).1 = trace s ++ calls
             ∧ (settlements calls).*1 = batch.
Proof.
  unfold queue. induction batch as [|message batch IH]; intros s.
  { split; [done|]. exists []. by rewrite app_nil_r. }
  cbn [for_of]. unfold mbind, M_bind.
  destruct (queue_message_settles message s) as (Hok & calls & ack & Hq & Htr).
  destruct (queue_message env message s) as [s1 r]. cbn [fst snd] in *. subst r.
  destruct (IH s1) as (Hok' & calls' & Htr' & Hset). split; [done|].
  exists ((calls ++ [(if ack then AckCampaign message else RetryCampaign message, true)])
          ++ calls').
  split; [by rewrite Htr', Htr, !app_assoc|].
  rewrite !settlements_app, !fmap_app, Hset, (settlements_quiet _ Hq).
  by destruct ack.
Qed.

Lemma find_none_not_active (rows : list campaigns.row) campaignId :
  (∀ r, r ∈ rows → campaigns.id r = campaignId →
        campaigns.status r ≠ campaigns.active) →
  List.find (λ r, (campaigns.id r =? campaignId) && campaigns.is_active r) rows = None.
Proof.
  intros Hnone. destruct (List.find _ rows) as [r|] eqn:Hfind; [|done].
  apply find_some in Hfind as [Hin [Hid Hact]%andb_true_iff].
  apply list_elem_of_In in Hin. apply Z.eqb_eq in Hid.
  specialize (Hnone r Hin Hid). unfold campaigns.is_active in Hact.
  by destruct (campaigns.status r).
Qed.

(** X8. A message for a campaign that is missing, paused or completed is
    acknowledged and discarded: the lookup and the acknowledgement are the
    only calls, so no account is reserved for it and no task published. *)
Theorem inactive_campaign_discarded tables message :
  (∀ r, r ∈ campaigns_table tables →
        campaigns.id r = CampaignQueueMessage.campaignId message →
        campaigns.status r ≠ campaigns.active) →
  d1_error env 0 = None →
  queue_message env message (start tables)
  = ({| tick := 2; db := tables;
        trace := [ (SelectActiveCampaign (CampaignQueueMessage.campaignId message), true);
                   (AckCampaign message, true) ] |},
     Ok tt).
Proof.
  intros Hnone%find_none_not_active Hd1.
  unfold queue_message, try_catch, process, select_active_campaign, d1, start,
    mbind, M_bind, signal, call. cbn [tick db trace].
  rewrite Hd1. cbn [tick db trace]. by rewrite Hnone.
Qed.

(** X9. When the allocator hands out no account, nothing is published: an
    empty reservation is acknowledged, while a failed call to the durable
    object, or its error response (whose [accountIds] is undefined), sends
    the message back for retry. *)
Theorem no_account_no_task tables message campaign engagementSettings :
  List.find (λ r, (campaigns.id r =? CampaignQueueMessage.campaignId message)
                  && campaigns.is_active r) (campaigns_table tables) = Some campaign →
  d1_error env 0 = None →
  JSON_parse env (campaigns.engagement_settings campaign) = Ok engagementSettings →
  (∀ a accountIds, select_accounts env 1 ≠ Ok (PoolCoordinator.AccountIds (a :: accountIds))) →
  queue_message env message (start tables)
  = ({| tick := 3; db := tables;
        trace := [ (SelectActiveCampaign (CampaignQueueMessage.campaignId message), true);
                   (FetchSelectAccounts (campaigns.pool_size campaign)
                      (CampaignQueueMessage.campaignId message),
                    is_ok (select_accounts env 1));
                   (match select_accounts env 1 with
                    | Ok (PoolCoordinator.AccountIds _) => AckCampaign message
                    | _ => RetryCampaign message
                    end, true) ] |},
     Ok tt).
Proof.
  intros Hfind Hd1 Hjson Hnone.
  unfold queue_message, try_catch, process, select_active_campaign, d1, start,
    mbind, M_bind, lift_result, signal, call, throw. cbn [tick db trace].
  rewrite Hd1. cbn [tick db trace]. rewrite Hfind, Hjson. cbn [tick db trace].
  destruct (select_accounts env 1) as [[[|a accountIds]|error]|error] eqn:Hdo;
    [done | by destruct (Hnone a accountIds) | done | done].
Qed.

Lemma delay_bounds (r : Q) :
  (0 <= r)%Q → (r < 1)%Q → 0 ≤ Qfloor (r * 300) < 300.
Proof.
  intros H0 H1. split.
  - change 0 with (Qfloor 0). apply Qfloor_resp_le.
    apply Qmult_le_0_compat; [done | by compute].
  - rewrite Zlt_Qlt. eapply Qle_lt_trans; [apply Qfloor_le|].
    eapply Qlt_le_trans; [apply Qmult_lt_compat_r; [by compute | exact H1]|].
    by compute.
Qed.

Lemma kinds_sent_app l1 l2 : kinds_sent (l1 ++ l2) = kinds_sent l1 ++ kinds_sent l2.
Proof. apply omap_app. Qed.

Lemma emits_for_of_elem {A} P (xs : list A) (body : A → M World unit) :
  (∀ x, x ∈ xs → emits P (body x)) → emits P (for_of xs body).
Proof.
  induction xs as [|x xs IH]; intros Hbody; cbn [for_of]; [apply emits_ret|].
  apply emits_bind; [apply Hbody; left|]. intros _. apply IH.
  intros y Hy. apply Hbody. by right.
Qed.

Lemma enqueue_action_step campaignId accountId senderEmail actionType s :
  enqueue_action env campaignId accountId senderEmail actionType s
  = ({| tick := S (S (tick s)); db := db s;
        trace := trace s ++
          [(SendEngagement
              {| EngagementQueueMessage.campaignId := campaignId;
                 EngagementQueueMessage.gmailAccountId := accountId;
                 EngagementQueueMessage.senderEmail := senderEmail;
                 EngagementQueueMessage.actionType := actionType |}
              (Qfloor (math_random env (tick s) * 300)),
            is_ok (queue_send env (S (tick s))))] |},
     queue_send env (S (tick s))).
Proof. done. Qed.

Lemma enqueue_all_kinds campaignId accountId senderEmail actions : ∀ s,
  ∃ calls, trace (for_of actions (enqueue_action env campaignId accountId senderEmail) s).1
           = trace s ++ calls
           ∧ kinds_sent calls `prefix_of` actions.
Proof.
  induction actions as [|actionType actions IH]; intros s.
  { exists []. by rewrite app_nil_r. }
  cbn [for_of]. unfold mbind at 1, M_bind at 1. rewrite enqueue_action_step.
  destruct (queue_send env (S (tick s))) as [[]|e] eqn:Hsend; cbn [fst snd].
  - match goal with |- context [for_of _ _ ?s1] => destruct (IH s1) as (calls & Htr & Hpre) end.
    eexists (_ :: calls). cbn [trace] in Htr. rewrite Htr, <- app_assoc. split; [done|].
    cbn. by apply prefix_cons.
  - eexists [_]. split; [done|]. cbn. apply prefix_cons, prefix_nil.
Qed.

Lemma push_if_sublist drawn actionType : push_if drawn actionType `sublist_of` [actionType].
Proof. destruct drawn; [done | apply sublist_nil_l]. Qed.

Lemma choose_actions_sublist engagementSettings s :
  trace (choose_actions env engagementSettings s).1 = trace s
  ∧ ∃ actions, (choose_actions env engagementSettings s).2 = Ok actions
               ∧ actions `sublist_of` [move_to_inbox; open; click; reply].
Proof.
  unfold choose_actions, sample, observe, mbind, M_bind, mret, M_ret. cbn.
  split; [done|]. eexists. split; [done|].
  change [move_to_inbox; open; click; reply]
    with ([move_to_inbox] ++ [open] ++ [click] ++ [reply]).
  repeat apply sublist_app; apply push_if_sublist.
Qed.

(** X10. For one reserved account the consumer sends at most one task of
    each kind, in the fixed order move_to_inbox, open, click, reply; a
    rejected send can only cut this sequence short. *)
Theorem one_task_per_kind campaignId senderEmail engagementSettings accountId s :
  ∃ calls,
    trace (expand_account env campaignId senderEmail engagementSettings accountId s).1
    = trace s ++ calls
    ∧ kinds_sent calls `sublist_of` [move_to_inbox; open; click; reply].
Proof.
  unfold expand_account. unfold mbind at 1, M_bind at 1.
  destruct (choose_actions_sublist engagementSettings s) as (Htr & actions & Hok & Hsub).
  destruct (choose_actions env engagementSettings s) as [s1 r]. cbn [fst snd] in *.
  subst r. destruct (enqueue_all_kinds campaignId accountId senderEmail actions s1)
    as (calls & Htr' & Hpre).
  exists calls. rewrite Htr', Htr. split; [done|].
  destruct Hpre as [rest ->]. etrans; [|done]. by apply sublist_inserts_r.
Qed.

Ltac others H := repeat (apply Forall_cons_2; [by apply H|]); by apply Forall_nil_2.

(** What is known of a task sent for [message] from state [s]: the row
    the lookup found, the reservation it was drawn from, the draw that
    delays it. *)
Lemma queue_message_sends message s :
  ∃ calls, trace (queue_message env message s).1 = trace s ++ calls
    ∧ ∀ task delaySeconds accepted, (SendEngagement task delaySeconds, accepted) ∈ calls →
        ∃ campaign accountIds t,
          List.find (λ r, (campaigns.id r =? CampaignQueueMessage.campaignId message)
                          && campaigns.is_active r) (campaigns_table (db s))
          = Some campaign
          ∧ select_accounts env (S (tick s)) = Ok (PoolCoordinator.AccountIds accountIds)
          ∧ EngagementQueueMessage.campaignId task = CampaignQueueMessage.campaignId message
          ∧ EngagementQueueMessage.senderEmail task = campaigns.sender_email campaign
          ∧ EngagementQueueMessage.gmailAccountId task ∈ accountIds
          ∧ delaySeconds = Qfloor (math_random env t * 300).
Proof.
  set (P := λ c : Call, ∀ task delaySeconds, c = SendEngagement task delaySeconds →
        ∃ campaign accountIds t,
          List.find (λ r, (campaigns.id r =? CampaignQueueMessage.campaignId message)
                          && campaigns.is_active r) (campaigns_table (db s))
          = Some campaign
          ∧ select_accounts env (S (tick s)) = Ok (PoolCoordinator.AccountIds accountIds)
          ∧ EngagementQueueMessage.campaignId task = CampaignQueueMessage.campaignId message
          ∧ EngagementQueueMessage.senderEmail task = campaigns.sender_email campaign
          ∧ EngagementQueueMessage.gmailAccountId task ∈ accountIds
          ∧ delaySeconds = Qfloor (math_random env t * 300)).
  assert (Hother : ∀ c, (∀ task delaySeconds, c ≠ SendEngagement task delaySeconds) → P c).
  { intros c Hc task delaySeconds ->. by destruct (Hc task delaySeconds). }
  cut (∃ calls, trace (queue_message env message s).1 = trace s ++ calls
                ∧ Forall (λ c, P c.1) calls).
  { intros (calls & Htr & Hcalls). exists calls. split; [done|].
    intros task delaySeconds accepted Hin.
    rewrite Forall_forall in Hcalls. by apply (Hcalls _ Hin). }
  unfold queue_message, try_catch, process, select_active_campaign, d1.
  unfold mbind at 1, M_bind at 1.
  destruct (d1_error env (tick s)) as [e|] eqn:Hd1.
  { eexists [_; _]. cbn. rewrite <- app_assoc. split; [done|].
    others Hother. }
  destruct (List.find _ (campaigns_table (db s))) as [campaign|] eqn:Hfind; cycle 1.
  { eexists [_; _]. cbn. rewrite <- app_assoc. split; [done|].
    others Hother. }
  unfold lift_result at 1. unfold mbind at 1, M_bind at 1.
  destruct (JSON_parse env (campaigns.engagement_settings campaign))
    as [engagementSettings|e].
  2:{ eexists [_; _]. cbn. rewrite <- app_assoc. split; [done|].
      others Hother. }
  unfold mbind at 1, M_bind at 1. unfold call at 1. cbn [tick db trace].
  destruct (select_accounts env (S (tick s))) as [[accountIds|error]|e] eqn:Hsel.
  3:{ eexists [_; _; _]. cbn. rewrite <- !app_assoc. split; [done|].
      others Hother. }
  2:{ eexists [_; _; _]. cbn. rewrite <- !app_assoc. split; [done|].
      others Hother. }
  assert (emits P (if Nat.eqb (length accountIds) 0 then signal (AckCampaign message)
                   else for_of accountIds
                          (expand_account env (CampaignQueueMessage.campaignId message)
                             (campaigns.sender_email campaign) engagementSettings)
                        ≫= λ _, signal (AckCampaign message))) as Hrest.
  { destruct (Nat.eqb _ 0); [by apply emits_signal, Hother|].
    apply emits_bind; [|intros; by apply emits_signal, Hother].
    apply emits_for_of_elem. intros accountId HaccountId.
    unfold expand_account. apply emits_bind.
    { unfold choose_actions, sample.
      repeat (apply emits_bind; [apply emits_bind; [apply emits_observe|intros; apply emits_ret]|];
              intros ?). apply emits_ret. }
    intros actions. apply emits_for_of. intros actionType s0.
    rewrite enqueue_action_step. eexists [_]. split; [done|]. apply Forall_singleton.
    intros task delaySeconds [= <- <-]. by exists campaign, accountIds, (tick s0). }
  match goal with |- context [?m ?s1] =>
    match m with (if _ then _ else _) => destruct (Hrest s1) as (calls & Htr & Hcalls);
                                         destruct (m s1) as [s2 [[]|e]] end end;
    cbn [fst snd trace] in *.
  - eexists ([_; _] ++ calls). rewrite Htr, <- !app_assoc. split; [done|].
    apply Forall_app. split; [|done]. others Hother.
  - eexists (([_; _] ++ calls) ++ [_]). unfold signal, call. cbn [fst trace].
    rewrite Htr, <- !app_assoc. split; [done|].
    rewrite !Forall_app. split_and!; [|done|]; others Hother.
Qed.

(** X11. Every task the consumer sends for a campaign message is well
    formed: it carries the campaign of the message and the sender address of
    an active row of that campaign, goes to an account the allocator
    returned for this message, and, with draws in [0, 1), is delayed by a
    whole number of seconds in [0, 300). *)
Theorem tasks_well_formed message s :
  (∀ t, (0 <= math_random env t)%Q ∧ (math_random env t < 1)%Q) →
  ∃ calls, trace (queue_message env message s).1 = trace s ++ calls
    ∧ ∀ task delaySeconds accepted, (SendEngagement task delaySeconds, accepted) ∈ calls →
        EngagementQueueMessage.campaignId task = CampaignQueueMessage.campaignId message
        ∧ (∃ campaign, campaign ∈ campaigns_table (db s)
             ∧ campaigns.id campaign = CampaignQueueMessage.campaignId message
             ∧ campaigns.status campaign = campaigns.active
             ∧ EngagementQueueMessage.senderEmail task = campaigns.sender_email campaign)
        ∧ (∃ accountIds,
             select_accounts env (S (tick s)) = Ok (PoolCoordinator.AccountIds accountIds)
             ∧ EngagementQueueMessage.gmailAccountId task ∈ accountIds)
        ∧ 0 ≤ delaySeconds < 300.
Proof.
  intros Hdraw. destruct (queue_message_sends message s) as (calls & Htr & Hcalls).
  exists calls. split; [done|]. intros task delaySeconds accepted Hin.
  destruct (Hcalls _ _ _ Hin)
    as (campaign & accountIds & t & Hfind & Hsel & Hid & Hsender & Haccount & ->).
  apply find_some in Hfind as [Hrow%list_elem_of_In [Hrow_id%Z.eqb_eq Hact]%andb_true_iff].
  split_and!; [done | | by exists accountIds | apply delay_bounds; apply Hdraw..].
  exists campaign. split_and!; [done..| |done].
  unfold campaigns.is_active in Hact. by destruct (campaigns.status campaign).
Qed.
End laws.

Lemma inactive_campaign_discarded_witness :
  let message := {| CampaignQueueMessage.campaignId := 2 |} in
  queue_message Samples.calm message (start Samples.tables)
  = ({| tick := 2; db := Samples.tables;
        trace := [ (SelectActiveCampaign 2, true); (AckCampaign message, true) ] |},
     Ok tt).
Proof.
  apply (inactive_campaign_discarded Samples.calm Samples.tables
           {| CampaignQueueMessage.campaignId := 2 |}); [|reflexivity].
  intros r Hr Hid. cbn in Hr. set_unfold in Hr.
  by destruct Hr as [-> | [-> | [-> | []]]].
Defined.

Lemma no_account_no_task_witness :
  let message := {| CampaignQueueMessage.campaignId := 1 |} in
  let env := Samples.allocator_answers
               (Ok (PoolCoordinator.ErrorResponse "D1_ERROR")) in
  queue_message env message (start Samples.tables)
  = ({| tick := 3; db := Samples.tables;
        trace := [ (SelectActiveCampaign 1, true); (FetchSelectAccounts 2 1, true);
                   (RetryCampaign message, true) ] |},
     Ok tt).
Proof.
  apply (no_account_no_task
           (Samples.allocator_answers (Ok (PoolCoordinator.ErrorResponse "D1_ERROR")))
           Samples.tables {| CampaignQueueMessage.campaignId := 1 |}
           (Samples.campaign 1 campaigns.active)
           {| EngagementSettings.open_rate := 1; EngagementSettings.click_rate := 0;
              EngagementSettings.reply_rate := 0;
              EngagementSettings.move_to_inbox_rate := 0 |});
    [reflexivity | reflexivity | reflexivity | discriminate].
Defined.

Lemma tasks_well_formed_witness :
  let message := {| CampaignQueueMessage.campaignId := 1 |} in
  ∃ calls, trace (queue_message Samples.calm message (start Samples.tables)).1 = calls
    ∧ ∀ task delaySeconds accepted, (SendEngagement task delaySeconds, accepted) ∈ calls →
        EngagementQueueMessage.campaignId task = 1
        ∧ (∃ campaign, campaign ∈ campaigns_table Samples.tables
             ∧ campaigns.id campaign = 1
             ∧ campaigns.status campaign = campaigns.active
             ∧ EngagementQueueMessage.senderEmail task = campaigns.sender_email campaign)
        ∧ (∃ accountIds,
             select_accounts Samples.calm 1 = Ok (PoolCoordinator.AccountIds accountIds)
             ∧ EngagementQueueMessage.gmailAccountId task ∈ accountIds)
        ∧ 0 ≤ delaySeconds < 300.
Proof.
  apply (tasks_well_formed Samples.calm {| CampaignQueueMessage.campaignId := 1 |}
           (start Samples.tables)).
  intros t. split; [by vm_compute | reflexivity].
Defined.

End ConsumerLaws.

(** ** Handlers and the store *)

Section keeps.
Context (R : Database → Database → Prop) `{!PreOrder R}.

Lemma keeps_ret {A} (a : A) : keeps R (mret a).
Proof. by intros s. Qed.

Lemma keeps_throw {A} e : keeps R (throw (A:=A) e).
Proof. by intros s. Qed.

Lemma keeps_observe {A} (oracle : nat → A) : keeps R (observe oracle).
Proof. by intros s. Qed.

Lemma keeps_call {A} c (answer : nat → result A) : keeps R (call c answer).
Proof. by intros s. Qed.

Lemma keeps_signal c : keeps R (signal c).
Proof. by intros s. Qed.

Lemma keeps_d1 {A} env c effect (answer : Database → A) :
  (∀ d, R d (effect d)) → keeps R (d1 env c effect answer).
Proof. intros Heffect s. unfold d1. by destruct (d1_error env (tick s)); cbn. Qed.

Lemma keeps_bind {A B} (m : M World A) (k : A → M World B) :
  keeps R m → (∀ a, keeps R (k a)) → keeps R (m ≫= k).
Proof.
  intros Hm Hk s. unfold mbind, M_bind. specialize (Hm s).
  destruct (m s) as [s1 [a|e]]; cbn in *; [|done]. by etrans; [|apply Hk].
Qed.

Lemma keeps_try_catch {A} (body : M World A) handler :
  keeps R body → (∀ e, keeps R (handler e)) → keeps R (try_catch body handler).
Proof.
  intros Hm Hk s. unfold try_catch. specialize (Hm s).
  destruct (body s) as [s1 [a|e]]; cbn in *; [done|]. by etrans; [|apply Hk].
Qed.

Lemma keeps_for_of {A} (xs : list A) body :
  (∀ x, x ∈ xs → keeps R (body x)) → keeps R (for_of xs body).
Proof.
  induction xs as [|x xs IH]; intros Hbody; cbn [for_of]; [apply keeps_ret|].
  apply keeps_bind; [apply Hbody; left|]. intros _. apply IH.
  intros y Hy. apply Hbody. by right.
Qed.
End keeps.

Lemma keeps_weaken {A} (R R' : Database → Database → Prop) (m : M World A) :
  (∀ d d', R d d' → R' d d') → keeps R m → keeps R' m.
Proof. intros HR Hm s. apply HR, Hm. Qed.

#[global] Instance same_logs_preorder : PreOrder same_logs.
Proof.
  split; [done|]. unfold same_logs. intros d1 d2 d3 H12 H23. by rewrite H23.
Qed.

(** ** Handlers that return *)

Section returns.

Lemma returns_ret {A} (a : A) : returns (mret a).
Proof. by intros s. Qed.

Lemma returns_observe {A} (oracle : nat → A) : returns (observe oracle).
Proof. by intros s. Qed.

Lemma returns_signal c : returns (signal c).
Proof. by intros s. Qed.

Lemma returns_d1 {A} env c effect (answer : Database → A) :
  (∀ t, d1_error env t = None) → returns (d1 env c effect answer).
Proof. intros Hd1 s. unfold d1. by rewrite Hd1. Qed.

Lemma returns_bind {A B} (m : M World A) (k : A → M World B) :
  returns m → (∀ a, returns (k a)) → returns (m ≫= k).
Proof.
  intros Hm Hk s. unfold mbind, M_bind. specialize (Hm s).
  destruct (m s) as [s1 [a|e]]; cbn in *; [apply Hk | done].
Qed.

Lemma returns_try_catch {A} (body : M World A) handler :
  (∀ e, returns (handler e)) → returns (try_catch body handler).
Proof.
  intros Hk s. unfold try_catch. destruct (body s) as [s1 [a|e]]; cbn; [done | apply Hk].
Qed.

Lemma returns_for_of {A} (xs : list A) body :
  (∀ x, returns (body x)) → returns (for_of xs body).
Proof.
  intros Hbody. induction xs as [|x xs IH]; cbn [for_of]; [apply returns_ret|].
  by apply returns_bind.
Qed.

End returns.

(** ** Handlers whose calls form a list of a given shape *)

Section appends.
Context (Q : list (Call * bool) → Prop).
Hypothesis Q_nil : Q [].
Hypothesis Q_app : ∀ calls calls', Q calls → Q calls' → Q (calls ++ calls').

Lemma appends_ret {A} (a : A) : appends Q (mret a).
Proof. intros s. exists []. by rewrite app_nil_r. Qed.

Lemma appends_throw {A} e : appends Q (throw (A:=A) e).
Proof. intros s. exists []. by rewrite app_nil_r. Qed.

Lemma appends_observe {A} (oracle : nat → A) : appends Q (observe oracle).
Proof. intros s. exists []. by rewrite app_nil_r. Qed.

Lemma appends_call {A} c (answer : nat → result A) :
  (∀ accepted, Q [(c, accepted)]) → appends Q (call c answer).
Proof. intros Hc s. by eexists [_]. Qed.

Lemma appends_signal c : (∀ accepted, Q [(c, accepted)]) → appends Q (signal c).
Proof. apply appends_call. Qed.

Lemma appends_d1 {A} env c effect (answer : Database → A) :
  (∀ accepted, Q [(c, accepted)]) → appends Q (d1 env c effect answer).
Proof. intros Hc s. unfold d1. destruct (d1_error env (tick s)); by eexists [_]. Qed.



End appends.

(** ** Handlers that log once *)

Section inserts.
Context (Q : engagement_logs.row → Prop).

Lemma inserts_throw {A} e : inserts Q (throw (A:=A) e).
Proof. intros s. exists []. by rewrite app_nil_r. Qed.

Lemma inserts_bind_l {A B} (m : M World A) (k : A → M World B) :
  keeps same_logs m → (∀ a, inserts Q (k a)) → inserts Q (m ≫= k).
Proof.
  intros Hm Hk s. unfold mbind, M_bind. specialize (Hm s). unfold same_logs in Hm.
  destruct (m s) as [s1 [a|e]]; cbn in *.
  - destruct (Hk a s1) as (rows & Hrows & HQ & Hlen). exists rows. by rewrite Hrows, Hm.
  - exists []. by rewrite app_nil_r.
Qed.

Lemma inserts_bind_r {A B} (m : M World A) (k : A → M World B) :
  inserts Q m → (∀ a, keeps same_logs (k a)) → (∀ a, returns (k a)) →
  inserts Q (m ≫= k).
Proof.
  intros Hm Hk Hret s. unfold mbind, M_bind. destruct (Hm s) as (rows & Hrows & HQ & Hlen).
  destruct (m s) as [s1 [a|e]]; cbn in *.
  - exists rows. specialize (Hk a s1). specialize (Hret a s1). unfold same_logs in Hk.
    by rewrite Hk, Hret.
  - by exists rows.
Qed.

Lemma inserts_try_catch {A} (body : M World A) handler :
  inserts Q body → (∀ e, inserts Q (handler e)) → (∀ e, returns (handler e)) →
  inserts Q (try_catch body handler).
Proof.
  intros Hm Hk Hret s. unfold try_catch. destruct (Hm s) as (rows & Hrows & HQ & Hlen).
  destruct (body s) as [s1 [a|e]]; cbn in *.
  - by exists rows.
  - destruct rows; [|done]. rewrite app_nil_r in Hrows.
    destruct (Hk e s1) as (rows' & Hrows' & HQ' & Hlen'). exists rows'.
    specialize (Hret e s1). rewrite Hret in *. by rewrite Hrows', Hrows.
Qed.

Lemma inserts_rethrow {A} (body : M World A) :
  inserts Q body → inserts Q (try_catch body (λ error, throw error)).
Proof.
  intros Hm s. unfold try_catch, throw. destruct (Hm s) as (rows & Hrows & HQ & Hlen).
  destruct (body s) as [s1 [a|e]]; cbn in *; by exists rows.
Qed.

Lemma inserts_d1 env row :
  (∀ t, d1_error env t = None) → Q row →
  inserts Q (d1 env (InsertEngagementLog row) (Engagement.add_log row) (λ _, tt)).
Proof. intros Hd1 HQ s. unfold d1. rewrite Hd1. exists [row]. cbn. by rewrite Forall_singleton. Qed.

End inserts.

(** ** The engagement worker: what it does for a task *)

Module EngagementLaws.
Import Engagement EngagementFacts.

Lemma pick_elem {A} (arr : list A) r x : pick arr r = Some x → x ∈ arr.
Proof. unfold pick. destruct (_ <? 0); [done|]. apply list_elem_of_lookup_2. Qed.

Lemma floor_scale (r : Q) (n : Z) :
  (0 <= r)%Q → (r < 1)%Q → 0 < n → 0 ≤ Qfloor (r * inject_Z n) < n.
Proof.
  intros H0 H1 Hn. split.
  - change 0 with (Qfloor 0). apply Qfloor_resp_le.
    apply Qmult_le_0_compat; [done|]. change 0%Q with (inject_Z 0).
    rewrite <- Zle_Qle. lia.
  - rewrite Zlt_Qlt. eapply Qle_lt_trans; [apply Qfloor_le|].
    rewrite <- (Qmult_1_l (inject_Z n)) at 2.
    apply Qmult_lt_compat_r; [|done]. change 0%Q with (inject_Z 0).
    by rewrite <- Zlt_Qlt.
Qed.

Lemma pick_in_range {A} (arr : list A) r :
  arr ≠ [] → (0 <= r)%Q → (r < 1)%Q → ∃ x, pick arr r = Some x ∧ x ∈ arr.
Proof.
  intros Hne H0 H1. unfold pick.
  destruct (floor_scale r (Z.of_nat (length arr)) H0 H1) as [Hlo Hhi].
  { destruct arr; [done | cbn; lia]. }
  destruct (_ <? 0) eqn:Hneg; [lia|].
  destruct (lookup_lt_is_Some_2 arr (Z.to_nat (Qfloor (r * inject_Z (Z.of_nat (length arr))))))
    as [x Hx]; [lia|].
  exists x. split; [done|]. by eapply list_elem_of_lookup_2.
Qed.

Lemma safe_link_elem link links :
  link ∈ Gmail.filterUnsubscribeLinks links → link ∈ links ∧ ¬ Gmail.unsubscribe_link link.
Proof.
  unfold Gmail.filterUnsubscribeLinks. rewrite list_elem_of_In, filter_In.
  intros [Hin Htest]. split; [by apply list_elem_of_In|].
  intros Hlink%GmailFacts.unsubscribe_link_test. cbv zeta in Htest.
  rewrite Hlink in Htest. done.
Qed.

Lemma emits_draw {A B} P (oracle : nat → A) (k : A → M World B) :
  (∀ t, emits P (k (oracle t))) → emits P (observe oracle ≫= k).
Proof.
  intros Hk s. unfold mbind, M_bind, observe. cbn.
  destruct (Hk (tick s) {| tick := S (tick s); db := db s; trace := trace s |})
    as (calls & Htr & Hcalls).
  by exists calls.
Qed.

Section task.
Variable env : Env.
Variable bodies : string → Prop.
Hypothesis reply_body :
  ∀ t, bodies (default "undefined"%string (pick replies (math_random env t))).
Variable message : EngagementQueueMessage.t.

Abbreviation campaignId := (EngagementQueueMessage.campaignId message).
Abbreviation gmailAccountId := (EngagementQueueMessage.gmailAccountId message).
Abbreviation senderEmail := (EngagementQueueMessage.senderEmail message).
Abbreviation actionType := (EngagementQueueMessage.actionType message).
Abbreviation P := (task_call bodies message).

Lemma emits_generateReply {A} (k : string → M World A) :
  (∀ body, bodies body → emits P (k body)) → emits P (generateReply env ≫= k).
Proof.
  intros Hk s. unfold generateReply, mbind, M_bind, observe, mret, M_ret. cbn.
  destruct (Hk _ (reply_body (tick s))
               {| tick := S (tick s); db := db s; trace := trace s |})
    as (calls & Htr & Hcalls).
  by exists calls.
Qed.

Lemma logEngagement_task kind status errorMessage subject :
  kind = actionType →
  emits P (logEngagement env campaignId gmailAccountId kind status errorMessage subject).
Proof. intros ->. by apply emits_d1. Qed.

Lemma click_link_task fullMessage subject :
  actionType = click →
  emits P (click_link env fullMessage (logEngagement env campaignId gmailAccountId click)
             subject).
Proof.
  intros Hkind. unfold click_link.
  destruct (getHtmlContent env fullMessage) as [htmlContent|];
    [|by apply logEngagement_task].
  destruct (String.eqb htmlContent EmptyString); [by apply logEngagement_task|].
  destruct (Nat.ltb 0 _); [|by apply logEngagement_task].
  apply emits_bind; [apply emits_observe|]. intros r.
  apply emits_try_catch; [|intros; by apply logEngagement_task].
  apply emits_bind; [|intros; by apply logEngagement_task].
  destruct (pick _ r) as [link|] eqn:Hpick; [|apply emits_throw].
  apply emits_call. split; [done|]. by apply pick_elem, safe_link_elem in Hpick as [_ ?].
Qed.

Lemma performEngagementAction_task accessToken :
  emits P (performEngagementAction env accessToken campaignId gmailAccountId senderEmail
             actionType).
Proof.
  unfold performEngagementAction.
  apply emits_try_catch; [|intros; apply emits_throw].
  apply emits_bind; [by apply emits_call|]. intros messages.
  destruct (Nat.eqb (length messages) 0); [by apply logEngagement_task|].
  apply emits_bind; [apply emits_observe|]. intros r.
  destruct (pick messages r) as [messageId|]; [|apply emits_throw].
  apply emits_bind; [by apply emits_call|]. intros fullMessage.
  destruct actionType eqn:Hkind.
  - apply emits_bind; [|intros; by apply logEngagement_task].
    apply emits_call. cbn. rewrite Hkind. by left.
  - by apply click_link_task.
  - apply emits_generateReply. intros replyBody HreplyBody.
    apply emits_bind; [|intros; by apply logEngagement_task].
    apply emits_call. cbn. by rewrite Hkind.
  - apply emits_bind; [|intros; by apply logEngagement_task].
    apply emits_call. cbn. rewrite Hkind. by right.
Qed.

Lemma valid_credentials_task account :
  emits P (valid_credentials env account gmailAccountId).
Proof.
  unfold valid_credentials.
  apply emits_bind; [by apply emits_call|]. intros credentials.
  apply emits_bind; [apply emits_observe|]. intros now_.
  destruct (_ <? now_); [|apply emits_ret].
  apply emits_bind; [by apply emits_call|]. intros refreshed.
  apply emits_bind; [by apply emits_call|]. intros encryptedCreds.
  apply emits_bind; [by apply emits_d1|]. intros _. apply emits_ret.
Qed.

Lemma queue_message_task : emits P (queue_message env message).
Proof.
  unfold queue_message, process, on_error, touch_and_ack, select_active_account.
  apply emits_try_catch.
  - apply emits_bind; [by apply emits_d1|]. intros [account|].
    + apply emits_bind; [apply valid_credentials_task|]. intros credentials.
      apply emits_bind; [apply performEngagementAction_task|]. intros _.
      apply emits_bind; [apply emits_observe|]. intros now_.
      apply emits_bind; [by apply emits_d1|]. intros _. by apply emits_signal.
    + apply emits_bind; [by apply logEngagement_task|]. intros _. by apply emits_signal.
  - intros error. apply emits_bind; [by apply logEngagement_task|]. intros _.
    by apply emits_signal.
Qed.
End task.

Section laws.
Variable env : Env.

(** X12. The worker never clicks an unsubscribe link: every link it
    requests, in any batch and whatever the mailbox returns, contains none
    of the five keywords, up to letter case; and it requests links only for
    tasks of kind click. *)
Theorem never_clicks_unsubscribe batch :
  emits (λ c, ∀ link, c = FetchHead link →
           ¬ Gmail.unsubscribe_link link
           ∧ ∃ message, message ∈ batch ∧ EngagementQueueMessage.actionType message = click)
        (queue env batch).
Proof.
  unfold queue.
  cut (∀ done_,
         emits (λ c, ∀ link, c = FetchHead link →
                  ¬ Gmail.unsubscribe_link link
                  ∧ ∃ message, message ∈ done_ ++ batch
                               ∧ EngagementQueueMessage.actionType message = click)
               (for_of batch (queue_message env))).
  { intros Hcut. apply (Hcut []). }
  induction batch as [|message batch IH]; intros done_; cbn [for_of]; [apply emits_ret|].
  apply emits_bind.
  - eapply emits_weaken; [|apply (queue_message_task env (λ _, True)); done].
    intros c Hc link ->. destruct Hc as [Hkind Hlink]. split; [done|].
    exists message. split; [|done]. set_solver.
  - intros _. specialize (IH (done_ ++ [message])). by rewrite <- app_assoc in IH.
Qed.

(** X13. What the worker does to the mailbox is the action of the task:
    it searches for at most five unread messages of the task's sender,
    marks a message read only for an open task, moves it to the inbox only
    for a move_to_inbox task, requests a link only for a click task, and
    replies only for a reply task, to the sender, with one of the six
    canned texts when the draws are in [0, 1). *)
Theorem mailbox_action_of_task message :
  (∀ t, (0 <= math_random env t)%Q ∧ (math_random env t < 1)%Q) →
  let kind := EngagementQueueMessage.actionType message in
  emits (λ c, match c with
              | ListMessages _ senderEmail maxResults =>
                  senderEmail = EngagementQueueMessage.senderEmail message
                  ∧ maxResults = 5
              | ModifyMessage _ _ addLabels removeLabels =>
                  kind = open ∧ addLabels = [] ∧ removeLabels = ["UNREAD"%string]
                  ∨ kind = move_to_inbox ∧ addLabels = ["INBOX"%string]
                    ∧ removeLabels
                      = ["SPAM"; "CATEGORY_PROMOTIONS"; "CATEGORY_UPDATES"]%string
              | SendReply _ to _ body _ _ =>
                  kind = reply ∧ to = EngagementQueueMessage.senderEmail message
                  ∧ body ∈ replies
              | FetchHead _ => kind = click
              | _ => True
              end)
        (queue_message env message).
Proof.
  intros Hdraw kind.
  eapply emits_weaken; [|apply (queue_message_task env (λ body, body ∈ replies))].
  - intros []; cbn; try done. by intros [? _].
  - intros t. destruct (pick_in_range replies (math_random env t)) as (body & -> & Hbody);
      [done | apply Hdraw..|done].
Qed.

(** *** The store *)

#[global] Instance account_kept_preorder ids : PreOrder (account_kept ids).
Proof.
  split; [by repeat split|].
  intros r1 r2 r3 (Hid & Hemail & Hstatus & Hsame) (Hid' & Hemail' & Hstatus' & Hsame').
  split_and!; [congruence..|]. intros Hout.
  rewrite <- (Hsame Hout). apply Hsame'. by rewrite Hid.
Qed.

#[global] Instance store_kept_preorder ids : PreOrder (store_kept ids).
Proof.
  split.
  - by intros d.
  - intros d1 d2 d3 (Hc & Ha & Hl) (Hc' & Ha' & Hl').
    split_and!; [congruence | by etrans | by etrans].
Qed.

Lemma store_kept_update ids gmailAccountId (change : gmail_accounts.row → gmail_accounts.row)
    (d d' : Database) :
  gmailAccountId ∈ ids →
  (∀ r, account_kept [gmail_accounts.id r] r (change r)) →
  campaigns_table d' = campaigns_table d →
  gmail_accounts_table d'
  = (λ r, if gmail_accounts.id r =? gmailAccountId then change r else r)
    <$> gmail_accounts_table d →
  engagement_logs_table d' = engagement_logs_table d →
  store_kept ids d d'.
Proof.
  intros Hin Hchange Hc Ha Hl. split_and!; [done| |by rewrite Hl].
  rewrite Ha. apply Forall2_fmap_r, Forall_Forall2_diag, Forall_forall. intros r _.
  unfold compose. destruct (Z.eqb_spec (gmail_accounts.id r) gmailAccountId) as [Hid|Hid];
    [|reflexivity].
  destruct (Hchange r) as (? & ? & ? & _). split_and!; [done..|].
  intros Hout. by rewrite Hid in Hout.
Qed.

Lemma store_kept_set_credentials ids gmailAccountId encrypted d :
  gmailAccountId ∈ ids → store_kept ids d (set_credentials gmailAccountId encrypted d).
Proof.
  intros Hin.
  apply (store_kept_update ids gmailAccountId
           (λ r, {| gmail_accounts.id := gmail_accounts.id r;
                    gmail_accounts.email_address := gmail_accounts.email_address r;
                    gmail_accounts.oauth_credentials := encrypted;
                    gmail_accounts.status := gmail_accounts.status r;
                    gmail_accounts.last_used_at := gmail_accounts.last_used_at r |}));
    [done | | done..].
  intros r. split_and!; [done..|]. intros []. left.
Qed.

Lemma store_kept_set_last_used_at ids gmailAccountId timestamp d :
  gmailAccountId ∈ ids → store_kept ids d (set_last_used_at gmailAccountId timestamp d).
Proof.
  intros Hin.
  apply (store_kept_update ids gmailAccountId
           (λ r, {| gmail_accounts.id := gmail_accounts.id r;
                    gmail_accounts.email_address := gmail_accounts.email_address r;
                    gmail_accounts.oauth_credentials := gmail_accounts.oauth_credentials r;
                    gmail_accounts.status := gmail_accounts.status r;
                    gmail_accounts.last_used_at := Some timestamp |}));
    [done | | done..].
  intros r. split_and!; [done..|]. intros []. left.
Qed.

Lemma store_kept_add_log ids row d : store_kept ids d (add_log row d).
Proof.
  split_and!; [done..|by apply prefix_app_r].
Qed.

Section frame.
Context (R : Database → Database → Prop) `{!PreOrder R}.
Variable message : EngagementQueueMessage.t.
Hypothesis R_add_log : ∀ row d, R d (add_log row d).
Hypothesis R_set_credentials :
  ∀ encrypted d,
    R d (set_credentials (EngagementQueueMessage.gmailAccountId message) encrypted d).
Hypothesis R_set_last_used_at :
  ∀ timestamp d,
    R d (set_last_used_at (EngagementQueueMessage.gmailAccountId message) timestamp d).

Lemma logEngagement_keeps campaignId gmailAccountId actionType status errorMessage subject :
  keeps R (logEngagement env campaignId gmailAccountId actionType status errorMessage subject).
Proof. by apply keeps_d1. Qed.

Lemma performEngagementAction_keeps accessToken campaignId gmailAccountId senderEmail
    actionType :
  keeps R (performEngagementAction env accessToken campaignId gmailAccountId senderEmail
             actionType).
Proof.
  unfold performEngagementAction.
  apply keeps_try_catch; [done| |intros; by apply keeps_throw].
  apply keeps_bind; [done|by apply keeps_call|]. intros messages.
  destruct (Nat.eqb (length messages) 0); [apply logEngagement_keeps|].
  apply keeps_bind; [done|by apply keeps_observe|]. intros r.
  destruct (pick messages r) as [messageId|]; [|by apply keeps_throw].
  apply keeps_bind; [done|by apply keeps_call|]. intros fullMessage.
  destruct actionType.
  - apply keeps_bind; [done|by apply keeps_call|]. intros _. apply logEngagement_keeps.
  - unfold click_link.
    destruct (getHtmlContent env fullMessage) as [htmlContent|];
      [|apply logEngagement_keeps].
    destruct (String.eqb htmlContent EmptyString); [apply logEngagement_keeps|].
    destruct (Nat.ltb 0 _); [|apply logEngagement_keeps].
    apply keeps_bind; [done|by apply keeps_observe|]. intros r'.
    apply keeps_try_catch; [done| |intros; apply logEngagement_keeps].
    apply keeps_bind; [done| |intros; apply logEngagement_keeps].
    destruct (pick _ r'); [by apply keeps_call | by apply keeps_throw].
  - apply keeps_bind; [done| |].
    { unfold generateReply. apply keeps_bind; [done|by apply keeps_observe|].
      intros; by apply keeps_ret. }
    intros replyBody.
    apply keeps_bind; [done|by apply keeps_call|]. intros _. apply logEngagement_keeps.
  - apply keeps_bind; [done|by apply keeps_call|]. intros _. apply logEngagement_keeps.
Qed.

Lemma valid_credentials_keeps account :
  keeps R (valid_credentials env account (EngagementQueueMessage.gmailAccountId message)).
Proof.
  unfold valid_credentials.
  apply keeps_bind; [done|by apply keeps_call|]. intros credentials.
  apply keeps_bind; [done|by apply keeps_observe|]. intros now_.
  destruct (_ <? now_); [|by apply keeps_ret].
  apply keeps_bind; [done|by apply keeps_call|]. intros refreshed.
  apply keeps_bind; [done|by apply keeps_call|]. intros encryptedCreds.
  apply keeps_bind; [done|by apply keeps_d1|]. intros _. by apply keeps_ret.
Qed.

Lemma select_active_account_keeps gmailAccountId :
  keeps R (select_active_account env gmailAccountId).
Proof. by apply keeps_d1. Qed.

Lemma touch_and_ack_keeps : keeps R (touch_and_ack env message).
Proof.
  unfold touch_and_ack.
  apply keeps_bind; [done|by apply keeps_observe|]. intros now_.
  apply keeps_bind; [done|by apply keeps_d1|]. intros _. by apply keeps_signal.
Qed.

Lemma on_error_keeps error : keeps R (on_error env message error).
Proof.
  unfold on_error. apply keeps_bind; [done|apply logEngagement_keeps|]. intros _.
  by apply keeps_signal.
Qed.

Lemma queue_message_keeps : keeps R (queue_message env message).
Proof.
  unfold queue_message, process.
  apply keeps_try_catch; [done| |apply on_error_keeps].
  apply keeps_bind; [done|apply select_active_account_keeps|]. intros [account|].
  - apply keeps_bind; [done|apply valid_credentials_keeps|]. intros credentials.
    apply keeps_bind; [done|apply performEngagementAction_keeps|]. intros _.
    apply touch_and_ack_keeps.
  - apply keeps_bind; [done|apply logEngagement_keeps|]. intros _. by apply keeps_signal.
Qed.
End frame.

(** X14. What a batch changes in the store: it never touches [campaigns];
    it adds and removes no pool account and changes no id, address or
    status, and rewrites only rows of the accounts named by the tasks of
    the batch (their credentials and last use); it only appends to
    [engagement_logs]. *)
Theorem batch_keeps_store batch :
  keeps (store_kept (EngagementQueueMessage.gmailAccountId <$> batch)) (queue env batch).
Proof.
  unfold queue. apply keeps_for_of; [apply _|]. intros message Hmessage.
  assert (EngagementQueueMessage.gmailAccountId message
          ∈ EngagementQueueMessage.gmailAccountId <$> batch) as Hin.
  { by apply list_elem_of_fmap_2. }
  apply queue_message_keeps; [apply _|intros..].
  - apply store_kept_add_log.
  - by apply store_kept_set_credentials.
  - by apply store_kept_set_last_used_at.
Qed.

(** *** One log row for each task *)

Section rows.
Hypothesis store_answers : ∀ t, d1_error env t = None.
Variable message : EngagementQueueMessage.t.

Abbreviation campaignId := (EngagementQueueMessage.campaignId message).
Abbreviation gmailAccountId := (EngagementQueueMessage.gmailAccountId message).
Abbreviation senderEmail := (EngagementQueueMessage.senderEmail message).
Abbreviation actionType := (EngagementQueueMessage.actionType message).

Lemma logEngagement_inserts kind status errorMessage subject :
  kind = actionType →
  inserts (log_of_task message)
    (logEngagement env campaignId gmailAccountId kind status errorMessage subject).
Proof. intros ->. by apply inserts_d1. Qed.

Lemma logEngagement_returns kind status errorMessage subject :
  returns (logEngagement env campaignId gmailAccountId kind status errorMessage subject).
Proof. by apply returns_d1. Qed.

Ltac silent :=
  first [ apply keeps_call | apply keeps_observe | apply keeps_throw | apply keeps_signal
        | apply keeps_ret ];
  apply _.

Lemma performEngagementAction_inserts accessToken :
  inserts (log_of_task message)
    (performEngagementAction env accessToken campaignId gmailAccountId senderEmail
       actionType).
Proof.
  unfold performEngagementAction. apply inserts_rethrow.
  apply inserts_bind_l; [silent|]. intros messages.
  destruct (Nat.eqb (length messages) 0); [by apply logEngagement_inserts|].
  apply inserts_bind_l; [silent|]. intros r.
  destruct (pick messages r) as [messageId|]; [|apply inserts_throw].
  apply inserts_bind_l; [silent|]. intros fullMessage.
  destruct actionType eqn:Hkind.
  - apply inserts_bind_l; [silent|]. intros _. by apply logEngagement_inserts.
  - unfold click_link.
    destruct (getHtmlContent env fullMessage) as [htmlContent|];
      [|by apply logEngagement_inserts].
    destruct (String.eqb htmlContent EmptyString); [by apply logEngagement_inserts|].
    destruct (Nat.ltb 0 _); [|by apply logEngagement_inserts].
    apply inserts_bind_l; [silent|]. intros r'.
    apply inserts_try_catch;
      [|intros; by apply logEngagement_inserts|intros; apply logEngagement_returns].
    apply inserts_bind_l; [|intros; by apply logEngagement_inserts].
    destruct (pick _ r'); silent.
  - apply inserts_bind_l.
    { unfold generateReply. apply keeps_bind; [apply _|silent|]. intros. silent. }
    intros replyBody.
    apply inserts_bind_l; [silent|]. intros _. by apply logEngagement_inserts.
  - apply inserts_bind_l; [silent|]. intros _. by apply logEngagement_inserts.
Qed.

Lemma touch_and_ack_returns : returns (touch_and_ack env message).
Proof.
  unfold touch_and_ack. apply returns_bind; [apply returns_observe|]. intros now_.
  apply returns_bind; [by apply returns_d1|]. intros _. apply returns_signal.
Qed.

Lemma on_error_returns error : returns (on_error env message error).
Proof.
  unfold on_error. apply returns_bind; [apply logEngagement_returns|]. intros _.
  apply returns_signal.
Qed.

Lemma queue_message_inserts : inserts (log_of_task message) (queue_message env message).
Proof.
  unfold queue_message, process.
  apply inserts_try_catch; [| |apply on_error_returns].
  - apply inserts_bind_l; [apply select_active_account_keeps; apply _|]. intros [account|].
    + apply inserts_bind_l; [apply valid_credentials_keeps; [apply _|done]|]. intros credentials.
      apply inserts_bind_r; [apply performEngagementAction_inserts| |].
      * intros _. apply touch_and_ack_keeps; [apply _|done].
      * intros _. apply touch_and_ack_returns.
    + apply inserts_bind_r; [by apply logEngagement_inserts| |].
      * intros _. silent.
      * intros _. apply returns_signal.
  - intros error. unfold on_error.
    apply inserts_bind_r; [by apply logEngagement_inserts| |].
    + intros _. silent.
    + intros _. apply returns_signal.
Qed.
End rows.

(** X15. While the store answers, the worker returns normally from every
    task and leaves exactly one new log row for it, naming the campaign,
    the account and the kind of the task, whatever the mailbox provider
    and the credential service do. *)
Theorem one_row_per_task message s :
  (∀ t, d1_error env t = None) →
  (queue_message env message s).2 = Ok tt
  ∧ ∃ row, engagement_logs_table (db (queue_message env message s).1)
           = engagement_logs_table (db s) ++ [row]
           ∧ log_of_task message row.
Proof.
  intros Hd1.
  destruct (queue_message_inserts Hd1 message s) as (rows & Hrows & HQ & Hlen).
  pose proof (returns_try_catch (process env message) (on_error env message)
                (on_error_returns Hd1 message) s) as Hret.
  change (is_ok (queue_message env message s).2 = true) in Hret. rewrite Hret in Hlen.
  destruct (queue_message env message s) as [s' [[]|e]]; cbn in *; [|done].
  split; [done|]. destruct rows as [|row [|??]]; [done| |done]. exists row.
  split; [done|]. by rewrite Forall_singleton in HQ.
Qed.

(** *** Settling the messages of a batch *)

Lemma engagement_settlements_app l1 l2 :
  settlements (l1 ++ l2) = settlements l1 ++ settlements l2.
Proof. apply omap_app. Qed.

Lemma engagement_settlements_quiet calls :
  Forall (λ x : Call * bool, ¬ queue_signal x.1) calls → settlements calls = [].
Proof.
  induction 1 as [|[c ok] calls Hc _ IH]; [done|]. unfold settlements in *. cbn.
  rewrite IH. by destruct c; try done; destruct Hc.
Qed.

Lemma engagement_process_settles message :
  settles (AckEngagement message) (process env message).
Proof.
  unfold process, touch_and_ack.
  apply settles_bind; [by apply select_active_account_emits|]. intros [account|].
  - apply settles_bind; [by apply valid_credentials_emits|]. intros credentials.
    apply settles_bind; [by apply performEngagementAction_emits|]. intros _.
    apply settles_bind; [apply emits_observe|]. intros now_.
    apply settles_bind; [apply emits_d1; by intros []|]. intros _. apply settles_signal.
  - apply settles_bind; [by apply logEngagement_emits|]. intros _. apply settles_signal.
Qed.

Lemma on_error_settles message error :
  settles (RetryEngagement message) (on_error env message error).
Proof.
  unfold on_error. apply settles_bind; [by apply logEngagement_emits|]. intros _.
  apply settles_signal.
Qed.

Lemma engagement_queue_message_settles message s :
  ∃ calls, Forall (λ x : Call * bool, ¬ queue_signal x.1) calls
    ∧ ∃ signals,
        trace (queue_message env message s).1 = trace s ++ calls ++ signals
        ∧ match (queue_message env message s).2 with
          | Ok _ => signals = [(AckEngagement message, true)]
                    ∨ signals = [(RetryEngagement message, true)]
          | Throw _ => signals = []
          end.
Proof.
  unfold queue_message, try_catch.
  destruct (engagement_process_settles message s) as (calls & Hq & Htr).
  destruct (process env message s) as [s1 [[]|e]]; cbn [fst snd is_ok] in *.
  - exists calls. split; [done|]. eexists. split; [done|]. by left.
  - rewrite app_nil_r in Htr.
    destruct (on_error_settles message e s1) as (calls' & Hq' & Htr').
    exists (calls ++ calls'). split; [by apply Forall_app|].
    destruct (on_error env message e s1) as [s2 [[]|e']]; cbn [fst snd is_ok] in *.
    + eexists. split; [by rewrite Htr', Htr, <- !app_assoc|]. by right.
    + exists []. split; [by rewrite Htr', Htr, <- !app_assoc|done].
Qed.

(** X16. The worker settles the messages of a batch in order, each at
    most once and with one signal only, acknowledgement or retry: a run
    that returns has settled every message exactly once; a run that throws
    (the insert of a failure row was rejected) has settled exactly the
    messages before the one it was processing. *)
Theorem engagement_batch_settled batch : ∀ s,
  ∃ calls, trace (queue env batch s).1 = trace s ++ calls
    ∧ match (queue env batch s).2 with
      | Ok _ => (settlements calls).*1 = batch
      | Throw _ => ∃ k, (k < length batch)%nat ∧ (settlements calls).*1 = take k batch
      end.
Proof.
  unfold queue. induction batch as [|message batch IH]; intros s.
  { exists []. by rewrite app_nil_r. }
  cbn [for_of]. unfold mbind, M_bind.
  destruct (engagement_queue_message_settles message s)
    as (calls & Hq & signals & Htr & Hsig).
  destruct (queue_message env message s) as [s1 [[]|e]]; cbn [fst snd] in *.
  - destruct (IH s1) as (calls' & Htr' & Hset).
    exists ((calls ++ signals) ++ calls').
    split; [by rewrite Htr', Htr, !app_assoc|].
    assert ((settlements (calls ++ signals)).*1 = [message]) as Hone.
    { rewrite engagement_settlements_app, (engagement_settlements_quiet _ Hq).
      by destruct Hsig as [-> | ->]. }
    rewrite engagement_settlements_app, fmap_app, Hone.
    destruct (for_of batch _ s1) as [s2 [[]|e]]; cbn [fst snd] in *.
    + by rewrite Hset.
    + destruct Hset as (k & Hk & Hset). exists (S k). split; [cbn; lia|].
      by rewrite Hset.
  - subst signals. exists calls. rewrite app_nil_r in Htr. split; [done|].
    exists 0%nat. split; [cbn; lia|]. by rewrite (engagement_settlements_quiet _ Hq).
Qed.

(** *** The outcome of a click *)

Section clicks.

Lemma clicks_logged_nil : clicks_logged [].
Proof. by intros i link accepted. Qed.


Lemma clicks_logged_other c accepted :
  (∀ link, c ≠ FetchHead link) → clicks_logged [(c, accepted)].
Proof.
  intros Hc [|i] link accepted' Hi; [|done]. cbn in Hi. injection Hi as -> _.
  by destruct (Hc link).
Qed.

Ltac other :=
  first [ apply appends_call | apply appends_d1 | apply appends_signal ];
  intros ?; by apply clicks_logged_other.
Ltac logged :=
  first [ apply appends_ret, clicks_logged_nil | apply appends_throw, clicks_logged_nil
        | apply appends_observe, clicks_logged_nil | other ].





End clicks.


(** *** Credentials *)

(** X18. The credentials the worker goes on with are either the stored
    ones, not expired at the clock reading, with nothing written; or, when
    the stored ones have expired, the ones the refresh made with their
    refresh token has answered, and then only after their encryption, as
    the credential service has answered it, has been written to the row of
    the account and the store has accepted the write. *)
Theorem credentials_in_use account gmailAccountId s s' credentials :
  valid_credentials env account gmailAccountId s = (s', Ok credentials) →
  let stored := DecryptCredentials (gmail_accounts.oauth_credentials account) in
  decrypt env (tick s) = Ok credentials
  ∧ date_now env (S (tick s)) ≤ OAuthCredentials.expiry_date credentials
  ∧ db s' = db s
  ∧ trace s' = trace s ++ [(stored, true)]
  ∨ ∃ stale encrypted,
      decrypt env (tick s) = Ok stale
      ∧ OAuthCredentials.expiry_date stale < date_now env (S (tick s))
      ∧ refresh env (2 + tick s) = Ok credentials
      ∧ encrypt env (3 + tick s) = Ok encrypted
      ∧ d1_error env (4 + tick s) = None
      ∧ db s' = set_credentials gmailAccountId encrypted (db s)
      ∧ trace s' = trace s ++
          [ (stored, true);
            (RefreshAccessToken (OAuthCredentials.refresh_token stale), true);
            (EncryptCredentials credentials, true);
            (UpdateCredentials gmailAccountId encrypted, true) ].
Proof.
  unfold valid_credentials, call, observe, d1, mbind, M_bind, mret, M_ret.
  cbn [tick db trace].
  destruct (decrypt env (tick s)) as [stale|e] eqn:Hdecrypt; [|done].
  cbn [tick db trace is_ok].
  destruct (Z.ltb_spec (OAuthCredentials.expiry_date stale) (date_now env (S (tick s))))
    as [Hexpired|Hvalid].
  - cbn [tick db trace].
    destruct (refresh env (S (S (tick s)))) as [refreshed|e] eqn:Hrefresh; [|done].
    cbn [tick db trace is_ok].
    destruct (encrypt env (S (S (S (tick s))))) as [encrypted|e] eqn:Hencrypt; [|done].
    cbn [tick db trace is_ok].
    destruct (d1_error env (S (S (S (S (tick s)))))) as [e|] eqn:Hd1; [done|].
    intros [= <- <-]. right. exists stale, encrypted. cbn [db trace].
    split_and!; [done..|]. by rewrite <- !app_assoc.
  - intros [= <- <-]. left. by cbn [db trace].
Qed.

(** *** Reading a message *)

(** X19. [getHtmlContent] looks for HTML in the payload, its parts and
    their sub-parts, and no deeper: it finds none exactly when none of
    these is of type text/html, and what it returns is the decoded body of
    one of them. *)
Theorem getHtmlContent_spec message :
  (getHtmlContent env message = None ↔
     GmailMessage.mimeType message ≠ "text/html"%string
     ∧ ∀ parts part, GmailMessage.parts message = Some parts → part ∈ parts →
         GmailMessage.part_mimeType part ≠ "text/html"%string
         ∧ ∀ subParts subPart, GmailMessage.part_parts part = Some subParts →
             subPart ∈ subParts →
             GmailMessage.sub_mimeType subPart ≠ "text/html"%string)
  ∧ ∀ html, getHtmlContent env message = Some html →
      GmailMessage.mimeType message = "text/html"%string
      ∧ html = base64_decode env (GmailMessage.data message)
      ∨ ∃ parts part, GmailMessage.parts message = Some parts ∧ part ∈ parts
          ∧ (GmailMessage.part_mimeType part = "text/html"%string
             ∧ html = base64_decode env (GmailMessage.part_data part)
             ∨ ∃ subParts subPart, GmailMessage.part_parts part = Some subParts
                 ∧ subPart ∈ subParts
                 ∧ GmailMessage.sub_mimeType subPart = "text/html"%string
                 ∧ html = base64_decode env (GmailMessage.sub_data subPart)).
Proof.
  assert (Hsub : ∀ subParts,
    (html_of_subparts env subParts = None ↔
       ∀ subPart, subPart ∈ subParts →
         GmailMessage.sub_mimeType subPart ≠ "text/html"%string)
    ∧ ∀ html, html_of_subparts env subParts = Some html →
        ∃ subPart, subPart ∈ subParts
          ∧ GmailMessage.sub_mimeType subPart = "text/html"%string
          ∧ html = base64_decode env (GmailMessage.sub_data subPart)).
  { induction subParts as [|subPart subParts [IHnone IHsome]]; cbn [html_of_subparts].
    { split; [|done]. split; [|done]. by intros _ subPart ?%elem_of_nil. }
    destruct (String.eqb_spec (GmailMessage.sub_mimeType subPart) "text/html") as [Hty|Hty].
    - split.
      + split; [done|]. intros Hnone. destruct (Hnone subPart); [left | done].
      + intros html [= <-]. exists subPart. split; [left | done].
    - split.
      + rewrite IHnone. split.
        * intros Hnone subPart' [-> | ?]%elem_of_cons; [done | by apply Hnone].
        * intros Hnone subPart' ?. apply Hnone. by right.
      + intros html (subPart' & ? & ? & ?)%IHsome. exists subPart'. split; [by right|done]. }
  assert (Hparts : ∀ parts,
    (html_of_parts env parts = None ↔
       ∀ part, part ∈ parts →
         GmailMessage.part_mimeType part ≠ "text/html"%string
         ∧ ∀ subParts subPart, GmailMessage.part_parts part = Some subParts →
             subPart ∈ subParts →
             GmailMessage.sub_mimeType subPart ≠ "text/html"%string)
    ∧ ∀ html, html_of_parts env parts = Some html →
        ∃ part, part ∈ parts
          ∧ (GmailMessage.part_mimeType part = "text/html"%string
             ∧ html = base64_decode env (GmailMessage.part_data part)
             ∨ ∃ subParts subPart, GmailMessage.part_parts part = Some subParts
                 ∧ subPart ∈ subParts
                 ∧ GmailMessage.sub_mimeType subPart = "text/html"%string
                 ∧ html = base64_decode env (GmailMessage.sub_data subPart))).
  { induction parts as [|part parts [IHnone IHsome]]; cbn [html_of_parts].
    { split; [|done]. split; [|done]. by intros _ part ?%elem_of_nil. }
    destruct (String.eqb_spec (GmailMessage.part_mimeType part) "text/html") as [Hty|Hty].
    { split.
      - split; [done|]. intros Hnone. destruct (Hnone part) as [? _]; [left | done].
      - intros html [= <-]. exists part. split; [left | by left]. }
    destruct (GmailMessage.part_parts part) as [subParts|] eqn:Hsubs.
    - destruct (Hsub subParts) as [Hnone Hsome].
      destruct (html_of_subparts env subParts) as [html'|] eqn:Hhtml.
      + split.
        * split; [done|]. intros Hall. destruct (Hall part) as [_ Hall']; [left|].
          destruct (Hsome html' eq_refl) as (subPart & ? & ? & _).
          by destruct (Hall' subParts subPart).
        * intros html [= <-]. destruct (Hsome html' eq_refl) as (subPart & ? & ? & ?).
          exists part. split; [left|]. right. by exists subParts, subPart.
      + split.
        * rewrite IHnone. split.
          -- intros Hall part' [-> | ?]%elem_of_cons; [|by apply Hall].
             split; [done|]. intros subParts' subPart ? ?. simplify_eq.
             by apply (proj1 Hnone eq_refl).
          -- intros Hall part' ?. apply Hall. by right.
        * intros html (part' & ? & ?)%IHsome. exists part'. split; [by right|done].
    - split.
      + rewrite IHnone. split.
        * intros Hall part' [-> | ?]%elem_of_cons; [|by apply Hall].
          split; [done|]. intros subParts' subPart. by rewrite Hsubs.
        * intros Hall part' ?. apply Hall. by right.
      + intros html (part' & ? & ?)%IHsome. exists part'. split; [by right|done]. }
  unfold getHtmlContent.
  destruct (String.eqb_spec (GmailMessage.mimeType message) "text/html") as [Hty|Hty].
  { split; [split; [done | by intros [? _]]|]. intros html [= <-]. by left. }
  destruct (GmailMessage.parts message) as [parts|].
  - destruct (Hparts parts) as [Hnone Hsome]. split.
    + rewrite Hnone. split.
      * intros Hall. split; [done|]. intros parts' part [= <-]. apply Hall.
      * intros [_ Hall] part. by apply Hall.
    + intros html (part & ? & ?)%Hsome. right. by exists parts, part.
  - split; [|done]. split; [|done]. intros _. by split.
Qed.

(** X20. The subject written to a log row is never empty. It is the text
    No Subject exactly when the message has no header named Subject, or the
    first such header has an empty value; otherwise it is the value of the
    first header named Subject, whatever the headers after it. *)
Theorem subject_of_spec (message : GmailMessage.t) :
  subject_of message ≠ EmptyString
  ∧ ((∀ h, h ∈ GmailMessage.headers message → GmailMessage.name h ≠ "Subject"%string) →
     subject_of message = "No Subject"%string)
  ∧ (∀ before header after,
       GmailMessage.headers message = before ++ header :: after →
       GmailMessage.name header = "Subject"%string →
       (∀ h, h ∈ before → GmailMessage.name h ≠ "Subject"%string) →
       (GmailMessage.value header = EmptyString →
        subject_of message = "No Subject"%string)
       ∧ (GmailMessage.value header ≠ EmptyString →
          subject_of message = GmailMessage.value header)).
Proof.
  unfold subject_of. split_and!.
  - destruct (List.find _ _) as [header|]; [|done].
    by destruct (String.eqb_spec (GmailMessage.value header) EmptyString).
  - intros Hnone. destruct (List.find _ _) as [header|] eqn:Hfind; [|done].
    apply find_some in Hfind as [Hin Hname%String.eqb_eq].
    by destruct (Hnone header); [apply list_elem_of_In|].
  - intros before header after -> Hname Hbefore.
    assert (List.find (λ h, String.eqb (GmailMessage.name h) "Subject")
                      (before ++ header :: after) = Some header) as ->.
    { induction before as [|h before IH]; cbn [app List.find].
      - by rewrite Hname.
      - destruct (String.eqb_spec (GmailMessage.name h) "Subject") as [Hh|_].
        + destruct (Hbefore h); [by left | done].
        + apply IH. intros h' Hh'. apply Hbefore. by right. }
    by destruct (String.eqb_spec (GmailMessage.value header) EmptyString).
Qed.

End laws.

Lemma mailbox_action_of_task_witness :
  let message := Samples.task 10 reply in
  let kind := EngagementQueueMessage.actionType message in
  emits (λ c, match c with
              | ListMessages _ senderEmail maxResults =>
                  senderEmail = EngagementQueueMessage.senderEmail message
                  ∧ maxResults = 5
              | ModifyMessage _ _ addLabels removeLabels =>
                  kind = open ∧ addLabels = [] ∧ removeLabels = ["UNREAD"%string]
                  ∨ kind = move_to_inbox ∧ addLabels = ["INBOX"%string]
                    ∧ removeLabels
                      = ["SPAM"; "CATEGORY_PROMOTIONS"; "CATEGORY_UPDATES"]%string
              | SendReply _ to _ body _ _ =>
                  kind = reply ∧ to = EngagementQueueMessage.senderEmail message
                  ∧ body ∈ replies
              | FetchHead _ => kind = click
              | _ => True
              end)
        (queue_message Samples.calm message).
Proof.
  apply (mailbox_action_of_task Samples.calm (Samples.task 10 reply)).
  intros t. split; [by vm_compute | reflexivity].
Defined.

Lemma one_row_per_task_witness :
  let message := Samples.task 10 open in
  let run := queue_message Samples.calm message (start Samples.tables) in
  run.2 = Ok tt
  ∧ ∃ row, engagement_logs_table (db run.1) = [] ++ [row] ∧ log_of_task message row.
Proof.
  apply (one_row_per_task Samples.calm (Samples.task 10 open) (start Samples.tables)).
  reflexivity.
Defined.


Lemma credentials_in_use_witness :
  let account := Samples.account 10 gmail_accounts.active in
  let credentials := {| OAuthCredentials.access_token := "token2";
                        OAuthCredentials.refresh_token := "refresh";
                        OAuthCredentials.expiry_date := 5000 |} in
  let s := start Samples.tables in
  let s' := (valid_credentials Samples.late account 10 s).1 in
  let stored := DecryptCredentials (gmail_accounts.oauth_credentials account) in
  decrypt Samples.late (tick s) = Ok credentials
  ∧ date_now Samples.late (S (tick s)) ≤ OAuthCredentials.expiry_date credentials
  ∧ db s' = db s
  ∧ trace s' = trace s ++ [(stored, true)]
  ∨ ∃ stale encrypted,
      decrypt Samples.late (tick s) = Ok stale
      ∧ OAuthCredentials.expiry_date stale < date_now Samples.late (S (tick s))
      ∧ refresh Samples.late (2 + tick s) = Ok credentials
      ∧ encrypt Samples.late (3 + tick s) = Ok encrypted
      ∧ d1_error Samples.late (4 + tick s) = None
      ∧ db s' = set_credentials 10 encrypted (db s)
      ∧ trace s' = trace s ++
          [ (stored, true);
            (RefreshAccessToken (OAuthCredentials.refresh_token stale), true);
            (EncryptCredentials credentials, true);
            (UpdateCredentials 10 encrypted, true) ].
Proof.
  apply (credentials_in_use Samples.late (Samples.account 10 gmail_accounts.active) 10
           (start Samples.tables)).
  reflexivity.
Defined.

End EngagementLaws.

(** ** The campaign report *)

Module ApiFacts.
Import Api.

Lemma sum_counts_from (rows : list StatRow) z :
  fold_left (λ sum row, sum + count row) rows z = z + sum_counts rows.
Proof.
  unfold sum_counts. revert z. induction rows as [|row rows IH]; intros z; cbn; [lia|].
  rewrite (IH (z + count row)), (IH (0 + count row)). lia.
Qed.

Lemma sum_counts_cons row rows : sum_counts (row :: rows) = count row + sum_counts rows.
Proof. unfold sum_counts at 1. cbn. by rewrite sum_counts_from. Qed.

(** The row of a key among the rows of the query. *)
Lemma same_action_spec a b : same_action a b = true ↔ a = b.
Proof. by destruct a, b. Qed.

Lemma same_status_spec a b : same_status a b = true ↔ a = b.
Proof. by destruct a, b. Qed.

Lemma tally_cons campaignId r logs a st :
  tally campaignId (r :: logs) a st
  = (if (engagement_logs.campaign_id r =? campaignId)
        && same_action (engagement_logs.action_type r) a
        && same_status (engagement_logs.status r) st then 1 else 0)
    + tally campaignId logs a st.
Proof. unfold tally. cbn [List.filter]. destruct (_ && _); cbn [length]; lia. Qed.

Lemma tally_logged campaignId logs :
  logged campaignId logs
  = tally campaignId logs open engagement_logs.success
    + tally campaignId logs open engagement_logs.failed
    + tally campaignId logs click engagement_logs.success
    + tally campaignId logs click engagement_logs.failed
    + tally campaignId logs reply engagement_logs.success
    + tally campaignId logs reply engagement_logs.failed
    + tally campaignId logs move_to_inbox engagement_logs.success
    + tally campaignId logs move_to_inbox engagement_logs.failed.
Proof.
  induction logs as [|r logs IH]; [done|]. rewrite !tally_cons, <- !Z.add_assoc.
  unfold logged in *. cbn [List.filter].
  destruct (engagement_logs.campaign_id r =? campaignId); cbn [andb length];
    [|lia].
  destruct (engagement_logs.action_type r), (engagement_logs.status r); cbn; lia.
Qed.

Lemma tally_succeeded campaignId logs :
  succeeded campaignId logs
  = tally campaignId logs open engagement_logs.success
    + tally campaignId logs click engagement_logs.success
    + tally campaignId logs reply engagement_logs.success
    + tally campaignId logs move_to_inbox engagement_logs.success.
Proof.
  induction logs as [|r logs IH]; [done|]. rewrite !tally_cons, <- !Z.add_assoc.
  unfold succeeded in *. cbn [List.filter].
  destruct (engagement_logs.campaign_id r =? campaignId); cbn [andb length];
    [|lia].
  destruct (engagement_logs.action_type r), (engagement_logs.status r); cbn; lia.
Qed.

(** The row of the query for an action and a status, if there is one. *)
Local Abbreviation row_of stats a st :=
  (List.find (λ row, same_action (action_type row) a && same_status (status row) st) stats).
Local Abbreviation keys stats := ((λ row, (action_type row, status row)) <$> stats).
Local Abbreviation counted row := (from_option count 0 row).

Lemma row_of_none stats a st : (a, st) ∉ keys stats → row_of stats a st = None.
Proof.
  intros Hkey. destruct (row_of stats a st) as [row|] eqn:Hfind; [|done].
  apply find_some in Hfind
    as [Hin%list_elem_of_In [Ha%same_action_spec Hst%same_status_spec]%andb_true_iff].
  destruct Hkey. apply list_elem_of_fmap. exists row. by rewrite Ha, Hst.
Qed.

Lemma sum_counts_keys stats :
  NoDup (keys stats) →
  sum_counts stats
  = counted (row_of stats open engagement_logs.success)
    + counted (row_of stats open engagement_logs.failed)
    + counted (row_of stats click engagement_logs.success)
    + counted (row_of stats click engagement_logs.failed)
    + counted (row_of stats reply engagement_logs.success)
    + counted (row_of stats reply engagement_logs.failed)
    + counted (row_of stats move_to_inbox engagement_logs.success)
    + counted (row_of stats move_to_inbox engagement_logs.failed).
Proof.
  induction stats as [|row stats IH]; [done|].
  rewrite fmap_cons, NoDup_cons. intros [Hkey Hnodup%IH].
  rewrite sum_counts_cons, Hnodup. apply row_of_none in Hkey. cbn [List.find].
  destruct (action_type row), (status row); cbn [same_action same_status andb from_option];
    rewrite Hkey; cbn [from_option]; lia.
Qed.

Lemma grouped_row campaignId logs stats a st :
  grouped campaignId logs stats → counted (row_of stats a st) = tally campaignId logs a st.
Proof.
  intros [_ Hrows]. destruct (row_of stats a st) as [row|] eqn:Hfind; cbn.
  - apply find_some in Hfind
      as [Hin%list_elem_of_In [Ha%same_action_spec Hst%same_status_spec]%andb_true_iff].
    apply Hrows in Hin as [Hcount _]. by rewrite Hcount, Ha, Hst.
  - destruct (decide (tally campaignId logs a st = 0)) as [|Hpos]; [done|].
    assert ({| action_type := a; status := st; count := tally campaignId logs a st |}
            ∈ stats) as Hin.
    { apply Hrows. cbn. split; [done|]. unfold tally in *. lia. }
    apply list_elem_of_In in Hin. eapply find_none in Hfind; [|done]. cbn in Hfind.
    by rewrite (proj2 (same_action_spec a a)), (proj2 (same_status_spec st st)) in Hfind.
Qed.

Lemma grouped_total campaignId logs stats :
  grouped campaignId logs stats → sum_counts stats = logged campaignId logs.
Proof.
  intros Hgrouped. rewrite sum_counts_keys by apply Hgrouped.
  by rewrite !(grouped_row campaignId logs), tally_logged.
Qed.

Lemma row_of_filter stats a st :
  row_of (List.filter (λ row, same_status (status row) engagement_logs.success) stats) a st
  = if same_status st engagement_logs.success then row_of stats a st else None.
Proof.
  induction stats as [|row stats IH]; cbn [List.filter List.find]; [by destruct st|].
  destruct (status row) eqn:Hstatus, st; cbn [same_status List.find andb] in *;
    rewrite ?Hstatus, ?andb_false_r, ?andb_true_r; cbn [same_status]; rewrite ?IH;
    by rewrite ?andb_false_r, ?andb_true_r.
Qed.

Lemma filter_sublist {A} (f : A → bool) (l : list A) : List.filter f l `sublist_of` l.
Proof.
  induction l as [|x l IH]; [done|]. cbn [List.filter]. destruct (f x); by constructor.
Qed.

Lemma grouped_successful campaignId logs stats :
  grouped campaignId logs stats →
  sum_counts (List.filter (λ row, same_status (status row) engagement_logs.success) stats)
  = succeeded campaignId logs.
Proof.
  intros Hgrouped. rewrite sum_counts_keys.
  - rewrite !row_of_filter. cbn [same_status from_option].
    rewrite !(grouped_row campaignId logs) by done. rewrite tally_succeeded. lia.
  - eapply sublist_NoDup; [apply Hgrouped|].
    apply fmap_sublist, filter_sublist.
Qed.

Lemma breakdown_keys stats : ∀ acc a,
  NoDup (keys stats) →
  fold_left record_row stats acc a
  = match row_of stats a engagement_logs.success, row_of stats a engagement_logs.failed with
    | None, None => acc a
    | s, f =>
        let entry := default {| success := 0; failed := 0 |} (acc a) in
        Some {| success := from_option count (success entry) s;
                failed := from_option count (failed entry) f |}
    end.
Proof.
  induction stats as [|row stats IH]; intros acc a; [done|].
  rewrite fmap_cons, NoDup_cons. intros [Hkey Hnodup]. cbn [fold_left].
  rewrite (IH _ _ Hnodup). apply row_of_none in Hkey. cbn [List.find]. unfold record_row.
  destruct (same_action a (action_type row)) eqn:Haction.
  - apply same_action_spec in Haction as ->.
    rewrite (proj2 (same_action_spec _ _) eq_refl). cbn [andb]. unfold set_count.
    destruct (status row); cbn [same_status]; rewrite Hkey.
    + by destruct (row_of stats (action_type row) engagement_logs.failed).
    + by destruct (row_of stats (action_type row) engagement_logs.success).
  - assert (same_action (action_type row) a = false) as ->.
    { by destruct a, (action_type row). }
    done.
Qed.

Lemma tally_nonneg campaignId logs a st : 0 ≤ tally campaignId logs a st.
Proof. unfold tally. lia. Qed.

Lemma grouped_row_none campaignId logs stats a st :
  grouped campaignId logs stats →
  row_of stats a st = None ↔ tally campaignId logs a st = 0.
Proof.
  intros Hgrouped. rewrite <- (grouped_row campaignId logs stats a st Hgrouped).
  destruct (row_of stats a st) as [row|] eqn:Hfind; cbn; [|done].
  apply find_some in Hfind as [Hin%list_elem_of_In _].
  apply Hgrouped in Hin as [_ Hpos]. split; [done | lia].
Qed.

(** X21. The report agrees with the log table. For the rows the
    statistics query returns over a log table, in any order: the total is
    the number of log rows of the campaign; the success rate is the
    quotient of the number of its rows with status success by the number
    of its rows, a numerator between 0 and the denominator, and it is the
    literal 0, not a division by zero, for a campaign without rows; the
    breakdown has an entry exactly for the actions that occur, with their
    numbers of successes and failures. *)
Theorem report_agrees_with_logs campaignId logs stats :
  grouped campaignId logs stats →
  let report := report_of stats in
  totalActions report = logged campaignId logs
  ∧ successRate report
    = (if 0 <? logged campaignId logs
       then Quotient (succeeded campaignId logs) (logged campaignId logs)
       else Zero)
  ∧ 0 ≤ succeeded campaignId logs ≤ logged campaignId logs
  ∧ ∀ a, actionBreakdown report a
         = let successes := tally campaignId logs a engagement_logs.success in
           let failures := tally campaignId logs a engagement_logs.failed in
           if (successes =? 0) && (failures =? 0) then None
           else Some {| success := successes; failed := failures |}.
Proof.
  intros Hgrouped report. subst report. unfold report_of.
  cbn [totalActions successRate actionBreakdown].
  rewrite (grouped_total _ _ _ Hgrouped), (grouped_successful _ _ _ Hgrouped).
  assert (0 ≤ succeeded campaignId logs ≤ logged campaignId logs) as [Hlo Hhi].
  { rewrite tally_succeeded, tally_logged.
    pose proof (tally_nonneg campaignId logs open engagement_logs.success).
    pose proof (tally_nonneg campaignId logs open engagement_logs.failed).
    pose proof (tally_nonneg campaignId logs click engagement_logs.success).
    pose proof (tally_nonneg campaignId logs click engagement_logs.failed).
    pose proof (tally_nonneg campaignId logs reply engagement_logs.success).
    pose proof (tally_nonneg campaignId logs reply engagement_logs.failed).
    pose proof (tally_nonneg campaignId logs move_to_inbox engagement_logs.success).
    pose proof (tally_nonneg campaignId logs move_to_inbox engagement_logs.failed).
    lia. }
  split_and!; [done..|].
  intros a. rewrite breakdown_keys by apply Hgrouped. cbv zeta.
  rewrite <- !(grouped_row campaignId logs stats a) by done.
  pose proof (grouped_row_none campaignId logs stats a engagement_logs.success Hgrouped)
    as Hs.
  pose proof (grouped_row_none campaignId logs stats a engagement_logs.failed Hgrouped)
    as Hf.
  rewrite <- !(grouped_row campaignId logs stats a) in Hs, Hf by done.
  destruct (row_of stats a engagement_logs.success) as [s|],
           (row_of stats a engagement_logs.failed) as [f|]; cbn in *.
  + destruct (count s =? 0) eqn:Hc; [|done].
    apply Z.eqb_eq in Hc. by apply Hs in Hc.
  + destruct (count s =? 0) eqn:Hc; [|done].
    apply Z.eqb_eq in Hc. by apply Hs in Hc.
  + destruct (count f =? 0) eqn:Hc; [|done].
    apply Z.eqb_eq in Hc. by apply Hf in Hc.
  + done.
Qed.

Lemma report_agrees_with_logs_witness :
  let report := report_of sample_stats in
  totalActions report = logged 1 sample_logs
  ∧ successRate report
    = (if 0 <? logged 1 sample_logs
       then Quotient (succeeded 1 sample_logs) (logged 1 sample_logs)
       else Zero)
  ∧ 0 ≤ succeeded 1 sample_logs ≤ logged 1 sample_logs
  ∧ ∀ a, actionBreakdown report a
         = let successes := tally 1 sample_logs a engagement_logs.success in
           let failures := tally 1 sample_logs a engagement_logs.failed in
           if (successes =? 0) && (failures =? 0) then None
           else Some {| success := successes; failed := failures |}.
Proof.
  apply (report_agrees_with_logs 1 sample_logs sample_stats). split.
  - cbn. repeat (apply NoDup_cons_2;
                 [rewrite ?elem_of_cons, elem_of_nil; intuition congruence|]).
    apply NoDup_nil_2.
  - intros [a st n]. cbn [action_type status count]. unfold sample_stats.
    rewrite !elem_of_cons, elem_of_nil. split.
    + intros [Hin|[Hin|[Hin|[]]]]; injection Hin as -> -> ->; by vm_compute.
    + intros [-> Hpos]. destruct a, st; vm_compute in Hpos; try done; auto.
Defined.

End ApiFacts.

(** ** The links of a message ([extractLinks]) *)

Module ExtractLinksFacts.
Import Gmail.

Lemma string_app_cons c (a b : string) : (String c a ++ b)%string = String c (a ++ b).
Proof. reflexivity. Qed.

Lemma string_app_nil (b : string) : (EmptyString ++ b)%string = b.
Proof. reflexivity. Qed.

Lemma every_app p a b : every p (a ++ b)%string = every p a && every p b.
Proof.
  induction a as [|c a IH]; [done|]. rewrite string_app_cons. cbn.
  by rewrite IH, andb_assoc.
Qed.

Lemma every_impl (p q : ascii → bool) s :
  (∀ c, p c = true → q c = true) → every p s = true → every q s = true.
Proof.
  intros Hpq. induction s as [|c s IH]; cbn; [done|].
  intros [Hc Hs]%andb_true_iff. by rewrite (Hpq c Hc), IH.
Qed.

Lemma length_app (a b : string) :
  String.length (a ++ b) = (String.length a + String.length b)%nat.
Proof.
  induction a as [|c a IH]; [done|]. rewrite string_app_cons. cbn. by rewrite IH.
Qed.

Lemma app_assoc_string (a b c : string) : ((a ++ b) ++ c = a ++ b ++ c)%string.
Proof. induction a as [|x a IH]; [done|]. by rewrite !string_app_cons, IH. Qed.

Ltac string_norm :=
  repeat first [ rewrite string_app_cons | rewrite app_assoc_string
               | rewrite string_app_nil ].

(** The characters of the pattern that are not letters match themselves
    only. *)
Lemma lower_char_lt c : Ascii.eqb (lower_char c) "<" = Ascii.eqb c "<".
Proof. by destruct c as [[] [] [] [] [] [] [] []]. Qed.

Lemma lower_char_quote c : Ascii.eqb (lower_char c) quote = Ascii.eqb c quote.
Proof. by destruct c as [[] [] [] [] [] [] [] []]. Qed.

(** *** What a match tells *)

Lemma letter_some {R} p (k : string → option R) s r :
  letter p k s = Some r → ∃ c s', s = String c s' ∧ lower_char c = p ∧ k s' = Some r.
Proof.
  destruct s as [|c s']; cbn; [done|].
  destruct (Ascii.eqb_spec (lower_char c) p); [|done]. by exists c, s'.
Qed.

Lemma greedy_some {R} p (k : string → option R) s r :
  greedy p k s = Some r →
  ∃ run rest, s = (run ++ rest)%string ∧ every p run = true ∧ k rest = Some r.
Proof.
  induction s as [|c s IH]; cbn.
  - intros Hk. by exists EmptyString, EmptyString.
  - destruct (p c) eqn:Hc; [|intros Hk; by exists EmptyString, (String c s)].
    destruct (greedy p k s) as [r'|] eqn:Hrec.
    + intros [= ->]. destruct (IH eq_refl) as (run & rest & -> & Hrun & Hk).
      exists (String c run), rest. cbn. by rewrite Hc, Hrun.
    + intros Hk. by exists EmptyString, (String c s).
Qed.

Lemma greedy1_some {R} p (k : string → option R) s r :
  greedy1 p k s = Some r →
  ∃ run rest, s = (run ++ rest)%string ∧ run ≠ EmptyString ∧ every p run = true
              ∧ k rest = Some r.
Proof.
  destruct s as [|c s]; cbn; [done|]. destruct (p c) eqn:Hc; [|done].
  intros (run & rest & -> & Hrun & Hk)%greedy_some.
  exists (String c run), rest. cbn. by rewrite Hc, Hrun.
Qed.

Lemma lazy_some {R} p (k : string → option R) s r :
  lazy p k s = Some r →
  ∃ run rest, s = (run ++ rest)%string ∧ every p run = true ∧ k rest = Some r.
Proof.
  induction s as [|c s IH]; cbn.
  - destruct (k EmptyString) eqn:Hk; [|done]. intros [= ->].
    by exists EmptyString, EmptyString.
  - destruct (k (String c s)) eqn:Hk.
    { intros [= ->]. by exists EmptyString, (String c s). }
    destruct (p c) eqn:Hc; [|done].
    intros (run & rest & -> & Hrun & Hk')%IH.
    exists (String c run), rest. cbn. by rewrite Hc, Hrun.
Qed.

Lemma capture_some {R} p s : ∀ (k : string → string → option R) r,
  capture p k s = Some r →
  ∃ text rest, s = (text ++ rest)%string ∧ every p text = true ∧ k text rest = Some r.
Proof.
  induction s as [|c s IH]; intros k r; cbn.
  - intros Hk. by exists EmptyString, EmptyString.
  - destruct (p c) eqn:Hc; [|intros Hk; by exists EmptyString, (String c s)].
    destruct (capture p _ s) as [r'|] eqn:Hrec.
    + intros [= ->]. destruct (IH _ _ Hrec) as (text & rest & -> & Htext & Hk).
      exists (String c text), rest. cbn. by rewrite Hc, Htext.
    + intros Hk. by exists EmptyString, (String c s).
Qed.

Lemma href_value_some s link rest :
  href_value s = Some (link, rest) →
  ∃ h, s = (h ++ link ++ String quote rest)%string
       ∧ toLowerCase h = href_open ∧ every not_quote link = true.
Proof.
  unfold href_value.
  intros (c1 & s1 & -> & H1 & (c2 & s2 & -> & H2 & (c3 & s3 & -> & H3 &
          (c4 & s4 & -> & H4 & (c5 & s5 & -> & H5 & (c6 & s6 & -> & H6 & Hcapture)
          %letter_some)%letter_some)%letter_some)%letter_some)%letter_some)%letter_some.
  apply capture_some in Hcapture as (text & rest' & -> & Htext & Hquote).
  apply letter_some in Hquote as (c & rest'' & -> & Hc & [= -> ->]).
  assert (c = quote) as ->.
  { apply Ascii.eqb_eq. rewrite <- lower_char_quote. by apply Ascii.eqb_eq. }
  exists (String c1 (String c2 (String c3 (String c4 (String c5 (String c6 EmptyString)))))).
  split_and!; [done| |done]. cbn. by rewrite H1, H2, H3, H4, H5, H6.
Qed.

Lemma white_space_not_gt c : is_white_space c = true → not_gt c = true.
Proof.
  unfold not_gt. destruct (Ascii.eqb_spec c ">") as [->|]; [|done]. by vm_compute.
Qed.

Lemma anchor_some s link rest :
  anchor s = Some (link, rest) →
  ∃ a spaces attrs h,
    s = String "<" (String a (spaces ++ attrs ++ h ++ link ++ String quote rest))
    ∧ lower_char a = "a"%char
    ∧ spaces ≠ EmptyString ∧ every is_white_space spaces = true
    ∧ every not_gt attrs = true
    ∧ toLowerCase h = href_open
    ∧ every not_quote link = true.
Proof.
  unfold anchor.
  intros (c & s1 & -> & Hc & (a & s2 & -> & Ha & Hspaces)%letter_some)%letter_some.
  assert (c = "<"%char) as ->.
  { apply Ascii.eqb_eq. rewrite <- lower_char_lt. by apply Ascii.eqb_eq. }
  apply greedy1_some in Hspaces as (spaces & s3 & -> & Hne & Hspaces & Hrest).
  destruct (lazy not_gt _ s3) as [r|] eqn:Hgroup.
  - injection Hrest as ->.
    apply lazy_some in Hgroup as (attrs & s4 & -> & Hattrs & Hmore).
    apply greedy1_some in Hmore as (spaces' & s5 & -> & _ & Hspaces' & Hvalue).
    apply href_value_some in Hvalue as (h & -> & Hh & Hlink).
    exists a, spaces, (attrs ++ spaces')%string, h.
    split_and!; [|done..| |done|done].
    + by rewrite !app_assoc_string.
    + rewrite every_app, Hattrs. cbn. eapply every_impl; [|done].
      apply white_space_not_gt.
  - apply href_value_some in Hrest as (h & -> & Hh & Hlink).
    by exists a, spaces, EmptyString, h.
Qed.

Lemma scan_elem link s : ∀ skip,
  link ∈ scan s skip →
  ∃ before s0 rest, s = (before ++ s0)%string ∧ anchor s0 = Some (link, rest).
Proof.
  induction s as [|c s IH]; intros skip; cbn [scan]; [by intros ?%elem_of_nil|].
  assert (∀ skip', link ∈ scan s skip' →
            ∃ before s0 rest, String c s = (before ++ s0)%string
                              ∧ anchor s0 = Some (link, rest)) as Hlater.
  { intros skip' (before & s0 & rest & -> & Hanchor)%IH.
    by exists (String c before), s0, rest. }
  destruct skip as [|n]; [|apply Hlater].
  destruct (anchor (String c s)) as [[link' rest]|] eqn:Hanchor; [|apply Hlater].
  intros [-> | Hin]%elem_of_cons; [|by eapply Hlater].
  by exists EmptyString, (String c s), rest.
Qed.

(** X22. Every link [extractLinks] returns is the quoted value of an href
    attribute inside the opening of an anchor: the text holds [<a] or [<A],
    white space, then, without any [>] in between, the letters href in any
    case, an equals sign, a double quote, the link, which has no double
    quote in it, and a closing double quote. *)
Theorem extractLinks_sound htmlContent link :
  link ∈ extractLinks htmlContent →
  ∃ before a spaces attrs h after,
    htmlContent
    = (before ++ String "<" (String a (spaces ++ attrs ++ h ++ link ++ String quote after)))
      %string
    ∧ lower_char a = "a"%char
    ∧ spaces ≠ EmptyString ∧ every is_white_space spaces = true
    ∧ every not_gt attrs = true
    ∧ toLowerCase h = href_open
    ∧ every not_quote link = true.
Proof.
  intros (before & s0 & rest & -> & Hanchor)%scan_elem.
  apply anchor_some in Hanchor as (a & spaces & attrs & h & -> & Hrest).
  by exists before, a, spaces, attrs, h, rest.
Qed.

(** *** What is matched *)

Lemma capture_run {R} p text c rest : ∀ (k : string → string → option R) r,
  every p text = true → p c = false → k text (String c rest) = Some r →
  capture p k (text ++ String c rest) = Some r.
Proof.
  induction text as [|x text IH]; intros k r Htext Hc Hk.
  - rewrite string_app_nil. cbn. by rewrite Hc.
  - rewrite string_app_cons. cbn in *. apply andb_true_iff in Htext as [-> Htext].
    by rewrite (IH (λ text', k (String x text')) r).
Qed.

Lemma lazy_skip {R} p (k : string → option R) run rest :
  every p run = true → every (λ c, negb (is_white_space c)) run = true →
  (∀ c s, is_white_space c = false → k (String c s) = None) →
  lazy p k (run ++ rest) = lazy p k rest.
Proof.
  intros Hrun Hnows Hk. induction run as [|x run IH]; [done|].
  rewrite string_app_cons. cbn in *.
  apply andb_true_iff in Hrun as [-> Hrun].
  apply andb_true_iff in Hnows as [Hx%negb_true_iff Hnows].
  rewrite (Hk _ _ Hx). by apply IH.
Qed.

Lemma lazy_none {R} p (k : string → option R) run c rest :
  every (λ c, negb (is_white_space c)) run = true →
  is_white_space c = false → p c = false →
  (∀ c s, is_white_space c = false → k (String c s) = None) →
  lazy p k (run ++ String c rest) = None.
Proof.
  intros Hnows Hc Hstop Hk. induction run as [|x run IH].
  - rewrite string_app_nil. cbn. by rewrite (Hk _ _ Hc), Hstop.
  - rewrite string_app_cons. cbn in *.
    apply andb_true_iff in Hnows as [Hx%negb_true_iff Hnows].
    rewrite (Hk _ _ Hx). destruct (p x); [by apply IH | done].
Qed.

Lemma spaces_then_href c s :
  is_white_space c = false → greedy1 is_white_space href_value (String c s) = None.
Proof. intros Hc. cbn. by rewrite Hc. Qed.

Lemma href_value_open u rest :
  every not_quote u = true →
  href_value (href_open ++ u ++ String quote rest) = Some (u, rest).
Proof.
  intros Hu. unfold href_value, href_open. rewrite !string_app_cons, string_app_nil.
  cbn [letter]. change (Ascii.eqb (lower_char "h") "h") with true.
  change (Ascii.eqb (lower_char "r") "r") with true.
  change (Ascii.eqb (lower_char "e") "e") with true.
  change (Ascii.eqb (lower_char "f") "f") with true.
  change (Ascii.eqb (lower_char "=") "=") with true.
  change (Ascii.eqb (lower_char quote) quote) with true. cbv iota.
  by apply capture_run.
Qed.

Lemma href_open_no_space : every (λ c, negb (is_white_space c)) href_open = true.
Proof. reflexivity. Qed.

Lemma href_open_no_gt : every not_gt href_open = true.
Proof. reflexivity. Qed.

(** The opening [<a ] followed by [s1]: the pattern goes on with the
    optional group, then without it. *)
Lemma anchor_open s1 c s2 :
  s1 = String c s2 → is_white_space c = false →
  anchor (String "<" (String "a" (String " " s1)))
  = match lazy not_gt (greedy1 is_white_space href_value) s1 with
    | Some r => Some r
    | None => href_value s1
    end.
Proof.
  intros -> Hc. unfold anchor. cbn [letter].
  change (Ascii.eqb (lower_char "<") "<") with true.
  change (Ascii.eqb (lower_char "a") "a") with true. cbv iota.
  cbn [greedy1]. change (is_white_space " ") with true. cbv iota.
  cbn [greedy]. by rewrite Hc.
Qed.

Lemma anchor_plain u rest :
  every not_quote u = true → every (λ c, negb (is_white_space c)) u = true →
  anchor (String "<" (String "a" (String " "
            (href_open ++ u ++ String quote (String ">" rest)))))
  = Some (u, String ">" rest).
Proof.
  intros Hquote Hspace.
  rewrite (anchor_open _ "h" (String "r" (String "e" (String "f" (String "="
             (String quote (u ++ String quote (String ">" rest)))))))) by done.
  replace (href_open ++ u ++ String quote (String ">" rest))%string
    with ((href_open ++ u ++ String quote EmptyString) ++ String ">" rest)%string
    by by rewrite !app_assoc_string.
  rewrite lazy_none; [| |done|done|apply spaces_then_href].
  - rewrite !app_assoc_string. by apply href_value_open.
  - by rewrite !every_app, href_open_no_space, Hspace.
Qed.

Lemma anchor_second u1 u2 rest :
  every (λ c, not_gt c && negb (is_white_space c)) u1 = true →
  every not_quote u2 = true →
  anchor (String "<" (String "a" (String " "
            (href_open ++ u1 ++ String quote
               (String " " (href_open ++ u2 ++ String quote rest))))))
  = Some (u2, rest).
Proof.
  intros Hu1 Hu2.
  rewrite (anchor_open _ "h" (String "r" (String "e" (String "f" (String "="
             (String quote (u1 ++ String quote
                (String " " (href_open ++ u2 ++ String quote rest))))))))) by done.
  replace (href_open ++ u1 ++ String quote
             (String " " (href_open ++ u2 ++ String quote rest)))%string
    with ((href_open ++ u1 ++ String quote EmptyString)
          ++ String " " (href_open ++ u2 ++ String quote rest))%string
    by by rewrite !app_assoc_string.
  rewrite lazy_skip; [| | |apply spaces_then_href].
  - cbn [lazy greedy1]. change (is_white_space " ") with true. cbv iota.
    unfold href_open at 1. rewrite !string_app_cons. cbn [greedy].
    change (is_white_space "h") with false. cbv iota.
    change (String "h" (String "r" (String "e" (String "f" (String "="
              (String quote (EmptyString ++ u2 ++ String quote rest)))))))%string
      with (href_open ++ u2 ++ String quote rest)%string.
    by rewrite href_value_open.
  - rewrite !every_app, href_open_no_gt. cbn.
    rewrite andb_true_r. eapply every_impl; [|done]. by intros c [? _]%andb_true_iff.
  - rewrite !every_app, href_open_no_space. cbn.
    rewrite andb_true_r. eapply every_impl; [|done]. by intros c [_ ?]%andb_true_iff.
Qed.

Lemma scan_skip s : ∀ skipped, scan (skipped ++ s) (String.length skipped) = scan s 0.
Proof. induction skipped as [|c skipped IH]; [done|]. by rewrite string_app_cons. Qed.

Lemma anchor_other c s : Ascii.eqb c "<" = false → anchor (String c s) = None.
Proof. intros Hc. unfold anchor. cbn [letter]. by rewrite lower_char_lt, Hc. Qed.

Lemma scan_text before s :
  every (λ c, negb (Ascii.eqb c "<")) before = true → scan (before ++ s) 0 = scan s 0.
Proof.
  induction before as [|c before IH]; [done|]. rewrite string_app_cons. cbn [every scan].
  intros [Hc%negb_true_iff Hbefore]%andb_true_iff. by rewrite (anchor_other _ _ Hc), IH.
Qed.

Lemma scan_match before c matched link rest :
  every (λ c, negb (Ascii.eqb c "<")) before = true →
  anchor (String c (matched ++ rest)) = Some (link, rest) →
  scan (before ++ String c (matched ++ rest)) 0 = link :: scan rest 0.
Proof.
  intros Hbefore Hanchor. rewrite scan_text by done. cbn [scan]. rewrite Hanchor.
  f_equal. cbn [String.length]. rewrite length_app.
  replace (S (String.length matched + String.length rest) - String.length rest - 1)%nat
    with (String.length matched) by lia.
  apply scan_skip.
Qed.

(** X23. A plain anchor is found. In a text [before <a href=Qlink Q> after]
    (Q the double quote, no space around the link), where [before] holds no
    [<] and the link neither a double quote nor white space, the link is
    the first one returned, and the scan goes on after the tag. *)
Theorem extractLinks_plain_anchor before link after :
  every (λ c, negb (Ascii.eqb c "<")) before = true →
  every not_quote link = true →
  every (λ c, negb (is_white_space c)) link = true →
  extractLinks (before ++ "<a " ++ href_open ++ link ++ String quote (String ">" after))
  = link :: extractLinks after.
Proof.
  intros Hbefore Hquote Hspace. unfold extractLinks.
  change ("<a " ++ href_open ++ link ++ String quote (String ">" after))%string
    with (String "<" (String "a" (String " "
            (href_open ++ link ++ String quote (String ">" after))))).
  replace (String "a" (String " " (href_open ++ link ++ String quote (String ">" after))))
    with ((String "a" (String " " (href_open ++ link ++ String quote EmptyString)))
          ++ String ">" after)%string
    by by rewrite !string_app_cons, !app_assoc_string.
  rewrite (scan_match before "<" _ link (String ">" after) Hbefore).
  - cbn [scan]. by rewrite anchor_other.
  - rewrite !string_app_cons, !app_assoc_string. by apply anchor_plain.
Qed.

(** X24. Of two href attributes in one tag the second is taken: the
    optional group of the pattern is tried first and runs over the first
    attribute, whose value is neither returned nor looked at again (a
    browser follows the first). *)
Theorem extractLinks_second_href before first second after :
  every (λ c, negb (Ascii.eqb c "<")) before = true →
  every (λ c, not_gt c && negb (is_white_space c)) first = true →
  every not_quote second = true →
  extractLinks (before ++ "<a " ++ href_open ++ first ++ String quote
                  (" " ++ href_open ++ second ++ String quote (String ">" after)))
  = second :: extractLinks after.
Proof.
  intros Hbefore Hfirst Hsecond. unfold extractLinks.
  change ("<a " ++ href_open ++ first ++ String quote
            (" " ++ href_open ++ second ++ String quote (String ">" after)))%string
    with (String "<" (String "a" (String " "
            (href_open ++ first ++ String quote
               (String " " (href_open ++ second ++ String quote (String ">" after))))))).
  replace (String "a" (String " " (href_open ++ first ++ String quote
             (String " " (href_open ++ second ++ String quote (String ">" after))))))
    with ((String "a" (String " " (href_open ++ first ++ String quote
             (String " " (href_open ++ second ++ String quote EmptyString)))))
          ++ String ">" after)%string
    by (by string_norm).
  rewrite (scan_match before "<" _ second (String ">" after) Hbefore).
  - cbn [scan]. by rewrite anchor_other.
  - string_norm. by apply anchor_second.
Qed.

Lemma extractLinks_sound_witness :
  ∃ before a spaces attrs h after,
    Samples.anchor_to "https://x/view"
    = (before ++ String "<" (String a
         (spaces ++ attrs ++ h ++ "https://x/view" ++ String quote after)))%string
    ∧ lower_char a = "a"%char
    ∧ spaces ≠ EmptyString ∧ every is_white_space spaces = true
    ∧ every not_gt attrs = true
    ∧ toLowerCase h = href_open
    ∧ every not_quote "https://x/view" = true.
Proof.
  apply (extractLinks_sound (Samples.anchor_to "https://x/view") "https://x/view").
  vm_compute. left.
Defined.

Lemma extractLinks_plain_anchor_witness :
  extractLinks ("Read " ++ "<a " ++ href_open ++ "https://x/view"
                ++ String quote (String ">" "here</a>"))
  = "https://x/view"%string :: extractLinks "here</a>".
Proof.
  apply (extractLinks_plain_anchor "Read " "https://x/view" "here</a>"); reflexivity.
Defined.

Lemma extractLinks_second_href_witness :
  extractLinks ("Read " ++ "<a " ++ href_open ++ "https://x/one" ++ String quote
                  (" " ++ href_open ++ "https://x/two"
                   ++ String quote (String ">" "here</a>")))
  = "https://x/two"%string :: extractLinks "here</a>".
Proof.
  apply (extractLinks_second_href "Read " "https://x/one" "https://x/two" "here</a>");
    reflexivity.
Defined.

End ExtractLinksFacts.

(** ** The raw message of a reply ([sendReply]) *)

Module SendReplyFacts.
Import Gmail ExtractLinksFacts.

Lemma base64_digit_url_safe n :
  (n < 64)%N →
  every url_safe (replace_all "/" "_" (replace_all "+" "-"
                    (String (base64_digit n) EmptyString))) = true.
Proof.
  intros Hn.
  assert (forallb (λ i, every url_safe (replace_all "/" "_" (replace_all "+" "-"
                          (String (base64_digit (N.of_nat i)) EmptyString))))
                  (seq 0 64) = true) as Hall by by vm_compute.
  rewrite forallb_forall in Hall. rewrite <- (N2Nat.id n). apply Hall, in_seq. lia.
Qed.

Lemma every_cons_digit n digits :
  (n < 64)%N →
  every url_safe (replace_all "/" "_" (replace_all "+" "-" digits)) = true →
  every url_safe (replace_all "/" "_" (replace_all "+" "-"
                    (String (base64_digit n) digits))) = true.
Proof.
  intros Hn Hdigits. apply base64_digit_url_safe in Hn. cbn [replace_all every] in *.
  rewrite andb_true_r in Hn. by rewrite Hn, Hdigits.
Qed.

Lemma url_safe_not_padding c : url_safe c = true → Ascii.eqb c "=" = false.
Proof.
  destruct (Ascii.eqb_spec c "=") as [->|]; [|done]. by vm_compute.
Qed.

Lemma replace_all_app x y a b :
  replace_all x y (a ++ b) = (replace_all x y a ++ replace_all x y b)%string.
Proof.
  induction a as [|c a IH]; [done|]. rewrite string_app_cons. cbn [replace_all].
  by rewrite IH.
Qed.

Lemma strip_padding_app digits padding :
  every url_safe digits = true → every (λ c, Ascii.eqb c "=") padding = true →
  strip_padding (digits ++ padding) = digits.
Proof.
  intros Hdigits Hpadding. induction digits as [|c digits IH].
  - rewrite string_app_nil. induction padding as [|c padding IH]; [done|].
    cbn in *. apply andb_true_iff in Hpadding as [-> Hpadding]. by rewrite IH.
  - rewrite string_app_cons. cbn in *.
    apply andb_true_iff in Hdigits as [Hc%url_safe_not_padding Hdigits].
    rewrite (IH Hdigits), Hc. by destruct digits.
Qed.

Lemma base64_indices x y :
  (x < 256)%N → (y < 256)%N →
  (x / 4 < 64 ∧ x mod 4 * 16 < 64 ∧ x mod 4 * 16 + y / 16 < 64
   ∧ x mod 16 * 4 < 64 ∧ x mod 16 * 4 + y / 64 < 64 ∧ x mod 64 < 64)%N.
Proof.
  intros Hx Hy.
  assert (x / 4 < 64)%N by (apply N.Div0.div_lt_upper_bound; lia).
  assert (y / 16 < 16)%N by (apply N.Div0.div_lt_upper_bound; lia).
  assert (y / 64 < 4)%N by (apply N.Div0.div_lt_upper_bound; lia).
  assert (x mod 4 < 4)%N by (apply N.mod_upper_bound; lia).
  assert (x mod 16 < 16)%N by (apply N.mod_upper_bound; lia).
  assert (x mod 64 < 64)%N by (apply N.mod_upper_bound; lia).
  lia.
Qed.

(** The digits and the padding of [btoa]. *)
Lemma btoa_digits n : ∀ s,
  (String.length s ≤ n)%nat →
  ∃ digits padding,
    btoa s = (digits ++ padding)%string
    ∧ every url_safe (replace_all "/" "_" (replace_all "+" "-" digits)) = true
    ∧ every (λ c, Ascii.eqb c "=") padding = true
    ∧ replace_all "/" "_" (replace_all "+" "-" padding) = padding
    ∧ String.length digits = ((4 * String.length s + 2) / 3)%nat.
Proof.
  assert (Hbyte : ∀ c, (N_of_ascii c < 256)%N) by apply N_ascii_bounded.
  induction n as [n IH] using lt_wf_ind. intros s Hlen.
  destruct s as [|a [|b [|c rest]]].
  - by exists EmptyString, EmptyString.
  - eexists (String _ (String _ EmptyString)), (String "=" (String "=" EmptyString)).
    split; [reflexivity|].
    destruct (base64_indices _ _ (Hbyte a) (Hbyte a)) as (? & ? & ? & ? & ? & ?).
    split_and!; [|reflexivity..].
    repeat (apply every_cons_digit; [done|]). done.
  - eexists (String _ (String _ (String _ EmptyString))), (String "=" EmptyString).
    split; [reflexivity|].
    destruct (base64_indices _ _ (Hbyte a) (Hbyte b)) as (? & ? & ? & ? & ? & ?).
    destruct (base64_indices _ _ (Hbyte b) (Hbyte b)) as (? & ? & ? & ? & ? & ?).
    split_and!; [|reflexivity..].
    repeat (apply every_cons_digit; [done|]). done.
  - cbn [String.length] in Hlen.
    destruct (IH (String.length rest) ltac:(lia) rest ltac:(lia))
      as (digits & padding & Hbtoa & Hsafe & Hpad & Hsame & Hdigits).
    eexists (String _ (String _ (String _ (String _ digits)))), padding.
    cbn [btoa]. rewrite Hbtoa. split; [reflexivity|].
    destruct (base64_indices _ _ (Hbyte a) (Hbyte b)) as (? & ? & ? & ? & ? & ?).
    destruct (base64_indices _ _ (Hbyte b) (Hbyte c)) as (? & ? & ? & ? & ? & ?).
    destruct (base64_indices _ _ (Hbyte c) (Hbyte c)) as (? & ? & ? & ? & ? & ?).
    split_and!; [|done..|].
    + repeat (apply every_cons_digit; [done|]). done.
    + cbn [String.length]. rewrite Hdigits.
      replace (4 * S (S (S (String.length rest))) + 2)%nat
        with (4 * String.length rest + 2 + 4 * 3)%nat by lia.
      rewrite Nat.div_add by done. lia.
Qed.

(** X25. The raw message [sendReply] posts is in the alphabet the mailbox
    provider asks for: only letters, digits, [-] and [_], with no [+], [/]
    or padding left, and four digits for every three characters of the
    message, rounded up. *)
Theorem raw_reply_url_safe to subject body messageId :
  let email := join_crlf [ ("To: " ++ to)%string; ("Subject: Re: " ++ subject)%string;
                           ("In-Reply-To: " ++ messageId)%string;
                           ("References: " ++ messageId)%string;
                           EmptyString; body ] in
  every url_safe (raw_reply to subject body messageId) = true
  ∧ String.length (raw_reply to subject body messageId)
    = ((4 * String.length email + 2) / 3)%nat.
Proof.
  intros email. unfold raw_reply. fold email.
  destruct (btoa_digits (String.length email) email (le_n _))
    as (digits & padding & -> & Hsafe & Hpad & Hsame & Hdigits).
  rewrite !replace_all_app, Hsame, strip_padding_app by done.
  split; [done|]. rewrite <- Hdigits. clear.
  induction digits as [|c digits IH]; cbn; [done | by rewrite IH].
Qed.

End SendReplyFacts.

(** ** The workers together *)

Module Pipeline.

(** The campaign messages of a scheduler run are those of a prefix of the
    active campaigns. *)
Lemma published_active env tables :
  ∃ k, Scheduler.published (trace (Scheduler.scheduled env (start tables)).1)
       = Scheduler.message_of
         <$> take k (List.filter campaigns.is_active (campaigns_table tables)).
Proof.
  unfold Scheduler.scheduled, try_catch, Scheduler.select_active_campaigns, d1, start,
    mbind, M_bind, throw.
  cbn [tick db trace].
  destruct (d1_error env 0) as [e|] eqn:Hd1; [by exists 0%nat|].
  match goal with |- context [for_of ?rows _ ?s1] =>
    pose proof (SchedulerFacts.send_all env rows s1) as Hloop
  end.
  destruct (for_of _ _ _) as [s' [[]|e]]; cbn in Hloop; cbn [fst snd].
  - eexists. rewrite Hloop. by rewrite firstn_all.
  - destruct Hloop as (k & Hk & Hpub & Hsend). by exists k.
Qed.

(** X26. The scheduler and the consumer agree on what an active campaign
    is: on the same tables, the consumer's lookup finds an active row for
    every message the scheduler has published, so that, if the store
    answers, such a message is never discarded: the consumer goes on to
    parse the settings of the row and, with these parsed, to ask the
    allocator for [pool_size] accounts. *)
Theorem published_campaign_is_expanded env env' tables message :
  message ∈ Scheduler.published (trace (Scheduler.scheduled env (start tables)).1) →
  d1_error env' 0 = None →
  ∃ campaign,
    campaign ∈ campaigns_table tables
    ∧ campaigns.id campaign = CampaignQueueMessage.campaignId message
    ∧ campaigns.status campaign = campaigns.active
    ∧ let run := Consumer.queue_message env' message (start tables) in
      match JSON_parse env' (campaigns.engagement_settings campaign) with
      | Ok _ =>
          trace run.1 !! 1%nat
          = Some (FetchSelectAccounts (campaigns.pool_size campaign)
                    (CampaignQueueMessage.campaignId message),
                  is_ok (select_accounts env' 1))
      | Throw _ =>
          trace run.1
          = [ (SelectActiveCampaign (CampaignQueueMessage.campaignId message), true);
              (RetryCampaign message, true) ]
      end.
Proof.
  intros Hpub Hd1. destruct (published_active env tables) as [k Hk].
  rewrite Hk in Hpub. apply list_elem_of_fmap in Hpub as (row & -> & Hrow).
  apply subseteq_take, list_elem_of_In, filter_In in Hrow as [Hin Hactive].
  destruct (List.find (λ r, (campaigns.id r =? campaigns.id row) && campaigns.is_active r)
              (campaigns_table tables)) as [campaign|] eqn:Hfind; cycle 1.
  { eapply find_none in Hfind; [|done]. by rewrite Z.eqb_refl, Hactive in Hfind. }
  pose proof Hfind as Hfound.
  apply find_some in Hfound
    as [Hrow%list_elem_of_In [Hid%Z.eqb_eq Hact]%andb_true_iff].
  exists campaign. split_and!; [done..| |].
  { unfold campaigns.is_active in Hact. by destruct (campaigns.status campaign). }
  cbv zeta.
  assert (Hstep : ∀ k : option campaigns.row → M World unit,
            (Consumer.select_active_campaign env' (campaigns.id row) ≫= k) (start tables)
            = k (Some campaign)
                {| tick := 1; db := tables;
                   trace := [(SelectActiveCampaign (campaigns.id row), true)] |}).
  { intros k'. unfold Consumer.select_active_campaign, d1, start, mbind, M_bind.
    cbn [tick db trace]. by rewrite Hd1, Hfind. }
  unfold Consumer.queue_message, try_catch, Consumer.process.
  cbn [Scheduler.message_of CampaignQueueMessage.campaignId]. rewrite Hstep.
  unfold lift_result at 1. unfold mbind at 1, M_bind at 1.
  destruct (JSON_parse env' (campaigns.engagement_settings campaign))
    as [engagementSettings|e]; [|done].
  unfold mbind at 1, M_bind at 1. unfold call at 1. cbn [tick db trace].
  destruct (select_accounts env' 1) as [[accountIds|error]|e]; cbn [is_ok]; [|done..].
  pose proof (ConsumerLaws.process_rest_emits env' (Scheduler.message_of row)
                (campaigns.sender_email campaign) engagementSettings accountIds) as Hrest.
  cbn [Scheduler.message_of CampaignQueueMessage.campaignId] in Hrest.
  match goal with |- context [?m ?s1] =>
    match m with (if _ then _ else _) =>
      destruct (Hrest s1) as (calls & Htr & _); destruct (m s1) as [s2 [[]|e]] end end;
    cbn [fst snd trace] in *.
  - by rewrite Htr.
  - unfold signal, call. cbn [fst trace]. by rewrite Htr.
Qed.

Lemma published_campaign_is_expanded_witness :
  let message := {| CampaignQueueMessage.campaignId := 3 |} in
  ∃ campaign,
    campaign ∈ campaigns_table Samples.tables
    ∧ campaigns.id campaign = 3
    ∧ campaigns.status campaign = campaigns.active
    ∧ let run := Consumer.queue_message Samples.calm message (start Samples.tables) in
      match JSON_parse Samples.calm (campaigns.engagement_settings campaign) with
      | Ok _ =>
          trace run.1 !! 1%nat
          = Some (FetchSelectAccounts (campaigns.pool_size campaign) 3,
                  is_ok (select_accounts Samples.calm 1))
      | Throw _ =>
          trace run.1 = [ (SelectActiveCampaign 3, true); (RetryCampaign message, true) ]
      end.
Proof.
  apply (published_campaign_is_expanded Samples.calm Samples.calm Samples.tables
           {| CampaignQueueMessage.campaignId := 3 |}); [|reflexivity].
  vm_compute. right. left.
Defined.

(** X27. The consumer and the allocator together: when the response the
    consumer receives is the one the durable object has produced, every
    task it sends goes to an account that the object has just stamped with
    its clock reading, in memory and in durable storage, and that the store
    listed as active to the object and the object found available. *)
Theorem tasks_go_to_reserved_accounts env message s w request this this' response :
  PoolCoordinator.selectAccounts w request this = (this', Ok response) →
  select_accounts env (S (tick s)) = Ok response →
  ∃ calls, trace (Consumer.queue_message env message s).1 = trace s ++ calls
    ∧ ∀ task delaySeconds accepted, (SendEngagement task delaySeconds, accepted) ∈ calls →
        let account := EngagementQueueMessage.gmailAccountId task in
        PoolCoordinator.lastUsedAccounts this' !! Some account
        = Some (PoolCoordinator.now w)
        ∧ (PoolCoordinator.storage this' ≫= λ stored, stored !! toString (Some account))
          = Some (PoolCoordinator.now w)
        ∧ ∃ rows row,
            PoolCoordinator.all_accounts w = Ok rows ∧ row ∈ rows
            ∧ PoolCoordinator.id row = account
            ∧ PoolCoordinator.available (PoolCoordinator.hydrated this)
                (PoolCoordinator.now w) row = true.
Proof.
  intros Hselect Hresponse.
  destruct (ConsumerLaws.queue_message_sends env message s) as (calls & Htr & Hcalls).
  exists calls. split; [done|]. intros task delaySeconds accepted Hin account.
  destruct (Hcalls _ _ _ Hin) as (campaign & accountIds & t & _ & Hsel & _ & _ & Haccount & _).
  rewrite Hresponse in Hsel. injection Hsel as ->.
  pose proof (PoolCoordinatorFacts.select_stamps_now _ _ _ _ _ _ Hselect Haccount) as Hstamp.
  destruct (PoolCoordinatorFacts.selectAccounts_ids _ _ _ _ _ Hselect)
    as [-> | (rows & Hrows & Hids & Hstorage & _)]; [by apply elem_of_nil in Haccount|].
  split_and!; [done | |].
  - rewrite Hstorage.
    change (PoolCoordinator.map_to_record (PoolCoordinator.lastUsedAccounts this')
            !! toString (Some account) = Some (PoolCoordinator.now w)).
    unfold PoolCoordinator.map_to_record. by rewrite (lookup_kmap toString).
  - rewrite Hids in Haccount.
    apply PoolCoordinatorFacts.picked_available in Haccount as (row & ? & ? & ?).
    by exists rows, row.
Qed.

Lemma tasks_go_to_reserved_accounts_witness :
  let env := Samples.allocator_answers (Ok (PoolCoordinator.AccountIds [1; 2])) in
  let message := {| CampaignQueueMessage.campaignId := 1 |} in
  let w := PoolCoordinator.sample_world 1000 in
  let this := PoolCoordinator.constructor None None in
  let this' := (PoolCoordinator.selectAccounts w (PoolCoordinator.sample_request 2) this).1 in
  ∃ calls, trace (Consumer.queue_message env message (start Samples.tables)).1 = calls
    ∧ ∀ task delaySeconds accepted, (SendEngagement task delaySeconds, accepted) ∈ calls →
        let account := EngagementQueueMessage.gmailAccountId task in
        PoolCoordinator.lastUsedAccounts this' !! Some account = Some 1000
        ∧ (PoolCoordinator.storage this' ≫= λ stored, stored !! toString (Some account))
          = Some 1000
        ∧ ∃ rows row,
            PoolCoordinator.all_accounts w = Ok rows ∧ row ∈ rows
            ∧ PoolCoordinator.id row = account
            ∧ PoolCoordinator.available (PoolCoordinator.hydrated this) 1000 row = true.
Proof.
  apply (tasks_go_to_reserved_accounts
           (Samples.allocator_answers (Ok (PoolCoordinator.AccountIds [1; 2])))
           {| CampaignQueueMessage.campaignId := 1 |} (start Samples.tables)
           (PoolCoordinator.sample_world 1000) (PoolCoordinator.sample_request 2)
           (PoolCoordinator.constructor None None)
           (PoolCoordinator.selectAccounts (PoolCoordinator.sample_world 1000)
              (PoolCoordinator.sample_request 2)
              (PoolCoordinator.constructor None None)).1
           (PoolCoordinator.AccountIds [1; 2])).
  - by vm_compute.
  - reflexivity.
Defined.



Ltac kept :=
  first [ apply keeps_throw | apply keeps_signal | apply keeps_call | apply keeps_observe
        | apply keeps_ret | apply keeps_d1 ];
  first [ apply _ | done ].

#[global] Instance same_store_preorder : PreOrder (@eq Database).
Proof. split; [done | by intros ??? -> ->]. Qed.

(** X29. The scheduler and the consumer only read the store: whatever
    happens during a run, the tables are afterwards as they were. *)
Theorem scheduler_and_consumer_read_only env batch :
  keeps eq (Scheduler.scheduled env) ∧ keeps eq (Consumer.queue env batch).
Proof.
  split.
  - unfold Scheduler.scheduled, Scheduler.select_active_campaigns.
    apply keeps_try_catch; [apply _| |intros; kept].
    apply keeps_bind; [apply _|kept|]. intros campaigns.
    apply keeps_for_of; [apply _|]. intros campaign _. kept.
  - unfold Consumer.queue. apply keeps_for_of; [apply _|]. intros message _.
    unfold Consumer.queue_message, Consumer.process, Consumer.select_active_campaign.
    apply keeps_try_catch; [apply _| |intros; kept].
    apply keeps_bind; [apply _|kept|].
    intros [campaign|]; [|kept].
    apply keeps_bind; [apply _|by intros s|]. intros engagementSettings.
    apply keeps_bind; [apply _|kept|].
    intros [accountIds|error]; [|kept].
    destruct (Nat.eqb _ 0); [kept|].
    apply keeps_bind; [apply _| |intros; kept].
    apply keeps_for_of; [apply _|]. intros accountId _.
    unfold Consumer.expand_account, Consumer.choose_actions, Consumer.sample.
    apply keeps_bind; [apply _| |].
    { repeat (apply keeps_bind;
                [apply _
                |apply keeps_bind; [apply _|kept|intros; kept]
                |intros ?]).
      kept. }
    intros actions. apply keeps_for_of; [apply _|]. intros actionType _.
    unfold Consumer.enqueue_action.
    apply keeps_bind; [apply _|kept|]. intros r. kept.
Qed.

End Pipeline.
